(** * OrbitService/LinuxTracingHandler.cpp: the collection tier of the profiler

    A shallow embedding of [LinuxTracingHandler]: the sink callbacks that
    intern payloads and append events to the shared event buffer, the
    sender thread that flushes the buffer to the capture response listener,
    and the drain of the side-channel file on the last iteration.

    Producer code is written in a small monad, [Prog], whose primitive
    operations are the lock-protected blocks of the source.  One block is
    one atomic step.  The same programs are run sequentially ([exec]) and
    interleaved with other threads and with the sender thread ([step]). *)

From Stdlib Require Import ZArith List Lia.
From Stdlib.Strings Require Import Byte.
From stdpp Require Import gmap strings list.
From Equations.Prop Require Import Equations Logic.

Local Open Scope Z_scope.

(** ** Machine integers *)

(** [uint64_t]: an integer in [0, 2^64), arithmetic wraps around. *)
Abbreviation uint64 := Z (only parsing).

Definition wrap64 (z : Z) : Z := z mod 2 ^ 64.

(** ** Messages

    The protobuf schema is not part of the handler's source.  Messages that
    the handler only moves around are abstract; of the others, the fields
    that the handler reads or writes are explicit and the remaining fields
    are kept in one abstract component. *)

Class Protos : Type := {
  CaptureOptions : Type;
  SchedulingSlice : Type;
  FunctionCall : Type;
  IntrospectionScope : Type;
  ThreadName : Type;
  ThreadStateSlice : Type;
  GpuQueueSubmisssion : Type;
  CallstackSampleFields : Type;
  GpuJobFields : Type;
  AddressInfoFields : Type;
  TracepointEventFields : Type
}.

(** A protobuf [oneof] holding either a payload or its intern key. *)
Inductive OneOf (A : Type) : Type :=
| kNotSet
| kValue (value : A)
| kKey (key : uint64).

Arguments kNotSet {A}.
Arguments kValue {A} value.
Arguments kKey {A} key.

Record Callstack : Type := { pcs : list uint64 }.

Record TracepointInfo : Type := { name : string; category : string }.

Section Messages.
Context {protos : Protos}.

Record CallstackSample : Type := {
  callstack_sample_fields : CallstackSampleFields;
  callstack_or_key : OneOf Callstack
}.

Record GpuJob : Type := {
  gpu_job_fields : GpuJobFields;
  timeline_or_key : OneOf string
}.

Record AddressInfo : Type := {
  absolute_address : uint64;
  address_info_fields : AddressInfoFields;
  function_name_or_key : OneOf string;
  map_name_or_key : OneOf string
}.

Record TracepointEvent : Type := {
  tracepoint_event_fields : TracepointEventFields;
  tracepoint_info_or_key : OneOf TracepointInfo
}.

(** [CaptureEvent]: the tagged union that goes into the event buffer. *)
Inductive CaptureEvent : Type :=
| kSchedulingSlice (scheduling_slice : SchedulingSlice)
| kCallstackSample (callstack_sample : CallstackSample)
| kFunctionCall (function_call : FunctionCall)
| kIntrospectionScope (introspection_scope : IntrospectionScope)
| kGpuJob (gpu_job : GpuJob)
| kThreadName (thread_name : ThreadName)
| kThreadStateSlice (thread_state_slice : ThreadStateSlice)
| kAddressInfo (address_info : AddressInfo)
| kTracepointEvent (tracepoint_event : TracepointEvent)
| kInternedString (key : uint64) (intern : string)
| kInternedCallstack (key : uint64) (intern : Callstack)
| kInternedTracepointInfo (key : uint64) (intern : TracepointInfo)
| kGpuQueueSubmission (gpu_queue_submission : GpuQueueSubmisssion).

Definition set_callstack_key (key : uint64) (m : CallstackSample) : CallstackSample :=
  {| callstack_sample_fields := callstack_sample_fields m;
     callstack_or_key := kKey key |}.

Definition set_timeline_key (key : uint64) (m : GpuJob) : GpuJob :=
  {| gpu_job_fields := gpu_job_fields m; timeline_or_key := kKey key |}.

Definition set_function_name_key (key : uint64) (m : AddressInfo) : AddressInfo :=
  {| absolute_address := absolute_address m;
     address_info_fields := address_info_fields m;
     function_name_or_key := kKey key;
     map_name_or_key := map_name_or_key m |}.

Definition set_map_name_key (key : uint64) (m : AddressInfo) : AddressInfo :=
  {| absolute_address := absolute_address m;
     address_info_fields := address_info_fields m;
     function_name_or_key := function_name_or_key m;
     map_name_or_key := kKey key |}.

Definition set_tracepoint_info_key (key : uint64) (m : TracepointEvent) : TracepointEvent :=
  {| tracepoint_event_fields := tracepoint_event_fields m;
     tracepoint_info_or_key := kKey key |}.

(** ** The handler object *)

(** The three intern tables. *)
Inductive Domain : Type := StringDomain | CallstackDomain | TracepointDomain.

#[global] Instance Domain_eq_dec : EqDecision Domain.
Proof. solve_decision. Defined.

(** The members of [LinuxTracingHandler].  [tracer_] is a [unique_ptr]:
    [None] is [nullptr]. *)
Record LinuxTracingHandler : Type := {
  tracer_ : option CaptureOptions;
  event_buffer_ : list CaptureEvent;
  addresses_seen_ : gset Z;
  callstack_keys_sent_ : gset Z;
  string_keys_sent_ : gset Z;
  tracepoint_keys_sent_ : gset Z
}.

Definition keys_sent (d : Domain) (h : LinuxTracingHandler) : gset Z :=
  match d with
  | StringDomain => string_keys_sent_ h
  | CallstackDomain => callstack_keys_sent_ h
  | TracepointDomain => tracepoint_keys_sent_ h
  end.

Definition with_tracer (t : option CaptureOptions) (h : LinuxTracingHandler) :=
  {| tracer_ := t;
     event_buffer_ := event_buffer_ h;
     addresses_seen_ := addresses_seen_ h;
     callstack_keys_sent_ := callstack_keys_sent_ h;
     string_keys_sent_ := string_keys_sent_ h;
     tracepoint_keys_sent_ := tracepoint_keys_sent_ h |}.

Definition with_event_buffer (b : list CaptureEvent) (h : LinuxTracingHandler) :=
  {| tracer_ := tracer_ h;
     event_buffer_ := b;
     addresses_seen_ := addresses_seen_ h;
     callstack_keys_sent_ := callstack_keys_sent_ h;
     string_keys_sent_ := string_keys_sent_ h;
     tracepoint_keys_sent_ := tracepoint_keys_sent_ h |}.

Definition with_addresses_seen (a : gset Z) (h : LinuxTracingHandler) :=
  {| tracer_ := tracer_ h;
     event_buffer_ := event_buffer_ h;
     addresses_seen_ := a;
     callstack_keys_sent_ := callstack_keys_sent_ h;
     string_keys_sent_ := string_keys_sent_ h;
     tracepoint_keys_sent_ := tracepoint_keys_sent_ h |}.

Definition with_keys_sent (d : Domain) (k : gset Z) (h : LinuxTracingHandler) :=
  {| tracer_ := tracer_ h;
     event_buffer_ := event_buffer_ h;
     addresses_seen_ := addresses_seen_ h;
     callstack_keys_sent_ :=
       match d with CallstackDomain => k | _ => callstack_keys_sent_ h end;
     string_keys_sent_ :=
       match d with StringDomain => k | _ => string_keys_sent_ h end;
     tracepoint_keys_sent_ :=
       match d with TracepointDomain => k | _ => tracepoint_keys_sent_ h end |}.

(** A freshly constructed handler: no tracer, every container empty. *)
Definition new_handler : LinuxTracingHandler :=
  {| tracer_ := None;
     event_buffer_ := [];
     addresses_seen_ := ∅;
     callstack_keys_sent_ := ∅;
     string_keys_sent_ := ∅;
     tracepoint_keys_sent_ := ∅ |}.

(** ** The lock-protected blocks of the producers

    Each function below is the body of one [absl::MutexLock] scope. *)

(** [{ MutexLock lock{&event_buffer_mutex_}; event_buffer_.emplace_back(event); }] *)
Definition emplace_back (event : CaptureEvent) (h : LinuxTracingHandler) :=
  with_event_buffer (event_buffer_ h ++ [event]) h.

(** [{ MutexLock lock{&addresses_seen_mutex_};
       if (addresses_seen_.contains(a)) return; addresses_seen_.emplace(a); }]
    The result says whether the address was already there. *)
Definition addresses_seen_block (a : uint64) (h : LinuxTracingHandler)
  : bool * LinuxTracingHandler :=
  if decide (a ∈ addresses_seen_ h) then (true, h)
  else (false, with_addresses_seen ({[a]} ∪ addresses_seen_ h) h).

(** [{ MutexLock lock{&..._keys_sent_mutex_};
       if (..._keys_sent_.contains(key)) return key; ..._keys_sent_.emplace(key); }]
    The result says whether the key was already there. *)
Definition keys_sent_block (d : Domain) (key : uint64) (h : LinuxTracingHandler)
  : bool * LinuxTracingHandler :=
  if decide (key ∈ keys_sent d h) then (true, h)
  else (false, with_keys_sent d ({[key]} ∪ keys_sent d h) h).

(** ** Producer programs *)

(** A program is a sequence of lock-protected blocks; the code between two
    blocks touches only locals.  [CheckFailed] is a failed [CHECK], which
    aborts the process. *)
Inductive Prog (A : Type) : Type :=
| Return (a : A)
| CheckFailed
| LockEventBuffer (event : CaptureEvent) (k : Prog A)
| LockAddressesSeen (address : uint64) (k : bool -> Prog A)
| LockKeysSent (d : Domain) (key : uint64) (k : bool -> Prog A).

Arguments Return {A} a.
Arguments CheckFailed {A}.
Arguments LockEventBuffer {A} event k.
Arguments LockAddressesSeen {A} address k.
Arguments LockKeysSent {A} d key k.

Fixpoint bind {A B : Type} (p : Prog A) (f : A -> Prog B) : Prog B :=
  match p with
  | Return a => f a
  | CheckFailed => CheckFailed
  | LockEventBuffer e k => LockEventBuffer e (bind k f)
  | LockAddressesSeen a k => LockAddressesSeen a (fun b => bind (k b) f)
  | LockKeysSent d key k => LockKeysSent d key (fun b => bind (k b) f)
  end.

(** Running a program alone, from start to end; [None] is an abort. *)
Fixpoint exec {A : Type} (p : Prog A) (h : LinuxTracingHandler)
  : option (A * LinuxTracingHandler) :=
  match p with
  | Return a => Some (a, h)
  | CheckFailed => None
  | LockEventBuffer e k => exec k (emplace_back e h)
  | LockAddressesSeen a k =>
      let '(seen, h') := addresses_seen_block a h in exec (k seen) h'
  | LockKeysSent d key k =>
      let '(sent, h') := keys_sent_block d key h in exec (k sent) h'
  end.

End Messages.

Arguments Return {_ A} a.
Arguments CheckFailed {_ A}.
Arguments LockEventBuffer {_ A} event k.
Arguments LockAddressesSeen {_ A} address k.
Arguments LockKeysSent {_ A} d key k.

#[global] Instance Prog_ret {protos : Protos} : MRet Prog := @Return _.
#[global] Instance Prog_bind {protos : Protos} : MBind Prog := fun A B f p => bind p f.

(** ** Library functions

    [std::hash<std::string>], [llvm::demangle] and the protobuf decoder of
    [GpuQueueSubmisssion] are library code.  [ParseFromArray] clears the
    message it is called on and then decodes into it, so its outcome (the
    success flag and the content left in the message) depends on the bytes
    only. *)
Class Library `{Protos} : Type := {
  std_hash : string -> uint64;
  llvm_demangle : string -> string;
  ParseFromArray : list byte -> bool * GpuQueueSubmisssion
}.

Section Handler.
Context {protos : Protos} {library : Library}.

Definition lock_event_buffer (event : CaptureEvent) : Prog unit :=
  LockEventBuffer event (Return tt).

Definition lock_addresses_seen (address : uint64) : Prog bool :=
  LockAddressesSeen address Return.

Definition lock_keys_sent (d : Domain) (key : uint64) : Prog bool :=
  LockKeysSent d key Return.

(** [CHECK(m.x_or_key_case() == M::kX)], then reading [m.x()]. *)
Definition CHECK_value {A : Type} (field : OneOf A) : Prog A :=
  match field with
  | kValue value => Return value
  | _ => CheckFailed
  end.

(** *** Intern keys *)

Definition ComputeCallstackKey (callstack : Callstack) : uint64 :=
  fold_left (fun key pc => wrap64 (31 * key + pc)) (pcs callstack) 17.

Definition ComputeStringKey (str : string) : uint64 := std_hash str.

(** [absl::StrCat(tracepoint_info.category(), ":", tracepoint_info.name())] *)
Definition tracepoint_string (tracepoint_info : TracepointInfo) : string :=
  (category tracepoint_info +:+ ":" +:+ name tracepoint_info)%string.

(** *** Interning *)

Definition InternCallstackIfNecessaryAndGetKey (callstack : Callstack) : Prog uint64 :=
  let key := ComputeCallstackKey callstack in
  sent ← lock_keys_sent CallstackDomain key;
  if sent : bool then mret key
  else
    let event := kInternedCallstack key callstack in
    lock_event_buffer event;;
    mret key.

Definition InternStringIfNecessaryAndGetKey (str : string) : Prog uint64 :=
  let key := ComputeStringKey str in
  sent ← lock_keys_sent StringDomain key;
  if sent : bool then mret key
  else
    let event := kInternedString key str in
    lock_event_buffer event;;
    mret key.

Definition InternTracepointInfoIfNecessaryAndGetKey (tracepoint_info : TracepointInfo)
  : Prog uint64 :=
  let key := ComputeStringKey (tracepoint_string tracepoint_info) in
  sent ← lock_keys_sent TracepointDomain key;
  if sent : bool then mret key
  else
    let event :=
      kInternedTracepointInfo key
        {| name := name tracepoint_info; category := category tracepoint_info |} in
    lock_event_buffer event;;
    mret key.

(** *** The sink callbacks *)

Definition OnSchedulingSlice (scheduling_slice : SchedulingSlice) : Prog unit :=
  lock_event_buffer (kSchedulingSlice scheduling_slice).

Definition OnCallstackSample (callstack_sample : CallstackSample) : Prog unit :=
  callstack ← CHECK_value (callstack_or_key callstack_sample);
  key ← InternCallstackIfNecessaryAndGetKey callstack;
  let callstack_sample := set_callstack_key key callstack_sample in
  lock_event_buffer (kCallstackSample callstack_sample).

Definition OnFunctionCall (function_call : FunctionCall) : Prog unit :=
  lock_event_buffer (kFunctionCall function_call).

Definition OnIntrospectionScope (introspection_scope : IntrospectionScope) : Prog unit :=
  lock_event_buffer (kIntrospectionScope introspection_scope).

Definition OnGpuJob (gpu_job : GpuJob) : Prog unit :=
  timeline ← CHECK_value (timeline_or_key gpu_job);
  key ← InternStringIfNecessaryAndGetKey timeline;
  let gpu_job := set_timeline_key key gpu_job in
  lock_event_buffer (kGpuJob gpu_job).

Definition OnThreadName (thread_name : ThreadName) : Prog unit :=
  lock_event_buffer (kThreadName thread_name).

Definition OnThreadStateSlice (thread_state_slice : ThreadStateSlice) : Prog unit :=
  lock_event_buffer (kThreadStateSlice thread_state_slice).

Definition OnAddressInfo (address_info : AddressInfo) : Prog unit :=
  seen ← lock_addresses_seen (absolute_address address_info);
  if seen : bool then mret tt
  else
    function_name ← CHECK_value (function_name_or_key address_info);
    key ← InternStringIfNecessaryAndGetKey (llvm_demangle function_name);
    let address_info := set_function_name_key key address_info in
    map_name ← CHECK_value (map_name_or_key address_info);
    key ← InternStringIfNecessaryAndGetKey map_name;
    let address_info := set_map_name_key key address_info in
    lock_event_buffer (kAddressInfo address_info).

Definition OnTracepointEvent (tracepoint_event : TracepointEvent) : Prog unit :=
  tracepoint_info ← CHECK_value (tracepoint_info_or_key tracepoint_event);
  key ← InternTracepointInfoIfNecessaryAndGetKey tracepoint_info;
  let tracepoint_event := set_tracepoint_info_key key tracepoint_event in
  lock_event_buffer (kTracepointEvent tracepoint_event).

(** *** Calls into the handler *)

(** A payload of one of the three intern domains. *)
Inductive Payload : Type :=
| StringPayload (str : string)
| CallstackPayload (callstack : Callstack)
| TracepointPayload (tracepoint_info : TracepointInfo).

Definition domain_of (payload : Payload) : Domain :=
  match payload with
  | StringPayload _ => StringDomain
  | CallstackPayload _ => CallstackDomain
  | TracepointPayload _ => TracepointDomain
  end.

Definition Hash (payload : Payload) : uint64 :=
  match payload with
  | StringPayload str => ComputeStringKey str
  | CallstackPayload callstack => ComputeCallstackKey callstack
  | TracepointPayload tracepoint_info =>
      ComputeStringKey (tracepoint_string tracepoint_info)
  end.

Definition InternIfNecessary (payload : Payload) : Prog uint64 :=
  match payload with
  | StringPayload str => InternStringIfNecessaryAndGetKey str
  | CallstackPayload callstack => InternCallstackIfNecessaryAndGetKey callstack
  | TracepointPayload tracepoint_info =>
      InternTracepointInfoIfNecessaryAndGetKey tracepoint_info
  end.

(** The "interned payload" event of a payload. *)
Definition interned_event (payload : Payload) : CaptureEvent :=
  match payload with
  | StringPayload str => kInternedString (Hash payload) str
  | CallstackPayload callstack => kInternedCallstack (Hash payload) callstack
  | TracepointPayload tracepoint_info =>
      kInternedTracepointInfo (Hash payload) tracepoint_info
  end.

(** One call made by a producer thread: a sink callback, or one of the
    interning methods on its own. *)
Inductive Call : Type :=
| CallOnSchedulingSlice (scheduling_slice : SchedulingSlice)
| CallOnCallstackSample (callstack_sample : CallstackSample)
| CallOnFunctionCall (function_call : FunctionCall)
| CallOnIntrospectionScope (introspection_scope : IntrospectionScope)
| CallOnGpuJob (gpu_job : GpuJob)
| CallOnThreadName (thread_name : ThreadName)
| CallOnThreadStateSlice (thread_state_slice : ThreadStateSlice)
| CallOnAddressInfo (address_info : AddressInfo)
| CallOnTracepointEvent (tracepoint_event : TracepointEvent)
| CallInternIfNecessary (payload : Payload).

Definition call (c : Call) : Prog unit :=
  match c with
  | CallOnSchedulingSlice m => OnSchedulingSlice m
  | CallOnCallstackSample m => OnCallstackSample m
  | CallOnFunctionCall m => OnFunctionCall m
  | CallOnIntrospectionScope m => OnIntrospectionScope m
  | CallOnGpuJob m => OnGpuJob m
  | CallOnThreadName m => OnThreadName m
  | CallOnThreadStateSlice m => OnThreadStateSlice m
  | CallOnAddressInfo m => OnAddressInfo m
  | CallOnTracepointEvent m => OnTracepointEvent m
  | CallInternIfNecessary payload => InternIfNecessary payload;; mret tt
  end.

(** A producer thread: the calls it makes, one after the other. *)
Fixpoint calls (cs : list Call) : Prog unit :=
  match cs with
  | [] => mret tt
  | c :: cs => call c;; calls cs
  end.

(** *** Reading events *)

(** [interned_as d key e]: [e] is the interned-payload event of domain [d]
    that carries [key]. *)
Definition interned_as (d : Domain) (key : uint64) (e : CaptureEvent) : bool :=
  match d, e with
  | StringDomain, kInternedString k _ => bool_decide (k = key)
  | CallstackDomain, kInternedCallstack k _ => bool_decide (k = key)
  | TracepointDomain, kInternedTracepointInfo k _ => bool_decide (k = key)
  | _, _ => false
  end.

Definition is_key {A : Type} (key : uint64) (field : OneOf A) : bool :=
  match field with
  | kKey k => bool_decide (k = key)
  | _ => false
  end.

(** [refers_to d key e]: [e] is a data-bearing event that carries [key] as
    a key of domain [d]. *)
Definition refers_to (d : Domain) (key : uint64) (e : CaptureEvent) : bool :=
  match d, e with
  | CallstackDomain, kCallstackSample m => is_key key (callstack_or_key m)
  | StringDomain, kGpuJob m => is_key key (timeline_or_key m)
  | StringDomain, kAddressInfo m =>
      is_key key (function_name_or_key m) || is_key key (map_name_or_key m)
  | TracepointDomain, kTracepointEvent m => is_key key (tracepoint_info_or_key m)
  | _, _ => false
  end.

(** How many interned-payload events of domain [d] with [key] a list holds. *)
Definition count_interned (d : Domain) (key : uint64) (l : list CaptureEvent) : nat :=
  length (filter (fun e => interned_as d key e = true) l).

End Handler.

(** ** The side-channel file *)

(** A [CodedInputStream] over the file: the bytes not read yet.  The two
    reads follow protobuf's contract: each consumes exactly the bytes asked
    for, or fails when the stream ends before that.  The model is meant for
    files within the size limit of the stream. *)
Definition CodedInputStream : Type := list byte.

(** The result of a read: [true] with what was read; [false]; or a call
    that the contract of the stream does not cover, after which the source
    determines nothing. *)
Inductive Read (A : Type) : Type :=
| ReadTrue (a : A)
| ReadFalse
| ReadUndefined.

Arguments ReadTrue {A} a.
Arguments ReadFalse {A}.
Arguments ReadUndefined {A}.

(** A [uint32_t] passed where an [int] is expected. *)
Definition int_of_uint32 (n : Z) : Z :=
  if decide (n < 2 ^ 31) then n else n - 2 ^ 32.

Definition byte_value (b : byte) : Z := Z.of_N (Byte.to_N b).

Definition ReadLittleEndian32 (input : CodedInputStream)
  : option (Z * CodedInputStream) :=
  match input with
  | b0 :: b1 :: b2 :: b3 :: input' =>
      Some (byte_value b0 + 2 ^ 8 * byte_value b1
            + 2 ^ 16 * byte_value b2 + 2 ^ 24 * byte_value b3, input')
  | _ => None
  end.

(** [ReadRaw(void* buffer, int size)].  The contract is for sizes from 0
    on: a negative size is copied as a huge unsigned one. *)
Definition ReadRaw (size : Z) (input : CodedInputStream)
  : Read (list byte * CodedInputStream) :=
  if decide (size < 0) then ReadUndefined
  else if decide (Z.to_nat size ≤ length input)%nat
  then ReadTrue (take (Z.to_nat size) input, drop (Z.to_nat size) input)
  else ReadFalse.

(** The format of the file, as its writer produces it: a 4-byte
    little-endian length, then that many bytes. *)
Definition byte_of_Z (z : Z) : byte :=
  default x00 (Byte.of_N (Z.to_N (z mod 2 ^ 8))).

Definition WriteLittleEndian32 (n : Z) : list byte :=
  [byte_of_Z n; byte_of_Z (n / 2 ^ 8); byte_of_Z (n / 2 ^ 16); byte_of_Z (n / 2 ^ 24)].

Definition record (payload : list byte) : list byte :=
  WriteLittleEndian32 (Z.of_nat (length payload)) ++ payload.

Definition records (payloads : list (list byte)) : list byte :=
  concat (map record payloads).

Section Sender.
Context {protos : Protos} {library : Library}.

(** [ReadMessage(&message, &input)]: with [true], the content of
    [message] after the call and the rest of the stream.  [message_size] is
    a [uint32_t] and goes to [ReadRaw] as an [int]: from 2^31 on it arrives
    negative.  The result of [ParseFromArray] is dropped.  (The buffer of
    [message_size] bytes is taken to be there: memory is not modelled.) *)
Definition ReadMessage (input : CodedInputStream)
  : Read (GpuQueueSubmisssion * CodedInputStream) :=
  match ReadLittleEndian32 input with
  | None => ReadFalse
  | Some (message_size, input) =>
      match ReadRaw (int_of_uint32 message_size) input with
      | ReadTrue (buffer, input) => ReadTrue (snd (ParseFromArray buffer), input)
      | ReadFalse => ReadFalse
      | ReadUndefined => ReadUndefined
      end
  end.

(** [while (ReadMessage(&queue_submission, &coded_input)) {
       event_buffer_.emplace_back(event with queue_submission); }]
    The result is the buffer when the loop is left; [None] when a call of
    [ReadMessage] is undefined. *)
Equations? read_messages (input : CodedInputStream) (event_buffer : list CaptureEvent)
  : option (list CaptureEvent) by wf (length input) lt :=
  read_messages input event_buffer with inspect (ReadMessage input) := {
    | exist _ (ReadTrue (queue_submission, input')) _ =>
        read_messages input' (event_buffer ++ [kGpuQueueSubmission queue_submission]);
    | exist _ ReadFalse _ => Some event_buffer;
    | exist _ ReadUndefined _ => None }.
Proof.
  clear read_messages. revert e.
  unfold ReadMessage, ReadLittleEndian32, ReadRaw.
  destruct input as [|b0 [|b1 [|b2 [|b3 rest]]]]; try discriminate.
  case_decide; [discriminate|]. case_decide; [|discriminate].
  intros [= _ <-]. rewrite length_drop. simpl. lia.
Qed.

(** What the sender thread shares with the world outside the handler:
    the file "/mnt/developer/orbit_test_file" ([None]: the [ifstream] is
    not [good()], the file is missing or cannot be opened) and the calls
    received by [capture_response_listener_->ProcessEvents], oldest first. *)
Record World : Type := {
  orbit_test_file : option (list byte);
  ProcessEvents_calls : list (list CaptureEvent)
}.

Definition kSendTimeInterval : nat := 20.
Definition kSendEventCountInterval : nat := 5000.

(** The [absl::Condition] of the sender thread. *)
Definition wait_condition (h : LinuxTracingHandler) : bool :=
  bool_decide (kSendEventCountInterval ≤ length (event_buffer_ h))%nat
  || bool_decide (tracer_ h = None).

(** The body of the [if (tracer_ == nullptr)] of the sender thread, with
    the lock held: the drain of the file.  [None] when the drain is
    undefined. *)
Definition read_vulkan_layer_result (h : LinuxTracingHandler) (file : option (list byte))
  : option (LinuxTracingHandler * option (list byte)) :=
  match file with
  | Some bytes =>
      match read_messages bytes (event_buffer_ h) with
      | Some event_buffer => Some (with_event_buffer event_buffer h, None)
      | None => None
      end
  | None => Some (h, file)
  end.

(** One iteration of the sender thread from the return of
    [LockWhenWithTimeout] to [Unlock]: the flag [stopped], the local
    [buffered_events], and the handler and the file as it leaves them.
    [None] when the drain is undefined. *)
Definition SenderThread_locked (h : LinuxTracingHandler) (file : option (list byte))
  : option (bool * list CaptureEvent * LinuxTracingHandler * option (list byte)) :=
  let unlock stopped h file :=
    let buffered_events := event_buffer_ h in
    (stopped, buffered_events, with_event_buffer [] h, file) in
  match tracer_ h with
  | None =>
      match read_vulkan_layer_result h file with
      | Some (h, file) => Some (unlock true h file)
      | None => None
      end
  | Some _ => Some (unlock false h file)
  end.

(** [capture_response_listener_->ProcessEvents(std::move(buffered_events))] *)
Definition ProcessEvents (batch : list CaptureEvent) (w : World) : World :=
  {| orbit_test_file := orbit_test_file w;
     ProcessEvents_calls := ProcessEvents_calls w ++ [batch] |}.

Definition with_file (file : option (list byte)) (w : World) : World :=
  {| orbit_test_file := file; ProcessEvents_calls := ProcessEvents_calls w |}.

End Sender.

(** ** The running system: producer threads and the sender thread *)

Section System.
Context {protos : Protos} {library : Library}.

(** Where the sender thread is: inside [LockWhenWithTimeout]; between
    [Unlock] and the return of [ProcessEvents], holding its locals; or out
    of its loop. *)
Inductive SenderState : Type :=
| Waiting
| Forwarding (stopped : bool) (buffered_events : list CaptureEvent)
| Finished.

Record System : Type := {
  handler : LinuxTracingHandler;
  world : World;
  producers : list (Prog unit);
  sender_thread_ : SenderState
}.

(** The next lock-protected block of a producer, with the events it
    appends to [event_buffer_]. *)
Definition block_step {A : Type} (p : Prog A) (h : LinuxTracingHandler)
  : option (list CaptureEvent * Prog A * LinuxTracingHandler) :=
  match p with
  | Return _ => None
  | CheckFailed => None
  | LockEventBuffer e k => Some ([e], k, emplace_back e h)
  | LockAddressesSeen a k =>
      let '(seen, h') := addresses_seen_block a h in Some ([], k seen, h')
  | LockKeysSent d key k =>
      let '(sent, h') := keys_sent_block d key h in Some ([], k sent, h')
  end.

(** The events that the drain appends to [event_buffer_]; [None] when it
    is undefined. *)
Definition drained_events (h : LinuxTracingHandler) (file : option (list byte))
  : option (list CaptureEvent) :=
  match tracer_ h, file with
  | None, Some bytes => read_messages bytes []
  | _, _ => Some []
  end.

(** One atomic step of the system, labelled with the events it appends to
    [event_buffer_]: a block of a producer; [tracer_.reset()] of [Stop];
    the locked part of an iteration of the sender thread, which may begin
    at any time since the wait has a timeout; the call of [ProcessEvents]
    that ends the iteration.  A thread at a failed [CHECK] takes no step,
    and neither does the sender thread where the drain is undefined. *)
Inductive step : System -> list CaptureEvent -> System -> Prop :=
| step_producer sys i p appended p' h' :
    producers sys !! i = Some p ->
    block_step p (handler sys) = Some (appended, p', h') ->
    step sys appended
      {| handler := h'; world := world sys;
         producers := <[i := p']> (producers sys);
         sender_thread_ := sender_thread_ sys |}
| step_Stop sys capture_options :
    tracer_ (handler sys) = Some capture_options ->
    step sys []
      {| handler := with_tracer None (handler sys); world := world sys;
         producers := producers sys; sender_thread_ := sender_thread_ sys |}
| step_sender_locked sys stopped buffered_events h' file' appended :
    sender_thread_ sys = Waiting ->
    SenderThread_locked (handler sys) (orbit_test_file (world sys))
      = Some (stopped, buffered_events, h', file') ->
    drained_events (handler sys) (orbit_test_file (world sys)) = Some appended ->
    step sys appended
      {| handler := h'; world := with_file file' (world sys);
         producers := producers sys;
         sender_thread_ := Forwarding stopped buffered_events |}
| step_sender_forward sys stopped buffered_events :
    sender_thread_ sys = Forwarding stopped buffered_events ->
    step sys []
      {| handler := handler sys;
         world := ProcessEvents buffered_events (world sys);
         producers := producers sys;
         sender_thread_ := if stopped then Finished else Waiting |}.

(** [execution sys t sys']: the system goes from [sys] to [sys'] and [t] is
    the sequence of events appended to [event_buffer_] on the way. *)
Inductive execution : System -> list CaptureEvent -> System -> Prop :=
| execution_refl sys : execution sys [] sys
| execution_step sys t sys' appended sys'' :
    execution sys t sys' -> step sys' appended sys'' ->
    execution sys (t ++ appended) sys''.

(** The same steps as a function of who runs next, to run the system on
    concrete schedules. *)
Inductive Choice : Type :=
| RunProducer (i : nat)
| RunStop
| RunSender.

Definition schedule_step (c : Choice) (sys : System)
  : option (list CaptureEvent * System) :=
  match c with
  | RunProducer i =>
      match producers sys !! i with
      | Some p =>
          match block_step p (handler sys) with
          | Some (appended, p', h') =>
              Some (appended,
                    {| handler := h'; world := world sys;
                       producers := <[i := p']> (producers sys);
                       sender_thread_ := sender_thread_ sys |})
          | None => None
          end
      | None => None
      end
  | RunStop =>
      match tracer_ (handler sys) with
      | Some _ =>
          Some ([], {| handler := with_tracer None (handler sys);
                       world := world sys; producers := producers sys;
                       sender_thread_ := sender_thread_ sys |})
      | None => None
      end
  | RunSender =>
      match sender_thread_ sys with
      | Waiting =>
          match SenderThread_locked (handler sys) (orbit_test_file (world sys)),
                drained_events (handler sys) (orbit_test_file (world sys)) with
          | Some (stopped, buffered_events, h', file'), Some appended =>
              Some (appended,
                    {| handler := h'; world := with_file file' (world sys);
                       producers := producers sys;
                       sender_thread_ := Forwarding stopped buffered_events |})
          | _, _ => None
          end
      | Forwarding stopped buffered_events =>
          Some ([], {| handler := handler sys;
                       world := ProcessEvents buffered_events (world sys);
                       producers := producers sys;
                       sender_thread_ := if stopped then Finished else Waiting |})
      | Finished => None
      end
  end.

Fixpoint run_schedule (cs : list Choice) (sys : System)
  : option (list CaptureEvent * System) :=
  match cs with
  | [] => Some ([], sys)
  | c :: cs =>
      match schedule_step c sys with
      | Some (appended, sys') =>
          match run_schedule cs sys' with
          | Some (t, sys'') => Some (appended ++ t, sys'')
          | None => None
          end
      | None => None
      end
  end.

(** The system when [Start] returns on a fresh handler: the tracer built
    from the options, the sender thread waiting, and the producer threads,
    each with the calls it is going to make. *)
Definition started (capture_options : CaptureOptions) (file : option (list byte))
    (threads : list (list Call)) : System :=
  {| handler := with_tracer (Some capture_options) new_handler;
     world := {| orbit_test_file := file; ProcessEvents_calls := [] |};
     producers := map calls threads;
     sender_thread_ := Waiting |}.


(** *** The wait of the sender thread, in time steps of one millisecond *)

(** What another thread does with [event_buffer_mutex_] held: a producer
    appends an event, or [Stop] resets [tracer_]. *)
Inductive Other : Type :=
| OtherEmplaceBack (event : CaptureEvent)
| OtherReset.

Definition other (h : LinuxTracingHandler) (o : Other) : LinuxTracingHandler :=
  match o with
  | OtherEmplaceBack event => emplace_back event h
  | OtherReset => with_tracer None h
  end.

(** [timeline t]: what the other threads do during millisecond [t]. *)
Definition Timeline : Type := nat -> list Other.

(** [event_buffer_mutex_.LockWhenWithTimeout(cond, timeout)] called at time
    [now]: returns with the lock held as soon as [cond] holds, and after
    [timeout] at the latest.  The result is the time of the return and the
    handler at that time. *)
Fixpoint LockWhenWithTimeout (cond : LinuxTracingHandler -> bool) (timeout : nat)
    (timeline : Timeline) (now : nat) (h : LinuxTracingHandler)
  : nat * LinuxTracingHandler :=
  if cond h then (now, h)
  else
    match timeout with
    | O => (now, h)
    | S timeout' =>
        LockWhenWithTimeout cond timeout' timeline (S now)
          (fold_left other (timeline now) h)
    end.

(** The handler after the other threads have run from time [now] for
    [d] milliseconds. *)
Fixpoint handler_after (timeline : Timeline) (now d : nat) (h : LinuxTracingHandler)
  : LinuxTracingHandler :=
  match d with
  | O => h
  | S d' => handler_after timeline (S now) d' (fold_left other (timeline now) h)
  end.

(** One iteration of the loop of [SenderThread], begun at time [now]: the
    time at which the wait returns, [stopped], the handler at [Unlock]
    and the world after [ProcessEvents].  [None] when the drain is
    undefined. *)
Definition SenderThread_iteration (timeline : Timeline) (now : nat)
    (h : LinuxTracingHandler) (w : World)
  : option (nat * bool * LinuxTracingHandler * World) :=
  let '(woke, h) :=
    LockWhenWithTimeout wait_condition kSendTimeInterval timeline now h in
  match SenderThread_locked h (orbit_test_file w) with
  | Some (stopped, buffered_events, h, file) =>
      Some (woke, stopped, h, ProcessEvents buffered_events (with_file file w))
  | None => None
  end.

End System.

(** ** Definitions used to state the properties *)

Section Auxiliary.
Context {protos : Protos} {library : Library}.

(** The handler after [InternIfNecessary payload]. *)
Definition interned (payload : Payload) (h : LinuxTracingHandler) : LinuxTracingHandler :=
  let d := domain_of payload in
  let key := Hash payload in
  if decide (key ∈ keys_sent d h) then h
  else emplace_back (interned_event payload) (with_keys_sent d ({[key]} ∪ keys_sent d h) h).

(** The address-info event that [OnAddressInfo] appends for a message
    whose two names are set. *)
Definition address_info_event (m : AddressInfo) (function_name map_name : string)
  : CaptureEvent :=
  kAddressInfo
    (set_map_name_key (ComputeStringKey map_name)
       (set_function_name_key (ComputeStringKey (llvm_demangle function_name)) m)).

(** The events that [InternIfNecessary payload] appends. *)
Definition newly_interned (payload : Payload) (h : LinuxTracingHandler)
  : list CaptureEvent :=
  if decide (Hash payload ∈ keys_sent (domain_of payload) h) then []
  else [interned_event payload].

(** [pending d key p]: how many interned-payload events of [d] with [key]
    the program [p] appends before it takes a lock other than
    [event_buffer_mutex_]. *)
Fixpoint pending {A : Type} (d : Domain) (key : uint64) (p : Prog A) : nat :=
  match p with
  | LockEventBuffer e k => (if interned_as d key e then 1 else 0) + pending d key k
  | _ => 0%nat
  end.

(** A program is disciplined when it owes exactly one interned-payload
    event after each key it has marked as sent, and none otherwise. *)
Fixpoint disciplined {A : Type} (p : Prog A) : Prop :=
  match p with
  | Return _ => True
  | CheckFailed => True
  | LockEventBuffer _ k => disciplined k
  | LockAddressesSeen _ k =>
      ∀ b, disciplined (k b) ∧ ∀ d key, pending d key (k b) = 0%nat
  | LockKeysSent d key k =>
      disciplined (k true) ∧ (∀ d' key', pending d' key' (k true) = 0%nat) ∧
      disciplined (k false) ∧
      (∀ d' key', pending d' key' (k false)
                  = if decide (d' = d ∧ key' = key) then 1%nat else 0%nat)
  end.

(** One for a key that is not marked as sent yet. *)
Definition unsent (d : Domain) (key : uint64) (h : LinuxTracingHandler) : nat :=
  if decide (key ∈ keys_sent d h) then 0%nat else 1%nat.

(** The interned-payload events of [d] with [key] that threads are about
    to append. *)
Definition pending_total (d : Domain) (key : uint64) (ps : list (Prog unit)) : nat :=
  sum_list_with (pending d key) ps.

(** [ordered_after h l]: every data-bearing event of [l] carries a key that
    is marked as sent in [h], or comes after an interned-payload event of
    [l] of the same domain and key. *)
Definition ordered_after (h : LinuxTracingHandler) (l : list CaptureEvent) : Prop :=
  ∀ j e d key, l !! j = Some e -> refers_to d key e = true ->
    key ∈ keys_sent d h
    ∨ ∃ i e', (i < j)%nat ∧ l !! i = Some e' ∧ interned_as d key e' = true.

(** [covers h l h']: going from [h] to [h'] appends [l] to the buffer, in an
    order that [ordered_after h] accepts, and marks exactly the keys of the
    interned-payload events of [l]. *)
Definition covers (h : LinuxTracingHandler) (l : list CaptureEvent)
    (h' : LinuxTracingHandler) : Prop :=
  event_buffer_ h' = event_buffer_ h ++ l
  ∧ ordered_after h l
  ∧ ∀ d key, key ∈ keys_sent d h' ↔
             key ∈ keys_sent d h ∨ ∃ i e, l !! i = Some e ∧ interned_as d key e = true.

(** The event that the drain appends for a record with this payload. *)
Definition queue_submission_event (payload : list byte) : CaptureEvent :=
  kGpuQueueSubmission (snd (ParseFromArray payload)).

(** The invariant behind the dedup: for every domain and key, the
    interned-payload events appended so far, those that threads are about
    to append, and one if the key is not marked yet, make exactly one. *)
Definition dedup_invariant (t : list CaptureEvent) (sys : System) : Prop :=
  Forall disciplined (producers sys) ∧
  ∀ d key,
    (count_interned d key t + pending_total d key (producers sys)
     + unsent d key (handler sys))%nat = 1%nat.




(** The events that other threads append in one millisecond. *)
Definition emplaced (ops : list Other) : list CaptureEvent :=
  omap (fun o => match o with OtherEmplaceBack e => Some e | OtherReset => None end) ops.

End Auxiliary.

(** A payload whose length can be passed to [ReadRaw], which takes it as
    an [int]. *)
Definition fits_prefix (payload : list byte) : Prop :=
  Z.of_nat (length payload) < 2 ^ 31.

(** The end of a file cut in the middle of a record: fewer than four bytes,
    or a length prefix (in the range of [int]) followed by fewer bytes than
    it announces. *)
Definition truncated (tail : list byte) : Prop :=
  (length tail < 4)%nat ∨
  ∃ n rest, tail = WriteLittleEndian32 n ++ rest ∧ 0 <= n < 2 ^ 31 ∧
            Z.of_nat (length rest) < n.

(** ** Sample instances, used to run the definitions on concrete inputs *)

Definition sample_protos : Protos :=
  {| CaptureOptions := unit;
     SchedulingSlice := nat;
     FunctionCall := nat;
     IntrospectionScope := nat;
     ThreadName := nat;
     ThreadStateSlice := nat;
     GpuQueueSubmisssion := list byte;
     CallstackSampleFields := nat;
     GpuJobFields := nat;
     AddressInfoFields := nat;
     TracepointEventFields := nat |}.

(** FNV-1a on the characters of the string. *)
Definition sample_hash (str : string) : uint64 :=
  fold_left
    (fun h c => wrap64 (Z.lxor h (Z.of_N (Ascii.N_of_ascii c)) * 1099511628211))
    (String.list_ascii_of_string str) 14695981039346656037.

(** Strips the prefix "_Z" and nothing else. *)
Definition sample_demangle (str : string) : string :=
  match str with
  | String (Ascii.Ascii true true true true true false true false)
      (String (Ascii.Ascii false true false true true false true false) rest) => rest
  | _ => str
  end.

(** A decoder that rejects the empty payload and keeps the bytes. *)
Definition sample_parse (buffer : list byte)
  : bool * @GpuQueueSubmisssion sample_protos :=
  (bool_decide (buffer ≠ []), buffer).

Definition sample_library : @Library sample_protos :=
  {| std_hash := sample_hash;
     llvm_demangle := sample_demangle;
     ParseFromArray := sample_parse |}.

Definition sample_gpu_job : @GpuJob sample_protos :=
  {| gpu_job_fields := (1%nat : @GpuJobFields sample_protos);
     timeline_or_key := kValue "gfx"%string |}.

Definition sample_address_info (address : uint64) (function_name : string)
  : @AddressInfo sample_protos :=
  {| absolute_address := address;
     address_info_fields := (0%nat : @AddressInfoFields sample_protos);
     function_name_or_key := kValue function_name;
     map_name_or_key := kValue "/usr/lib/libc.so"%string |}.


(** A whole session: one producer, a flush on timeout, [Stop], and the last
    iteration of the sender thread, which drains a file of two records. *)
Definition sample_session : option (list CaptureEvent * System) :=
  run_schedule (library := sample_library)
    [RunProducer 0; RunSender; RunProducer 0; RunSender; RunProducer 0;
     RunProducer 0; RunStop; RunSender; RunSender]
    (started (library := sample_library) (tt : @CaptureOptions sample_protos)
       (Some (records [[x61; x62; x63]; [x77; x78; x79; x7a]]))
       [[CallOnThreadName (7%nat : @ThreadName sample_protos);
         CallOnGpuJob sample_gpu_job]]).


(** 5000 events appended during the fourth millisecond of the wait. *)
Definition sample_burst : @Timeline sample_protos :=
  fun t => if decide (t = 3%nat)
           then replicate 5000
                  (OtherEmplaceBack (kThreadName (7%nat : @ThreadName sample_protos)))
           else [].

(** ** What programs append, and the life of the handler *)

Section MoreDefinitions.
Context {protos : Protos} {library : Library}.

(** [appends_only P p]: every event that [p] can append satisfies [P]. *)
Fixpoint appends_only {A : Type} (P : CaptureEvent -> Prop) (p : Prog A) : Prop :=
  match p with
  | Return _ => True
  | CheckFailed => True
  | LockEventBuffer e k => P e ∧ appends_only P k
  | LockAddressesSeen _ k => ∀ b, appends_only P (k b)
  | LockKeysSent _ _ k => ∀ b, appends_only P (k b)
  end.

Definition is_queue_submission (e : CaptureEvent) : bool :=
  match e with
  | kGpuQueueSubmission _ => true
  | _ => false
  end.

(** [references_marked K p]: every data-bearing event that [p] can append
    carries only keys that are in [K] or that [p] has looked up in its
    table, and so marked or found marked, before. *)
Fixpoint references_marked {A : Type} (K : Domain -> uint64 -> Prop) (p : Prog A)
  : Prop :=
  match p with
  | Return _ => True
  | CheckFailed => True
  | LockEventBuffer e k =>
      (∀ d key, refers_to d key e = true -> K d key) ∧ references_marked K k
  | LockAddressesSeen _ k => ∀ b, references_marked K (k b)
  | LockKeysSent d key k =>
      ∀ b, references_marked (fun d' key' => K d' key' ∨ (d' = d ∧ key' = key)) (k b)
  end.

(** The keys marked in a handler. *)
Definition marked (h : LinuxTracingHandler) (d : Domain) (key : uint64) : Prop :=
  key ∈ keys_sent d h.

(** [address_info_for a e]: [e] is the address-info event of address [a]. *)
Definition address_info_for (a : uint64) (e : CaptureEvent) : bool :=
  match e with
  | kAddressInfo m => bool_decide (absolute_address m = a)
  | _ => false
  end.

Definition count_address_info (a : uint64) (l : list CaptureEvent) : nat :=
  length (filter (fun e => address_info_for a e = true) l).

(** [may_append a p]: how many address-info events of [a] the program [p]
    can append, at most, before it next takes [addresses_seen_mutex_]. *)
Fixpoint may_append {A : Type} (a : uint64) (p : Prog A) : nat :=
  match p with
  | Return _ => 0%nat
  | CheckFailed => 0%nat
  | LockEventBuffer e k => (if address_info_for a e then 1 else 0) + may_append a k
  | LockAddressesSeen _ _ => 0%nat
  | LockKeysSent _ _ k => Nat.max (may_append a (k true)) (may_append a (k false))
  end.

(** A program is gated when it appends an address-info event only after it
    has put the address into the set itself, and then at most once. *)
Fixpoint gated {A : Type} (p : Prog A) : Prop :=
  match p with
  | Return _ => True
  | CheckFailed => True
  | LockEventBuffer _ k => gated k
  | LockAddressesSeen a' k =>
      gated (k true) ∧ gated (k false)
      ∧ (∀ a, may_append a (k true) = 0%nat)
      ∧ (∀ a, (may_append a (k false) ≤ if decide (a = a') then 1 else 0)%nat)
  | LockKeysSent _ _ k => ∀ b, gated (k b)
  end.

Definition may_append_total (a : uint64) (ps : list (Prog unit)) : nat :=
  sum_list_with (may_append a) ps.

Definition seen (a : uint64) (h : LinuxTracingHandler) : nat :=
  if decide (a ∈ addresses_seen_ h) then 1%nat else 0%nat.


(** *** [Start] and [Stop] *)

(** The handler with its threads, and [sender_thread_.joinable()]. *)
Record Service : Type := {
  running : System;
  sender_thread_joinable : bool
}.

(** The handler when its constructor returns: no tracer, no thread. *)
Definition constructed (file : option (list byte)) : Service :=
  {| running :=
       {| handler := new_handler;
          world := {| orbit_test_file := file; ProcessEvents_calls := [] |};
          producers := [];
          sender_thread_ := Finished |};
     sender_thread_joinable := false |}.

(** [Start(capture_options)]; [None] is a failed [CHECK].  [threads] are the
    calls that the threads of the new tracer are going to make. *)
Definition Start (capture_options : CaptureOptions) (threads : list (list Call))
    (s : Service) : option Service :=
  match tracer_ (handler (running s)) with
  | Some _ => None
  | None =>
      if sender_thread_joinable s then None
      else
        Some {| running :=
                  {| handler := with_tracer (Some capture_options)
                                  (handler (running s));
                     world := world (running s);
                     producers := map calls threads;
                     sender_thread_ := Waiting |};
                sender_thread_joinable := true |}
  end.

(** [{ MutexLock lock{&event_buffer_mutex_}; tracer_.reset(); }] *)
Definition reset_tracer (sys : System) : System :=
  {| handler := with_tracer None (handler sys); world := world sys;
     producers := producers sys; sender_thread_ := sender_thread_ sys |}.

(** How a call ends: it returns; a [CHECK] fails; the model runs out of
    fuel; or the drain is undefined. *)
Inductive Outcome (A : Type) : Type :=
| Done (a : A)
| Aborted
| OutOfFuel
| Undefined.

Arguments Done {A} a.
Arguments Aborted {A}.
Arguments OutOfFuel {A}.
Arguments Undefined {A}.

(** [sender_thread_.join()] while the other threads are idle: the sender
    thread runs on until it has left its loop.  The result holds the events
    that it appends on the way.  The sender thread, when it has not left
    its loop, has a next step unless the drain is undefined. *)
Fixpoint join (fuel : nat) (sys : System) : Outcome (list CaptureEvent * System) :=
  match sender_thread_ sys with
  | Finished => Done ([], sys)
  | _ =>
      match fuel with
      | O => OutOfFuel
      | S fuel' =>
          match schedule_step RunSender sys with
          | Some (appended, sys') =>
              match join fuel' sys' with
              | Done (t, sys'') => Done (appended ++ t, sys'')
              | outcome => outcome
              end
          | None => Undefined
          end
      end
  end.

(** [Stop()]; [Aborted] is a failed [CHECK].  The tracer is stopped first,
    so the producers are idle during the join. *)
Definition Stop (fuel : nat) (s : Service) : Outcome (list CaptureEvent * Service) :=
  match tracer_ (handler (running s)) with
  | None => Aborted
  | Some _ =>
      if sender_thread_joinable s then
        match join fuel (reset_tracer (running s)) with
        | Done (t, sys) =>
            Done (t, {| running := sys; sender_thread_joinable := false |})
        | Aborted => Aborted
        | OutOfFuel => OutOfFuel
        | Undefined => Undefined
        end
      else Aborted
  end.

End MoreDefinitions.

Arguments Done {A} a.
Arguments Aborted {A}.
Arguments OutOfFuel {A}.
Arguments Undefined {A}.

(** ** The drain, the checks and the sessions of the handler *)

Section LifecycleDefinitions.
Context {protos : Protos} {library : Library}.






(** *** The stream of one producer thread *)

(** [announced K p]: every data-bearing event that [p] appends carries only
    keys that are in [K], or whose interned-payload event [p] has appended
    before, or that [p] has found marked. *)
Fixpoint announced {A : Type} (K : Domain -> uint64 -> Prop) (p : Prog A) : Prop :=
  match p with
  | Return _ => True
  | CheckFailed => True
  | LockEventBuffer e k =>
      (∀ d key, refers_to d key e = true -> K d key)
      ∧ announced (fun d key => K d key ∨ interned_as d key e = true) k
  | LockAddressesSeen _ k => ∀ b, announced K (k b)
  | LockKeysSent d key k =>
      announced (fun d' key' => K d' key' ∨ (d' = d ∧ key' = key)) (k true)
      ∧ announced K (k false)
  end.

(** The keys whose interned-payload event is in the stream [t]. *)
Definition in_stream (t : list CaptureEvent) (d : Domain) (key : uint64) : Prop :=
  ∃ e, e ∈ t ∧ interned_as d key e = true.

(** Every data-bearing event of [t] comes after the interned-payload event
    of each key that it carries. *)
Definition stream_ordered (t : list CaptureEvent) : Prop :=
  ∀ j e d key, t !! j = Some e -> refers_to d key e = true ->
    ∃ i e', (i < j)%nat ∧ t !! i = Some e' ∧ interned_as d key e' = true.

(** *** Counting the events of each callback *)

(** The nine callbacks, and the kind of event that each appends. *)
Inductive Kind : Type :=
| SchedulingSliceKind
| CallstackSampleKind
| FunctionCallKind
| IntrospectionScopeKind
| GpuJobKind
| ThreadNameKind
| ThreadStateSliceKind
| AddressInfoKind
| TracepointEventKind.

Definition event_of_kind (kind : Kind) (e : CaptureEvent) : bool :=
  match kind, e with
  | SchedulingSliceKind, kSchedulingSlice _ => true
  | CallstackSampleKind, kCallstackSample _ => true
  | FunctionCallKind, kFunctionCall _ => true
  | IntrospectionScopeKind, kIntrospectionScope _ => true
  | GpuJobKind, kGpuJob _ => true
  | ThreadNameKind, kThreadName _ => true
  | ThreadStateSliceKind, kThreadStateSlice _ => true
  | AddressInfoKind, kAddressInfo _ => true
  | TracepointEventKind, kTracepointEvent _ => true
  | _, _ => false
  end.

Definition call_of_kind (kind : Kind) (c : Call) : bool :=
  match kind, c with
  | SchedulingSliceKind, CallOnSchedulingSlice _ => true
  | CallstackSampleKind, CallOnCallstackSample _ => true
  | FunctionCallKind, CallOnFunctionCall _ => true
  | IntrospectionScopeKind, CallOnIntrospectionScope _ => true
  | GpuJobKind, CallOnGpuJob _ => true
  | ThreadNameKind, CallOnThreadName _ => true
  | ThreadStateSliceKind, CallOnThreadStateSlice _ => true
  | AddressInfoKind, CallOnAddressInfo _ => true
  | TracepointEventKind, CallOnTracepointEvent _ => true
  | _, _ => false
  end.

Definition count_kind (kind : Kind) (l : list CaptureEvent) : nat :=
  length (filter (fun e => event_of_kind kind e = true) l).

Definition calls_of_kind (kind : Kind) (cs : list Call) : nat :=
  length (filter (fun c => call_of_kind kind c = true) cs).

(** One for the kind that passes the address gate. *)
Definition gate_bump (kind : Kind) : nat :=
  match kind with
  | AddressInfoKind => 1%nat
  | _ => 0%nat
  end.

(** [owes kind p]: how many events of [kind] the program [p] is going to
    append, when every address that it reports has been seen. *)
Fixpoint owes {A : Type} (kind : Kind) (p : Prog A) : nat :=
  match p with
  | Return _ => 0%nat
  | CheckFailed => 0%nat
  | LockEventBuffer e k => ((if event_of_kind kind e then 1 else 0) + owes kind k)%nat
  | LockAddressesSeen _ k => owes kind (k true)
  | LockKeysSent _ _ k => owes kind (k true)
  end.

(** [settled kind p]: no [CHECK] of [p] fails, what [p] appends of [kind]
    does not depend on the key tables, and [p] appends one more
    address-info event for each address that it finds new. *)
Fixpoint settled {A : Type} (kind : Kind) (p : Prog A) : Prop :=
  match p with
  | Return _ => True
  | CheckFailed => False
  | LockEventBuffer _ k => settled kind k
  | LockAddressesSeen _ k =>
      settled kind (k true) ∧ settled kind (k false)
      ∧ owes kind (k false) = (gate_bump kind + owes kind (k true))%nat
  | LockKeysSent _ _ k =>
      settled kind (k true) ∧ settled kind (k false)
      ∧ owes kind (k false) = owes kind (k true)
  end.

(** The events of [kind] that a thread making the calls [cs] appends,
    those behind the address gate apart. *)
Definition expected (kind : Kind) (cs : list Call) : nat :=
  match kind with
  | AddressInfoKind => 0%nat
  | _ => calls_of_kind kind cs
  end.

(** *** Keys in the stream *)

(** A data-bearing event carries keys in place of its payloads, and an
    interned-payload event carries the key of its payload. *)
Definition well_keyed (e : CaptureEvent) : Prop :=
  match e with
  | kCallstackSample m => ∃ key, callstack_or_key m = kKey key
  | kGpuJob m => ∃ key, timeline_or_key m = kKey key
  | kAddressInfo m =>
      (∃ key, function_name_or_key m = kKey key)
      ∧ ∃ key, map_name_or_key m = kKey key
  | kTracepointEvent m => ∃ key, tracepoint_info_or_key m = kKey key
  | kInternedString key str => key = ComputeStringKey str
  | kInternedCallstack key callstack => key = ComputeCallstackKey callstack
  | kInternedTracepointInfo key tracepoint_info =>
      key = ComputeStringKey (tracepoint_string tracepoint_info)
  | _ => True
  end.

(** *** The [CHECK]s of the callbacks *)

(** [check_free p]: no path of [p] ends in a failed [CHECK]. *)
Fixpoint check_free {A : Type} (p : Prog A) : Prop :=
  match p with
  | Return _ => True
  | CheckFailed => False
  | LockEventBuffer _ k => check_free k
  | LockAddressesSeen _ k => ∀ b, check_free (k b)
  | LockKeysSent _ _ k => ∀ b, check_free (k b)
  end.

Definition is_value {A : Type} (field : OneOf A) : bool :=
  match field with
  | kValue _ => true
  | _ => false
  end.

(** What the [CHECK]s of a callback ask of its argument. *)
Definition accepted (c : Call) : bool :=
  match c with
  | CallOnCallstackSample m => is_value (callstack_or_key m)
  | CallOnGpuJob m => is_value (timeline_or_key m)
  | CallOnAddressInfo m =>
      is_value (function_name_or_key m) && is_value (map_name_or_key m)
  | CallOnTracepointEvent m => is_value (tracepoint_info_or_key m)
  | _ => true
  end.

(** Whether [OnAddressInfo] returns at once for this call. *)
Definition returns_early (c : Call) (h : LinuxTracingHandler) : bool :=
  match c with
  | CallOnAddressInfo m => bool_decide (absolute_address m ∈ addresses_seen_ h)
  | _ => false
  end.

End LifecycleDefinitions.

(** *** More sample runs *)

Section Samples.
#[local] Existing Instance sample_protos.
#[local] Existing Instance sample_library.

Definition sample_file : list byte := records [[x61; x62; x63]; [x77; x78; x79; x7a]].

(** Two threads report the same address; the second one finds it in the
    set while the first is still interning the names. *)
Definition sample_address_race : option (list CaptureEvent * System) :=
  run_schedule
    [RunProducer 0; RunProducer 1; RunProducer 0; RunProducer 0; RunProducer 0;
     RunProducer 0; RunProducer 0]
    (started tt None
       [[CallOnAddressInfo (sample_address_info 4096 "_Zfoo")];
        [CallOnAddressInfo (sample_address_info 4096 "_Zfoo")]]).

(** A session in progress: the thread has made its two calls, the sender
    thread is about to hand over a first batch. *)
Definition sample_running : option (list CaptureEvent * System) :=
  run_schedule
    [RunProducer 0; RunSender; RunProducer 0; RunProducer 0; RunProducer 0]
    (started tt (Some sample_file)
       [[CallOnThreadName 7%nat; CallOnGpuJob sample_gpu_job]]).

(** The handler after [Start], the run above and [Stop]. *)
Definition sample_stopped : Service :=
  match Start tt [[CallOnThreadName 7%nat; CallOnGpuJob sample_gpu_job]]
          (constructed (Some sample_file)) with
  | Some s =>
      match run_schedule
              [RunProducer 0; RunSender; RunProducer 0; RunProducer 0; RunProducer 0]
              (running s) with
      | Some (_, sys) =>
          match Stop 3 {| running := sys; sender_thread_joinable := true |} with
          | Done (_, s') => s'
          | _ => constructed None
          end
      | None => constructed None
      end
  | None => constructed None
  end.

Definition sample_callstack_sample (l : list uint64) : CallstackSample :=
  {| callstack_sample_fields := 0%nat; callstack_or_key := kValue {| pcs := l |} |}.

Definition sample_unset_gpu_job : GpuJob :=
  {| gpu_job_fields := 2%nat; timeline_or_key := kNotSet |}.

End Samples.

(** * Properties *)

(** ** Programs run alone *)

Section Sequential.
Context {protos : Protos} {library : Library}.

Lemma exec_bind {A B : Type} (p : Prog A) (f : A -> Prog B) h :
  exec (p ≫= f) h =
  match exec p h with
  | Some (a, h') => exec (f a) h'
  | None => None
  end.
Proof.
  change (p ≫= f) with (bind p f).
  revert h. induction p as [a| |e k IH|a k IH|d key k IH]; intros h; simpl; try done.
  - destruct (addresses_seen_block a h) as [seen h']. apply IH.
  - destruct (keys_sent_block d key h) as [sent h']. apply IH.
Qed.


Lemma exec_InternIfNecessary payload h :
  exec (InternIfNecessary payload) h = Some (Hash payload, interned payload h).
Proof.
  unfold interned.
  destruct payload as [str|callstack|[n c]]; simpl;
    unfold keys_sent_block; simpl; case_decide; reflexivity.
Qed.

Lemma exec_InternStringIfNecessaryAndGetKey str h :
  exec (InternStringIfNecessaryAndGetKey str) h
  = Some (ComputeStringKey str, interned (StringPayload str) h).
Proof. apply (exec_InternIfNecessary (StringPayload str)). Qed.

Lemma exec_InternCallstackIfNecessaryAndGetKey callstack h :
  exec (InternCallstackIfNecessaryAndGetKey callstack) h
  = Some (ComputeCallstackKey callstack, interned (CallstackPayload callstack) h).
Proof. apply (exec_InternIfNecessary (CallstackPayload callstack)). Qed.

Lemma exec_InternTracepointInfoIfNecessaryAndGetKey tracepoint_info h :
  exec (InternTracepointInfoIfNecessaryAndGetKey tracepoint_info) h
  = Some (ComputeStringKey (tracepoint_string tracepoint_info),
          interned (TracepointPayload tracepoint_info) h).
Proof. apply (exec_InternIfNecessary (TracepointPayload tracepoint_info)). Qed.

Lemma exec_lock_event_buffer event h :
  exec (lock_event_buffer event) h = Some (tt, emplace_back event h).
Proof. reflexivity. Qed.

Lemma exec_CHECK_value {A : Type} (value : A) h :
  exec (CHECK_value (kValue value)) h = Some (value, h).
Proof. reflexivity. Qed.

Lemma exec_lock_addresses_seen address h :
  exec (lock_addresses_seen address) h = Some (addresses_seen_block address h).
Proof. simpl. destruct (addresses_seen_block address h). reflexivity. Qed.

End Sequential.

Ltac exec_steps :=
  repeat first
    [ rewrite exec_bind
    | rewrite exec_CHECK_value
    | rewrite exec_lock_addresses_seen
    | rewrite exec_InternStringIfNecessaryAndGetKey
    | rewrite exec_InternCallstackIfNecessaryAndGetKey
    | rewrite exec_InternTracepointInfoIfNecessaryAndGetKey
    | rewrite exec_lock_event_buffer ].

(** *** The sink callbacks in closed form *)

Section ClosedForms.
Context {protos : Protos} {library : Library}.

Lemma exec_OnCallstackSample m callstack h :
  callstack_or_key m = kValue callstack ->
  exec (OnCallstackSample m) h =
  Some (tt, emplace_back
              (kCallstackSample (set_callstack_key (ComputeCallstackKey callstack) m))
              (interned (CallstackPayload callstack) h)).
Proof.
  intros Hcase. unfold OnCallstackSample. rewrite Hcase. by exec_steps.
Qed.

Lemma exec_OnGpuJob m timeline h :
  timeline_or_key m = kValue timeline ->
  exec (OnGpuJob m) h =
  Some (tt, emplace_back (kGpuJob (set_timeline_key (ComputeStringKey timeline) m))
              (interned (StringPayload timeline) h)).
Proof.
  intros Hcase. unfold OnGpuJob. rewrite Hcase. by exec_steps.
Qed.

Lemma exec_OnTracepointEvent m tracepoint_info h :
  tracepoint_info_or_key m = kValue tracepoint_info ->
  exec (OnTracepointEvent m) h =
  Some (tt, emplace_back
              (kTracepointEvent
                 (set_tracepoint_info_key
                    (ComputeStringKey (tracepoint_string tracepoint_info)) m))
              (interned (TracepointPayload tracepoint_info) h)).
Proof.
  intros Hcase. unfold OnTracepointEvent. rewrite Hcase. by exec_steps.
Qed.


Lemma exec_OnAddressInfo_seen m h :
  absolute_address m ∈ addresses_seen_ h ->
  exec (OnAddressInfo m) h = Some (tt, h).
Proof.
  intros Hseen. unfold OnAddressInfo. exec_steps.
  unfold addresses_seen_block. rewrite decide_True by done. reflexivity.
Qed.

Lemma exec_OnAddressInfo_new m function_name map_name h :
  absolute_address m ∉ addresses_seen_ h ->
  function_name_or_key m = kValue function_name ->
  map_name_or_key m = kValue map_name ->
  exec (OnAddressInfo m) h =
  Some (tt, emplace_back (address_info_event m function_name map_name)
              (interned (StringPayload map_name)
                 (interned (StringPayload (llvm_demangle function_name))
                    (with_addresses_seen
                       ({[absolute_address m]} ∪ addresses_seen_ h) h)))).
Proof.
  intros Hnew Hfn Hmap. unfold OnAddressInfo. exec_steps.
  unfold addresses_seen_block. rewrite decide_False by done.
  rewrite Hfn. exec_steps. simpl map_name_or_key. rewrite Hmap. by exec_steps.
Qed.

End ClosedForms.

(** ** At most one interned-payload event per key *)

Section Discipline.
Context {protos : Protos} {library : Library}.

Lemma pending_bind {A B : Type} d key (p : Prog A) (f : A -> Prog B) :
  (∀ a, pending d key (f a) = 0%nat) ->
  pending d key (p ≫= f) = pending d key p.
Proof.
  intros Hf. change (p ≫= f) with (bind p f).
  induction p as [a| |e k IH|a k IH|d' key' k IH]; simpl; auto.
Qed.

Lemma disciplined_bind {A B : Type} (p : Prog A) (f : A -> Prog B) :
  disciplined p -> (∀ a, disciplined (f a)) ->
  (∀ a d key, pending d key (f a) = 0%nat) ->
  disciplined (p ≫= f).
Proof.
  intros Hp Hf Hf0. change (p ≫= f) with (bind p f).
  induction p as [a| |e k IH|a k IH|d' key' k IH]; simpl in *; auto.
  - intros b. destruct (Hp b) as [Hd H0]. split; [auto|].
    intros d key. change (bind (k b) f) with (k b ≫= f).
    rewrite pending_bind; auto.
  - destruct Hp as (Ht & Ht0 & Hf' & Hf1). repeat split; auto.
    + intros d key. change (bind (k true) f) with (k true ≫= f).
      rewrite pending_bind; auto.
    + intros d key. change (bind (k false) f) with (k false ≫= f).
      rewrite pending_bind; auto.
Qed.

Lemma interned_as_interned_event d key payload :
  interned_as d key (interned_event payload) = true
  ↔ d = domain_of payload ∧ key = Hash payload.
Proof.
  destruct payload, d; simpl; rewrite ?bool_decide_eq_true;
    split; try done; try (by intros [? ?]); try (by intros ->); by intros [_ ->].
Qed.

Lemma owes_interned_event d key payload :
  (if interned_as d key (interned_event payload) then 1%nat else 0%nat)
  = if decide (d = domain_of payload ∧ key = Hash payload) then 1%nat else 0%nat.
Proof.
  pose proof (interned_as_interned_event d key payload) as Hiff.
  destruct (interned_as d key (interned_event payload)); case_decide; try done.
  - exfalso. destruct Hiff as [Hiff _]. auto.
  - exfalso. destruct Hiff as [_ Hiff]. by specialize (Hiff ltac:(assumption)).
Qed.

Lemma disciplined_InternIfNecessary payload :
  disciplined (InternIfNecessary payload).
Proof.
  destruct payload as [str|callstack|[n c]]; simpl; repeat split; auto; intros d key.
  - rewrite Nat.add_0_r. apply (owes_interned_event d key (StringPayload str)).
  - rewrite Nat.add_0_r. apply (owes_interned_event d key (CallstackPayload callstack)).
  - rewrite Nat.add_0_r.
    apply (owes_interned_event d key (TracepointPayload {| name := n; category := c |})).
Qed.

Lemma pending_InternIfNecessary d key payload :
  pending d key (InternIfNecessary payload) = 0%nat.
Proof. by destruct payload. Qed.

(** A data-bearing event is no interned-payload event. *)
Ltac no_debt :=
  intros; simpl;
  repeat match goal with d : Domain |- _ => destruct d end;
  reflexivity.

Lemma disciplined_call c : disciplined (call c).
Proof.
  destruct c as [m|m|m|m|m|m|m|m|m|payload]; try exact I.
  - unfold call, OnCallstackSample. destruct (callstack_or_key m); try exact I.
    apply (disciplined_bind (InternIfNecessary (CallstackPayload value)));
      [apply disciplined_InternIfNecessary|done|no_debt].
  - unfold call, OnGpuJob. destruct (timeline_or_key m); try exact I.
    apply (disciplined_bind (InternIfNecessary (StringPayload value)));
      [apply disciplined_InternIfNecessary|done|no_debt].
  - unfold call, OnAddressInfo. simpl. intros [|]; [done|].
    split; [|by destruct (function_name_or_key m)].
    destruct (function_name_or_key m) as [|function_name|]; try exact I.
    apply (disciplined_bind (InternIfNecessary (StringPayload (llvm_demangle function_name))));
      [apply disciplined_InternIfNecessary| |].
    + intros key. simpl map_name_or_key.
      destruct (map_name_or_key m) as [|map_name|]; try exact I.
      apply (disciplined_bind (InternIfNecessary (StringPayload map_name)));
        [apply disciplined_InternIfNecessary|done|no_debt].
    + intros key d key'. simpl map_name_or_key.
      by destruct (map_name_or_key m).
  - unfold call, OnTracepointEvent. destruct (tracepoint_info_or_key m); try exact I.
    apply (disciplined_bind (InternIfNecessary (TracepointPayload value)));
      [apply disciplined_InternIfNecessary|done|no_debt].
  - apply disciplined_bind; [apply disciplined_InternIfNecessary|done|done].
Qed.

Lemma pending_call d key c : pending d key (call c) = 0%nat.
Proof.
  destruct c as [m|m|m|m|m|m|m|m|m|payload]; try no_debt.
  - unfold call, OnCallstackSample. by destruct (callstack_or_key m).
  - unfold call, OnGpuJob. by destruct (timeline_or_key m).
  - unfold call, OnTracepointEvent. by destruct (tracepoint_info_or_key m).
  - simpl. by destruct payload.
Qed.

Lemma pending_calls d key cs : pending d key (calls cs) = 0%nat.
Proof.
  induction cs as [|c cs IH]; [done|]. simpl calls.
  rewrite pending_bind; auto using pending_call.
Qed.

Lemma disciplined_calls cs : disciplined (calls cs).
Proof.
  induction cs as [|c cs IH]; [exact I|]. simpl calls.
  apply disciplined_bind; auto using disciplined_call, pending_calls.
Qed.

End Discipline.

(** ** The drain of the side-channel file *)

Lemma byte_value_byte_of_Z z : byte_value (byte_of_Z z) = z mod 2 ^ 8.
Proof.
  unfold byte_value, byte_of_Z.
  assert (0 <= z mod 2 ^ 8 < 2 ^ 8) as Hrange by (apply Z.mod_pos_bound; lia).
  destruct (Byte.of_N (Z.to_N (z mod 2 ^ 8))) as [b|] eqn:Hb; simpl.
  - apply Byte.to_of_N in Hb. rewrite Hb. lia.
  - apply Byte.of_N_None_iff in Hb. lia.
Qed.

Lemma ReadLittleEndian32_WriteLittleEndian32 n rest :
  0 <= n < 2 ^ 32 ->
  ReadLittleEndian32 (WriteLittleEndian32 n ++ rest) = Some (n, rest).
Proof.
  intros Hn. unfold WriteLittleEndian32. simpl.
  rewrite !byte_value_byte_of_Z. do 2 f_equal.
  change (2 ^ 8) with 256. change (2 ^ 16) with 65536.
  change (2 ^ 24) with 16777216. change (2 ^ 32) with 4294967296 in Hn.
  Z.div_mod_to_equations. lia.
Qed.

Lemma ReadLittleEndian32_short input :
  (length input < 4)%nat -> ReadLittleEndian32 input = None.
Proof.
  destruct input as [|b0 [|b1 [|b2 [|b3 rest]]]]; simpl; intros; try done; lia.
Qed.

Lemma ReadRaw_app payload rest :
  ReadRaw (Z.of_nat (length payload)) (payload ++ rest) = ReadTrue (payload, rest).
Proof.
  unfold ReadRaw. rewrite decide_False by lia. rewrite Nat2Z.id.
  rewrite decide_True by (rewrite length_app; lia).
  by rewrite take_app_length, drop_app_length.
Qed.

Lemma int_of_uint32_int n : n < 2 ^ 31 -> int_of_uint32 n = n.
Proof. intros Hn. unfold int_of_uint32. by rewrite decide_True. Qed.

Lemma int_of_uint32_negative n : 2 ^ 31 <= n < 2 ^ 32 -> int_of_uint32 n < 0.
Proof. intros Hn. unfold int_of_uint32. rewrite decide_False by lia. lia. Qed.

Section Drain.
Context {protos : Protos} {library : Library}.

Lemma ReadMessage_record payload rest :
  fits_prefix payload ->
  ReadMessage (record payload ++ rest)
  = ReadTrue (snd (ParseFromArray payload), rest).
Proof.
  intros Hfits. unfold fits_prefix in Hfits. unfold ReadMessage, record.
  rewrite <- app_assoc.
  rewrite ReadLittleEndian32_WriteLittleEndian32 by lia.
  by rewrite int_of_uint32_int, ReadRaw_app.
Qed.

Lemma ReadMessage_truncated tail : truncated tail -> ReadMessage tail = ReadFalse.
Proof.
  intros [Hshort|(n & rest & -> & Hn & Hrest)]; unfold ReadMessage.
  - by rewrite ReadLittleEndian32_short.
  - rewrite ReadLittleEndian32_WriteLittleEndian32 by lia.
    rewrite int_of_uint32_int by lia.
    unfold ReadRaw. rewrite decide_False by lia. rewrite decide_False by lia. done.
Qed.

(** A length prefix from 2^31 on reaches [ReadRaw] as a negative size,
    whatever follows it. *)
Lemma ReadMessage_negative_size n rest :
  2 ^ 31 <= n < 2 ^ 32 ->
  ReadMessage (WriteLittleEndian32 n ++ rest) = ReadUndefined.
Proof.
  intros Hn. unfold ReadMessage.
  rewrite ReadLittleEndian32_WriteLittleEndian32 by lia.
  unfold ReadRaw. by rewrite decide_True by (by apply int_of_uint32_negative).
Qed.

Lemma read_messages_step input event_buffer :
  read_messages input event_buffer =
  match ReadMessage input with
  | ReadTrue (queue_submission, input') =>
      read_messages input' (event_buffer ++ [kGpuQueueSubmission queue_submission])
  | ReadFalse => Some event_buffer
  | ReadUndefined => None
  end.
Proof.
  funelim (read_messages input event_buffer).
  - rewrite e. reflexivity.
  - rewrite e. reflexivity.
  - rewrite e. reflexivity.
Qed.

Lemma read_messages_truncated tail event_buffer :
  truncated tail -> read_messages tail event_buffer = Some event_buffer.
Proof.
  intros Htail. rewrite read_messages_step.
  by rewrite ReadMessage_truncated.
Qed.

Lemma read_messages_negative_size n rest event_buffer :
  2 ^ 31 <= n < 2 ^ 32 ->
  read_messages (WriteLittleEndian32 n ++ rest) event_buffer = None.
Proof.
  intros Hn. rewrite read_messages_step.
  by rewrite ReadMessage_negative_size.
Qed.

Lemma read_messages_records payloads tail event_buffer :
  Forall fits_prefix payloads ->
  read_messages (records payloads ++ tail) event_buffer
  = read_messages tail (event_buffer ++ map queue_submission_event payloads).
Proof.
  intros Hfits. revert event_buffer.
  induction Hfits as [|payload payloads Hfit _ IH]; intros event_buffer.
  - simpl. by rewrite app_nil_r.
  - change (records (payload :: payloads)) with (record payload ++ records payloads).
    rewrite <- app_assoc, read_messages_step, ReadMessage_record by done.
    rewrite IH. simpl. by rewrite <- app_assoc.
Qed.

Lemma ReadMessage_shorter input queue_submission input' :
  ReadMessage input = ReadTrue (queue_submission, input') ->
  (length input' < length input)%nat.
Proof.
  unfold ReadMessage, ReadLittleEndian32, ReadRaw.
  destruct input as [|b0 [|b1 [|b2 [|b3 rest]]]]; try discriminate.
  case_decide; [discriminate|]. case_decide; [|discriminate].
  intros [= _ <-]. rewrite length_drop. simpl. lia.
Qed.

(** The loop only appends to the buffer. *)
Lemma read_messages_app input event_buffer :
  read_messages input event_buffer
  = (fun appended => event_buffer ++ appended) <$> read_messages input [].
Proof.
  remember (length input) as n eqn:Hn. revert input Hn event_buffer.
  induction n as [n IH] using lt_wf_ind. intros input -> event_buffer.
  rewrite (read_messages_step input event_buffer), (read_messages_step input []).
  destruct (ReadMessage input) as [[queue_submission input']| |] eqn:Hread.
  - apply ReadMessage_shorter in Hread.
    rewrite (IH _ Hread input' eq_refl (event_buffer ++ _)).
    rewrite (IH _ Hread input' eq_refl ([] ++ _)).
    destruct (read_messages input' []) as [appended|]; simpl; [|done].
    by rewrite <- app_assoc.
  - simpl. by rewrite app_nil_r.
  - done.
Qed.

(** Every event that the loop appends is a queue-submission event. *)
Lemma read_messages_not_interned d key input appended :
  read_messages input [] = Some appended ->
  count_interned d key appended = 0%nat.
Proof.
  remember (length input) as n eqn:Hn. revert input Hn appended.
  induction n as [n IH] using lt_wf_ind. intros input -> appended.
  rewrite read_messages_step.
  destruct (ReadMessage input) as [[queue_submission input']| |] eqn:Hread;
    [|by intros [= <-]|done].
  apply ReadMessage_shorter in Hread.
  rewrite read_messages_app.
  destruct (read_messages input' []) as [later|] eqn:Hlater; simpl; [|done].
  intros [= <-]. unfold count_interned in *.
  rewrite filter_cons, decide_False by (by destruct d).
  exact (IH _ Hread input' eq_refl later Hlater).
Qed.

(** The locked part of an iteration of the sender thread, in closed form. *)
Lemma SenderThread_locked_eq h file :
  SenderThread_locked h file
  = (fun drained =>
       (bool_decide (tracer_ h = None),
        event_buffer_ h ++ drained,
        with_event_buffer [] h,
        match tracer_ h with None => None | Some _ => file end))
    <$> drained_events h file.
Proof.
  unfold SenderThread_locked, drained_events, read_vulkan_layer_result.
  destruct (tracer_ h) as [capture_options|] eqn:Htracer; simpl.
  - by rewrite app_nil_r.
  - destruct file as [bytes|]; simpl.
    + rewrite (read_messages_app bytes (event_buffer_ h)).
      by destruct (read_messages bytes []).
    + by rewrite app_nil_r.
Qed.

Lemma read_messages_whole_records payloads tail event_buffer :
  Forall fits_prefix payloads -> truncated tail ->
  read_messages (records payloads ++ tail) event_buffer
  = Some (event_buffer ++ map queue_submission_event payloads).
Proof.
  intros Hfits Htail.
  by rewrite read_messages_records, read_messages_truncated.
Qed.

Lemma truncated_nil : truncated [].
Proof. left. simpl. lia. Qed.

(** X17. On the iteration that finds [tracer_] null, the sender thread
    drains the side-channel file.  A file of well-formed records, each
    shorter than 2^31 bytes, gives one queue-submission event per record,
    in file order, after the events already in the buffer.  A file whose
    last record is cut (fewer than four bytes of prefix, or a prefix below
    2^31 and fewer payload bytes than it says) gives the events of the
    records before it.  In both cases the iteration yields its batch and
    the file is removed.  A file that cannot be opened adds nothing.
    (2^31 is where the range of the [int] ends that [ReadRaw] takes.) *)
Theorem drain_at_shutdown h payloads tail :
  tracer_ h = None ->
  Forall fits_prefix payloads ->
  truncated tail ->
  SenderThread_locked h (Some (records payloads))
  = Some (true, event_buffer_ h ++ map queue_submission_event payloads,
          with_event_buffer [] h, None)
  ∧ SenderThread_locked h (Some (records payloads ++ tail))
    = Some (true, event_buffer_ h ++ map queue_submission_event payloads,
            with_event_buffer [] h, None)
  ∧ SenderThread_locked h None
    = Some (true, event_buffer_ h, with_event_buffer [] h, None).
Proof.
  intros Htracer Hfits Htail.
  rewrite !SenderThread_locked_eq. unfold drained_events. rewrite Htracer.
  rewrite bool_decide_eq_true_2 by done.
  rewrite <- (app_nil_r (records payloads)) at 1.
  rewrite !read_messages_whole_records by auto using truncated_nil.
  simpl. by rewrite app_nil_r.
Qed.

(** C4. A cut record whose length prefix is 2^31 or more does not end the
    drain quietly.  In the file that holds the record "abc" and then the
    bytes ff ff ff ff 7a 7a, the last prefix, 4294967295, is larger than
    the two bytes that follow it; [ReadMessage] passes it to [ReadRaw],
    where it arrives as the [int] -1, a call that the contract of
    [ReadRaw] does not cover.  [ReadMessage] does not return false there,
    and the iteration of the sender thread does not come to its batch with
    the event of "abc": the source does not determine what happens. *)
Theorem drain_negative_size :
  ReadLittleEndian32 [xff; xff; xff; xff; x7a; x7a] = Some (4294967295, [x7a; x7a])
  ∧ (Z.of_nat (length [x7a; x7a]) < 4294967295)
  ∧ int_of_uint32 4294967295 = -1
  ∧ ReadRaw (-1) [x7a; x7a] = ReadUndefined
  ∧ ReadMessage [xff; xff; xff; xff; x7a; x7a] = ReadUndefined
  ∧ read_messages (records [[x61; x62; x63]] ++ [xff; xff; xff; xff; x7a; x7a]) []
    = None
  ∧ SenderThread_locked new_handler
      (Some (records [[x61; x62; x63]] ++ [xff; xff; xff; xff; x7a; x7a]))
    = None.
Proof.
  assert (read_messages
            (records [[x61; x62; x63]] ++ [xff; xff; xff; xff; x7a; x7a]) []
          = None) as Hdrain.
  { rewrite read_messages_records by (repeat constructor; unfold fits_prefix; simpl; lia).
    change [xff; xff; xff; xff; x7a; x7a]
      with (WriteLittleEndian32 4294967295 ++ [x7a; x7a]).
    apply read_messages_negative_size. lia. }
  split; [reflexivity|]. split; [simpl; lia|]. split; [reflexivity|].
  split; [reflexivity|]. split; [reflexivity|]. split; [exact Hdrain|].
  rewrite SenderThread_locked_eq. unfold drained_events. simpl tracer_.
  by rewrite Hdrain.
Qed.

(** C9. A record that is read in full but whose bytes [ParseFromArray]
    rejects is neither skipped nor the end of the drain: [ReadMessage]
    returns true, the event is appended like any other, with what the
    decoder left in the message, and the records after it are read. *)
Theorem drain_keeps_undecodable_record before bad after event_buffer :
  Forall fits_prefix before -> fits_prefix bad -> Forall fits_prefix after ->
  fst (ParseFromArray bad) = false ->
  ReadMessage (record bad ++ records after)
  = ReadTrue (snd (ParseFromArray bad), records after)
  ∧ read_messages (records before ++ record bad ++ records after) event_buffer
    = Some (event_buffer ++ map queue_submission_event before
            ++ [queue_submission_event bad] ++ map queue_submission_event after).
Proof.
  intros Hbefore Hbad Hafter _. split; [by apply ReadMessage_record|].
  change (record bad ++ records after) with (records (bad :: after)).
  rewrite read_messages_records by done.
  rewrite <- (app_nil_r (records (bad :: after))).
  rewrite read_messages_whole_records by auto using truncated_nil.
  by rewrite <- app_assoc.
Qed.

End Drain.

(** ** Executions of the whole system *)

Section Executions.
Context {protos : Protos} {library : Library}.

Lemma execution_cons sys appended sys' t sys'' :
  step sys appended sys' -> execution sys' t sys'' ->
  execution sys (appended ++ t) sys''.
Proof.
  intros Hstep Hexec. induction Hexec as [sys'|sys' t sys1 a sys2 _ IH Hlast].
  - rewrite app_nil_r. rewrite <- (app_nil_l appended).
    eapply execution_step; [apply execution_refl|done].
  - rewrite app_assoc. eapply execution_step; [by apply IH|done].
Qed.

Lemma schedule_step_step c sys appended sys' :
  schedule_step c sys = Some (appended, sys') -> step sys appended sys'.
Proof.
  destruct c as [i| |]; simpl.
  - destruct (producers sys !! i) as [p|] eqn:Hp; [|done].
    destruct (block_step p (handler sys)) as [[[a p'] h']|] eqn:Hblock; [|done].
    intros [= <- <-]. by eapply step_producer.
  - destruct (tracer_ (handler sys)) as [capture_options|] eqn:Htracer; [|done].
    intros [= <- <-]. by eapply step_Stop.
  - destruct (sender_thread_ sys) as [|stopped buffered_events|] eqn:Hsender; [| |done].
    + destruct (SenderThread_locked _ _)
        as [[[[stopped buffered_events] h'] file']|] eqn:Hlocked; [|done].
      destruct (drained_events _ _) as [drained|] eqn:Hdrained; [|done].
      intros [= <- <-]. by eapply step_sender_locked.
    + intros [= <- <-]. by eapply step_sender_forward.
Qed.

Lemma run_schedule_execution cs sys t sys' :
  run_schedule cs sys = Some (t, sys') -> execution sys t sys'.
Proof.
  revert sys t sys'. induction cs as [|c cs IH]; intros sys t sys'; simpl.
  - intros [= <- <-]. apply execution_refl.
  - destruct (schedule_step c sys) as [[a sys1]|] eqn:Hstep; [|done].
    destruct (run_schedule cs sys1) as [[t1 sys2]|] eqn:Hrun; [|done].
    intros [= <- <-].
    eapply execution_cons; [by apply (schedule_step_step c)|by apply IH].
Qed.

Lemma count_interned_app d key l1 l2 :
  count_interned d key (l1 ++ l2)
  = (count_interned d key l1 + count_interned d key l2)%nat.
Proof. unfold count_interned. by rewrite filter_app, length_app. Qed.

Lemma count_interned_singleton d key e :
  count_interned d key [e] = if interned_as d key e then 1%nat else 0%nat.
Proof.
  unfold count_interned. rewrite filter_cons, filter_nil.
  destruct (interned_as d key e); case_decide; done.
Qed.

Lemma keys_sent_with_keys_sent d d' keys h :
  keys_sent d (with_keys_sent d' keys h)
  = if decide (d = d') then keys else keys_sent d h.
Proof. by destruct d, d'. Qed.


Lemma block_step_tracer {A : Type} (p : Prog A) h appended p' h' :
  block_step p h = Some (appended, p', h') -> tracer_ h' = tracer_ h.
Proof.
  destruct p as [a| |e k|a k|d key k]; simpl; try done.
  - by intros [= <- <- <-].
  - unfold addresses_seen_block. by case_decide; intros [= <- <- <-].
  - unfold keys_sent_block. by case_decide; intros [= <- <- <-].
Qed.

(** What a block appends, what the thread still owes and what is not
    marked yet add up to the same before and after. *)
Lemma block_step_balance {A : Type} (p : Prog A) h appended p' h' d key :
  disciplined p ->
  block_step p h = Some (appended, p', h') ->
  disciplined p' ∧
  (count_interned d key appended + pending d key p' + unsent d key h'
   = pending d key p + unsent d key h)%nat.
Proof.
  destruct p as [a| |e k|a k|d0 key0 k]; simpl; try done.
  - intros Hk [= <- <- <-]. split; [done|].
    rewrite count_interned_singleton. unfold unsent. destruct d; simpl; lia.
  - intros Hk. unfold addresses_seen_block.
    case_decide; intros [= <- <- <-]; (split; [apply Hk|]);
      rewrite (proj2 (Hk _)); reflexivity.
  - intros (Ht & Ht0 & Hf & Hf1). unfold keys_sent_block.
    case_decide as Hsent; intros [= <- <- <-].
    + split; [done|]. by rewrite Ht0.
    + split; [done|]. rewrite Hf1. unfold unsent.
      rewrite keys_sent_with_keys_sent. simpl.
      destruct (decide (d = d0)) as [->|Hd].
      * destruct (decide (key = key0)) as [->|Hkey].
        -- rewrite decide_True by done.
           rewrite decide_True by (apply elem_of_union; left; by apply elem_of_singleton).
           rewrite decide_False by done. lia.
        -- rewrite decide_False by (intros [_ ?]; done).
           destruct (decide (key ∈ keys_sent d0 h)).
           ++ rewrite decide_True by (apply elem_of_union; by right). lia.
           ++ rewrite decide_False
                by (rewrite elem_of_union, elem_of_singleton; intros [?|?]; done).
              lia.
      * rewrite decide_False by (intros [? _]; done). lia.
Qed.

Lemma pending_total_insert d key (ps : list (Prog unit)) i p p' :
  ps !! i = Some p ->
  (pending_total d key (<[i := p']> ps) + pending d key p
   = pending_total d key ps + pending d key p')%nat.
Proof.
  unfold pending_total. revert i.
  induction ps as [|q ps IH]; intros [|i] Hi; simpl in *; try done.
  - injection Hi as ->. lia.
  - specialize (IH i Hi). lia.
Qed.

Lemma pending_total_calls d key threads :
  pending_total d key (map calls threads) = 0%nat.
Proof.
  unfold pending_total. induction threads as [|cs threads IH]; simpl; [done|].
  by rewrite pending_calls, IH.
Qed.

Lemma SenderThread_locked_inv h file stopped buffered_events h' file' drained :
  SenderThread_locked h file = Some (stopped, buffered_events, h', file') ->
  drained_events h file = Some drained ->
  buffered_events = event_buffer_ h ++ drained
  ∧ event_buffer_ h' = []
  ∧ (∀ d, keys_sent d h' = keys_sent d h)
  ∧ stopped = bool_decide (tracer_ h = None).
Proof.
  rewrite SenderThread_locked_eq. intros Hlocked Hdrained.
  rewrite Hdrained in Hlocked. injection Hlocked as <- <- <- <-. by repeat split.
Qed.

(** The locked part of an iteration is defined exactly when the drain is. *)
Lemma SenderThread_locked_defined h file :
  is_Some (SenderThread_locked h file) ↔ is_Some (drained_events h file).
Proof.
  rewrite SenderThread_locked_eq. destruct (drained_events h file); simpl.
  - split; intros _; by eexists.
  - split; by intros [? ?].
Qed.

Lemma drained_events_not_interned d key h file drained :
  drained_events h file = Some drained ->
  count_interned d key drained = 0%nat.
Proof.
  unfold drained_events. destruct (tracer_ h), file; try (by intros [= <-]).
  apply read_messages_not_interned.
Qed.


Lemma dedup_invariant_started capture_options file threads :
  dedup_invariant [] (started capture_options file threads).
Proof.
  split; simpl.
  - apply Forall_forall. intros p [cs [-> _]]%list_elem_of_fmap.
    apply disciplined_calls.
  - intros d key. rewrite pending_total_calls. by destruct d.
Qed.

Lemma dedup_invariant_step t sys appended sys' :
  dedup_invariant t sys -> step sys appended sys' ->
  dedup_invariant (t ++ appended) sys'.
Proof.
  intros [Hdisc Hbal] Hstep.
  destruct Hstep as [sys i p a p' h' Hp Hblock|sys capture_options Htracer
                    |sys stopped batch h' file' drained Hwait Hlocked Hdrained|sys stopped batch Hfwd];
    simpl.
  - assert (disciplined p) as Hpd
        by (eapply Forall_lookup_1; [exact Hdisc|exact Hp]).
    split; simpl.
    + apply Forall_insert; [done|].
      by apply (block_step_balance p (handler sys) a p' h' StringDomain 0).
    + intros d key. specialize (Hbal d key).
      destruct (block_step_balance p (handler sys) a p' h' d key Hpd Hblock) as [_ Heq].
      pose proof (pending_total_insert d key (producers sys) i p p' Hp).
      rewrite count_interned_app. lia.
  - split; [done|]. intros d key. rewrite app_nil_r. apply Hbal.
  - pose proof (SenderThread_locked_inv _ _ _ _ _ _ _ Hlocked Hdrained) as (_ & _ & Hkeys & _).
    split; [done|]. intros d key. simpl.
    rewrite count_interned_app, (drained_events_not_interned _ _ _ _ _ Hdrained).
    unfold unsent. rewrite Hkeys. specialize (Hbal d key). unfold unsent in Hbal. lia.
  - split; [done|]. intros d key. rewrite app_nil_r. apply Hbal.
Qed.

Lemma dedup_invariant_execution capture_options file threads t sys :
  execution (started capture_options file threads) t sys -> dedup_invariant t sys.
Proof.
  remember (started capture_options file threads) as sys0 eqn:Hsys0.
  induction 1 as [sys|sys t sys' a sys'' _ IH Hstep].
  - subst. apply dedup_invariant_started.
  - eapply dedup_invariant_step; [by apply IH|done].
Qed.







(** A program run alone is one of the executions of the system: the one
    in which its thread takes all its steps in a row. *)
Lemma exec_execution (p : Prog unit) h h' i ps w s :
  exec p h = Some (tt, h') ->
  ps !! i = Some p ->
  ∃ t,
    execution
      {| handler := h; world := w; producers := ps; sender_thread_ := s |} t
      {| handler := h'; world := w; producers := <[i := Return tt]> ps;
         sender_thread_ := s |}
    ∧ event_buffer_ h' = event_buffer_ h ++ t.
Proof.
  revert h ps.
  induction p as [[]| |e k IH|a k IH|d key k IH]; intros h ps Hexec Hi.
  - injection Hexec as <-. exists []. rewrite list_insert_id by done.
    split; [apply execution_refl|by rewrite app_nil_r].
  - done.
  - simpl in Hexec.
    destruct (IH (emplace_back e h) (<[i := k]> ps) Hexec) as (t & Hrun & Hbuf).
    { apply list_lookup_insert_eq. by eapply lookup_lt_Some. }
    rewrite list_insert_insert_eq in Hrun. exists ([e] ++ t). split.
    + eapply execution_cons; [|exact Hrun].
      by apply (step_producer
                  {| handler := h; world := w; producers := ps; sender_thread_ := s |}
                  i (LockEventBuffer e k) [e] k (emplace_back e h)).
    + rewrite Hbuf. simpl. by rewrite <- app_assoc.
  - simpl in Hexec.
    destruct (addresses_seen_block a h) as [seen h1] eqn:Hblock.
    destruct (IH seen h1 (<[i := k seen]> ps) Hexec) as (t & Hrun & Hbuf).
    { apply list_lookup_insert_eq. by eapply lookup_lt_Some. }
    rewrite list_insert_insert_eq in Hrun. exists ([] ++ t). split.
    + eapply execution_cons; [|exact Hrun].
      apply (step_producer
               {| handler := h; world := w; producers := ps; sender_thread_ := s |}
               i (LockAddressesSeen a k) [] (k seen) h1); [done|].
      simpl. by rewrite Hblock.
    + rewrite Hbuf. f_equal.
      revert Hblock. unfold addresses_seen_block. by case_decide; intros [= <- <-].
  - simpl in Hexec.
    destruct (keys_sent_block d key h) as [sent h1] eqn:Hblock.
    destruct (IH sent h1 (<[i := k sent]> ps) Hexec) as (t & Hrun & Hbuf).
    { apply list_lookup_insert_eq. by eapply lookup_lt_Some. }
    rewrite list_insert_insert_eq in Hrun. exists ([] ++ t). split.
    + eapply execution_cons; [|exact Hrun].
      apply (step_producer
               {| handler := h; world := w; producers := ps; sender_thread_ := s |}
               i (LockKeysSent d key k) [] (k sent) h1); [done|].
      simpl. by rewrite Hblock.
    + rewrite Hbuf. f_equal.
      revert Hblock. unfold keys_sent_block. by case_decide; intros [= <- <-].
Qed.

(** The same balance for a program run alone. *)
Lemma exec_balance {A : Type} (p : Prog A) h a h' d key :
  disciplined p ->
  exec p h = Some (a, h') ->
  (count_interned d key (event_buffer_ h') + unsent d key h'
   = count_interned d key (event_buffer_ h) + unsent d key h + pending d key p)%nat.
Proof.
  revert h. induction p as [a0| |e k IH|a0 k IH|d0 key0 k IH]; intros h Hdisc Hexec.
  - injection Hexec as <- <-. simpl. lia.
  - done.
  - destruct (block_step_balance (LockEventBuffer e k) h [e] k (emplace_back e h)
                d key Hdisc eq_refl) as [Hk Heq].
    specialize (IH _ Hk Hexec). simpl event_buffer_ in IH.
    rewrite count_interned_app in IH. lia.
  - simpl in Hexec.
    destruct (addresses_seen_block a0 h) as [seen h1] eqn:Hblock.
    destruct (block_step_balance (LockAddressesSeen a0 k) h [] (k seen) h1 d key Hdisc)
      as [Hk Heq]; [by simpl; rewrite Hblock|].
    specialize (IH _ _ Hk Hexec).
    assert (event_buffer_ h1 = event_buffer_ h) as Hbuf.
    { revert Hblock. unfold addresses_seen_block. by case_decide; intros [= <- <-]. }
    rewrite Hbuf in IH. simpl in Heq. simpl. lia.
  - simpl in Hexec.
    destruct (keys_sent_block d0 key0 h) as [sent h1] eqn:Hblock.
    destruct (block_step_balance (LockKeysSent d0 key0 k) h [] (k sent) h1 d key Hdisc)
      as [Hk Heq]; [by simpl; rewrite Hblock|].
    specialize (IH _ _ Hk Hexec).
    assert (event_buffer_ h1 = event_buffer_ h) as Hbuf.
    { revert Hblock. unfold keys_sent_block. by case_decide; intros [= <- <-]. }
    rewrite Hbuf in IH. simpl in Heq. simpl. lia.
Qed.







End Executions.

(** ** The sink callbacks, run by one thread *)

Section Callbacks.
Context {protos : Protos} {library : Library}.

Lemma covers_refl h : covers h [] h.
Proof.
  split; [by rewrite app_nil_r|]. split.
  - intros j e d key Hj. by rewrite lookup_nil in Hj.
  - intros d key. split; [by left|]. intros [?|(i & e & Hi & _)]; [done|].
    by rewrite lookup_nil in Hi.
Qed.

Lemma covers_trans h1 l1 h2 l2 h3 :
  covers h1 l1 h2 -> covers h2 l2 h3 -> covers h1 (l1 ++ l2) h3.
Proof.
  intros (Hbuf1 & Hord1 & Hkeys1) (Hbuf2 & Hord2 & Hkeys2). split; [|split].
  - by rewrite Hbuf2, Hbuf1, <- app_assoc.
  - intros j e d key Hj Hrefers.
    destruct (decide (j < length l1)%nat) as [Hlt|Hge].
    + rewrite lookup_app_l in Hj by done.
      destruct (Hord1 j e d key Hj Hrefers) as [?|(i & e' & Hi & Hie & Hint)]; [by left|].
      right. exists i, e'. split; [done|]. split; [|done].
      rewrite lookup_app_l; [done|lia].
    + rewrite lookup_app_r in Hj by lia.
      destruct (Hord2 _ e d key Hj Hrefers) as [Hsent|(i & e' & Hi & Hie & Hint)].
      * apply Hkeys1 in Hsent as [?|(i & e' & Hie & Hint)]; [by left|].
        right. exists i, e'. apply lookup_lt_Some in Hie as Hlt.
        split; [lia|]. split; [|done]. by rewrite lookup_app_l.
      * right. exists (length l1 + i)%nat, e'. split; [lia|]. split; [|done].
        rewrite lookup_app_r by lia. by replace (length l1 + i - length l1)%nat with i by lia.
  - intros d key. rewrite Hkeys2, Hkeys1. split.
    + intros [[?|(i & e & Hie & Hint)]|(i & e & Hie & Hint)]; [by left| |].
      * right. exists i, e. split; [|done].
        apply lookup_lt_Some in Hie as Hlt. by rewrite lookup_app_l.
      * right. exists (length l1 + i)%nat, e. split; [|done].
        rewrite lookup_app_r by lia. by replace (length l1 + i - length l1)%nat with i by lia.
    + intros [?|(i & e & Hie & Hint)]; [by left; left|].
      destruct (decide (i < length l1)%nat) as [Hlt|Hge].
      * rewrite lookup_app_l in Hie by done. left. right. by exists i, e.
      * rewrite lookup_app_r in Hie by lia. right. by eexists _, e.
Qed.

Lemma refers_to_interned_event d key payload :
  refers_to d key (interned_event payload) = false.
Proof. by destruct payload, d. Qed.

Lemma covers_interned payload h :
  covers h (newly_interned payload h) (interned payload h).
Proof.
  unfold newly_interned, interned. case_decide as Hsent; [apply covers_refl|].
  split; [done|]. split.
  - intros [|j] e d key Hj Hrefers; [|by simpl in Hj].
    injection Hj as <-. by rewrite refers_to_interned_event in Hrefers.
  - intros d key. simpl. change (keys_sent d (emplace_back ?e ?h0)) with (keys_sent d h0).
    rewrite keys_sent_with_keys_sent. split.
    + case_decide as Hd.
      * subst d. rewrite elem_of_union, elem_of_singleton. intros [->|?]; [|by left].
        right. exists 0%nat, (interned_event payload). split; [done|].
        by apply interned_as_interned_event.
      * by left.
    + intros [Hold|(i & e & Hie & Hint)].
      * case_decide as Hd; [|done]. subst d. apply elem_of_union. by right.
      * destruct i as [|i]; [|by simpl in Hie]. injection Hie as <-.
        apply interned_as_interned_event in Hint as [-> ->].
        rewrite decide_True by done. apply elem_of_union. left. by apply elem_of_singleton.
Qed.

(** Appending an event that is no interned-payload event and whose keys are
    all marked. *)
Lemma covers_emplace_back e h :
  (∀ d key, interned_as d key e = false) ->
  (∀ d key, refers_to d key e = true -> key ∈ keys_sent d h) ->
  covers h [e] (emplace_back e h).
Proof.
  intros Hnot Hkeys. split; [done|]. split.
  - intros [|j] e' d key Hj Hrefers; [|by simpl in Hj].
    injection Hj as <-. left. by apply Hkeys.
  - intros d key. change (keys_sent d (emplace_back e h)) with (keys_sent d h).
    split; [by left|]. intros [?|(i & e' & Hie & Hint)]; [done|].
    destruct i as [|i]; [|by simpl in Hie]. injection Hie as <-.
    by rewrite Hnot in Hint.
Qed.

Lemma covers_with_addresses_seen addresses h :
  covers h [] (with_addresses_seen addresses h).
Proof.
  destruct (covers_refl h) as (Hbuf & Hord & Hkeys).
  split; [exact Hbuf|]. split; [exact Hord|].
  intros d key. rewrite <- Hkeys. by destruct d.
Qed.

Lemma covers_keys_sent h l h' d key :
  covers h l h' -> key ∈ keys_sent d h -> key ∈ keys_sent d h'.
Proof. intros (_ & _ & Hkeys) Hsent. apply Hkeys. by left. Qed.

Lemma interned_marks payload h :
  Hash payload ∈ keys_sent (domain_of payload) (interned payload h).
Proof.
  unfold interned. case_decide; [done|].
  change (keys_sent ?d (emplace_back ?e ?h0)) with (keys_sent d h0).
  rewrite keys_sent_with_keys_sent, decide_True by done.
  apply elem_of_union. left. by apply elem_of_singleton.
Qed.

Lemma is_key_true {A : Type} key key' :
  is_key (A := A) key (kKey key') = true -> key = key'.
Proof. simpl. by intros ->%bool_decide_eq_true. Qed.

(** The events that a call appends. *)
Lemma call_covers c h h' :
  exec (call c) h = Some (tt, h') -> ∃ l, covers h l h'.
Proof.
  destruct c as [m|m|m|m|m|m|m|m|m|payload]; simpl call.
  - intros [= <-]. eexists. by apply covers_emplace_back; intros [] ?.
  - destruct (callstack_or_key m) as [|callstack|] eqn:Hcase;
      [by unfold OnCallstackSample; rewrite Hcase| |by unfold OnCallstackSample; rewrite Hcase].
    rewrite (exec_OnCallstackSample _ _ _ Hcase). intros [= <-]. eexists.
    eapply covers_trans; [apply covers_interned|].
    apply covers_emplace_back; [by intros [] ?|].
    intros [] key Hrefers; try done. simpl in Hrefers.
    apply bool_decide_eq_true in Hrefers as <-.
    apply (interned_marks (CallstackPayload callstack)).
  - intros [= <-]. eexists. by apply covers_emplace_back; intros [] ?.
  - intros [= <-]. eexists. by apply covers_emplace_back; intros [] ?.
  - destruct (timeline_or_key m) as [|timeline|] eqn:Hcase;
      [by unfold OnGpuJob; rewrite Hcase| |by unfold OnGpuJob; rewrite Hcase].
    rewrite (exec_OnGpuJob _ _ _ Hcase). intros [= <-]. eexists.
    eapply covers_trans; [apply covers_interned|].
    apply covers_emplace_back; [by intros [] ?|].
    intros [] key Hrefers; try done. simpl in Hrefers.
    apply bool_decide_eq_true in Hrefers as <-.
    apply (interned_marks (StringPayload timeline)).
  - intros [= <-]. eexists. by apply covers_emplace_back; intros [] ?.
  - intros [= <-]. eexists. by apply covers_emplace_back; intros [] ?.
  - destruct (decide (absolute_address m ∈ addresses_seen_ h)) as [Hseen|Hnew].
    { rewrite exec_OnAddressInfo_seen by done. intros [= <-].
      eexists. apply covers_refl. }
    destruct (function_name_or_key m) as [|function_name|] eqn:Hfn.
    1, 3: unfold OnAddressInfo; exec_steps; unfold addresses_seen_block;
          rewrite decide_False by done; by rewrite Hfn.
    destruct (map_name_or_key m) as [|map_name|] eqn:Hmap.
    1, 3: unfold OnAddressInfo; exec_steps; unfold addresses_seen_block;
          rewrite decide_False by done; rewrite Hfn; exec_steps;
          simpl map_name_or_key; by rewrite Hmap.
    rewrite (exec_OnAddressInfo_new _ _ _ _ Hnew Hfn Hmap). intros [= <-]. eexists.
    eapply covers_trans; [apply covers_with_addresses_seen|].
    eapply covers_trans; [apply covers_interned|].
    eapply covers_trans; [apply covers_interned|].
    apply covers_emplace_back; [by intros [] ?|].
    intros [] key Hrefers; try done. simpl in Hrefers.
    apply orb_true_iff in Hrefers as [<-%bool_decide_eq_true|<-%bool_decide_eq_true].
    + eapply covers_keys_sent; [apply covers_interned|].
      apply (interned_marks (StringPayload (llvm_demangle function_name))).
    + apply (interned_marks (StringPayload map_name)).
  - destruct (tracepoint_info_or_key m) as [|tracepoint_info|] eqn:Hcase;
      [by unfold OnTracepointEvent; rewrite Hcase|
      |by unfold OnTracepointEvent; rewrite Hcase].
    rewrite (exec_OnTracepointEvent _ _ _ Hcase). intros [= <-]. eexists.
    eapply covers_trans; [apply covers_interned|].
    apply covers_emplace_back; [by intros [] ?|].
    intros [] key Hrefers; try done. simpl in Hrefers.
    apply bool_decide_eq_true in Hrefers as <-.
    apply (interned_marks (TracepointPayload tracepoint_info)).
  - exec_steps. rewrite exec_InternIfNecessary. intros [= <-].
    eexists. apply covers_interned.
Qed.

Lemma calls_covers cs h h' :
  exec (calls cs) h = Some (tt, h') -> ∃ l, covers h l h'.
Proof.
  revert h. induction cs as [|c cs IH]; intros h; simpl calls.
  - intros [= <-]. eexists. apply covers_refl.
  - rewrite exec_bind. destruct (exec (call c) h) as [[[] h1]|] eqn:Hcall; [|done].
    intros Hrest. destruct (call_covers _ _ _ Hcall) as [l1 H1].
    destruct (IH _ Hrest) as [l2 H2]. eexists. by eapply covers_trans.
Qed.

Lemma interned_as_not_refers_to d key e d' key' :
  interned_as d key e = true -> refers_to d' key' e = false.
Proof. by destruct e, d, d'. Qed.

Lemma event_buffer_interned payload h :
  event_buffer_ (interned payload h) = event_buffer_ h ++ newly_interned payload h.
Proof. apply covers_interned. Qed.

Lemma newly_interned_interned payload h e :
  e ∈ newly_interned payload h ->
  interned_as (domain_of payload) (Hash payload) e = true.
Proof.
  unfold newly_interned. case_decide; [by intros ?%elem_of_nil|].
  intros ->%list_elem_of_singleton. by apply interned_as_interned_event.
Qed.

(** What a call appends: interned-payload events, then at most one event
    that is none. *)
Lemma call_appends c h h' :
  exec (call c) h = Some (tt, h') ->
  ∃ interns data,
    event_buffer_ h' = event_buffer_ h ++ interns ++ data
    ∧ (∀ e, e ∈ interns -> ∃ d key, interned_as d key e = true)
    ∧ (∀ e, e ∈ data -> ∀ d key, interned_as d key e = false).
Proof.
  assert (∀ e : CaptureEvent, e ∈ [] -> ∃ d key, interned_as d key e = true)
    as Hnone by (by intros e ?%elem_of_nil).
  assert (∀ e : CaptureEvent, e ∈ [] -> ∀ d key, interned_as d key e = false)
    as Hnodata by (by intros e ?%elem_of_nil).
  assert (∀ payload h0 e, e ∈ newly_interned payload h0 ->
                          ∃ d key, interned_as d key e = true) as Hnew.
  { intros payload h0 e He. eexists _, _. by eapply newly_interned_interned. }
  destruct c as [m|m|m|m|m|m|m|m|m|payload]; simpl call.
  - intros [= <-]. exists [], [kSchedulingSlice m]. split; [done|]. split; [done|].
    by intros e ->%list_elem_of_singleton [] ?.
  - destruct (callstack_or_key m) as [|callstack|] eqn:Hcase;
      [by unfold OnCallstackSample; rewrite Hcase| |by unfold OnCallstackSample; rewrite Hcase].
    rewrite (exec_OnCallstackSample _ _ _ Hcase). intros [= <-].
    eexists (newly_interned _ h), [_]. simpl. rewrite event_buffer_interned.
    split; [by rewrite <- app_assoc|]. split; [apply Hnew|].
    by intros e ->%list_elem_of_singleton [] ?.
  - intros [= <-]. exists [], [kFunctionCall m]. split; [done|]. split; [done|].
    by intros e ->%list_elem_of_singleton [] ?.
  - intros [= <-]. exists [], [kIntrospectionScope m]. split; [done|]. split; [done|].
    by intros e ->%list_elem_of_singleton [] ?.
  - destruct (timeline_or_key m) as [|timeline|] eqn:Hcase;
      [by unfold OnGpuJob; rewrite Hcase| |by unfold OnGpuJob; rewrite Hcase].
    rewrite (exec_OnGpuJob _ _ _ Hcase). intros [= <-].
    eexists (newly_interned _ h), [_]. simpl. rewrite event_buffer_interned.
    split; [by rewrite <- app_assoc|]. split; [apply Hnew|].
    by intros e ->%list_elem_of_singleton [] ?.
  - intros [= <-]. exists [], [kThreadName m]. split; [done|]. split; [done|].
    by intros e ->%list_elem_of_singleton [] ?.
  - intros [= <-]. exists [], [kThreadStateSlice m]. split; [done|]. split; [done|].
    by intros e ->%list_elem_of_singleton [] ?.
  - destruct (decide (absolute_address m ∈ addresses_seen_ h)) as [Hseen|Hunseen].
    { rewrite exec_OnAddressInfo_seen by done. intros [= <-].
      exists [], []. by rewrite !app_nil_r. }
    destruct (function_name_or_key m) as [|function_name|] eqn:Hfn.
    1, 3: unfold OnAddressInfo; exec_steps; unfold addresses_seen_block;
          rewrite decide_False by done; by rewrite Hfn.
    destruct (map_name_or_key m) as [|map_name|] eqn:Hmap.
    1, 3: unfold OnAddressInfo; exec_steps; unfold addresses_seen_block;
          rewrite decide_False by done; rewrite Hfn; exec_steps;
          simpl map_name_or_key; by rewrite Hmap.
    rewrite (exec_OnAddressInfo_new _ _ _ _ Hunseen Hfn Hmap). intros [= <-].
    eexists (newly_interned _ _ ++ newly_interned _ _), [_]. simpl.
    rewrite !event_buffer_interned. simpl.
    split; [by rewrite <- !app_assoc|]. split.
    + intros e [He|He]%elem_of_app; by eapply Hnew.
    + by intros e ->%list_elem_of_singleton [] ?.
  - destruct (tracepoint_info_or_key m) as [|tracepoint_info|] eqn:Hcase;
      [by unfold OnTracepointEvent; rewrite Hcase|
      |by unfold OnTracepointEvent; rewrite Hcase].
    rewrite (exec_OnTracepointEvent _ _ _ Hcase). intros [= <-].
    eexists (newly_interned _ h), [_]. simpl. rewrite event_buffer_interned.
    split; [by rewrite <- app_assoc|]. split; [apply Hnew|].
    by intros e ->%list_elem_of_singleton [] ?.
  - exec_steps. rewrite exec_InternIfNecessary. intros [= <-].
    exists (newly_interned payload h), []. rewrite event_buffer_interned, app_nil_r.
    split; [done|]. split; [apply Hnew|done].
Qed.

(** C3. In a run of calls by one thread, the interned-payload events that a
    call appends all come before the data-bearing event that it appends.  A
    data-bearing event appended by a call either carries a key that was
    marked before the call, or comes, among the events of this call, after
    the interned-payload event of its key.  From a fresh handler, every
    data-bearing event in the buffer comes after an interned-payload event
    of the same domain and key. *)
Theorem intern_record_before_reference :
  (∀ c h h',
     exec (call c) h = Some (tt, h') ->
     ∃ appended,
       event_buffer_ h' = event_buffer_ h ++ appended
       ∧ (∀ i j e' e d key d' key',
            appended !! i = Some e' -> interned_as d' key' e' = true ->
            appended !! j = Some e -> refers_to d key e = true ->
            (i < j)%nat)
       ∧ (∀ j e d key,
            appended !! j = Some e -> refers_to d key e = true ->
            key ∈ keys_sent d h
            ∨ ∃ i e', (i < j)%nat ∧ appended !! i = Some e'
                      ∧ interned_as d key e' = true))
  ∧ (∀ cs h',
       exec (calls cs) new_handler = Some (tt, h') ->
       ∀ j e d key,
         event_buffer_ h' !! j = Some e -> refers_to d key e = true ->
         ∃ i e', (i < j)%nat ∧ event_buffer_ h' !! i = Some e'
                 ∧ interned_as d key e' = true).
Proof.
  split.
  - intros c h h' Hexec.
    destruct (call_covers _ _ _ Hexec) as (l & Hbuf & Hord & _).
    destruct (call_appends _ _ _ Hexec) as (interns & data & Hbuf' & Hinterns & Hdata).
    assert (l = interns ++ data) as -> by (rewrite Hbuf in Hbuf'; by simplify_list_eq).
    exists (interns ++ data). split; [done|]. split; [|done].
    intros i j e' e d key d' key' Hi Hinterned Hj Hrefers.
    destruct (decide (i < length interns)%nat) as [Hlt|Hge].
    + destruct (decide (j < length interns)%nat) as [Hlt'|Hge']; [|lia].
      rewrite lookup_app_l in Hj by done.
      destruct (Hinterns e) as (d0 & key0 & He);
        [by eapply list_elem_of_lookup_2|].
      by rewrite (interned_as_not_refers_to _ _ _ d key He) in Hrefers.
    + rewrite lookup_app_r in Hi by lia.
      rewrite (Hdata e') in Hinterned; [done|by eapply list_elem_of_lookup_2].
  - intros cs h' Hexec j e d key Hj Hrefers.
    destruct (calls_covers _ _ _ Hexec) as (l & Hbuf & Hord & _).
    simpl in Hbuf. rewrite Hbuf in *.
    destruct (Hord j e d key Hj Hrefers) as [Hsent|?]; [|done].
    by destruct d.
Qed.

Lemma exec_addresses_seen {A : Type} (p : Prog A) h a h' :
  exec p h = Some (a, h') -> addresses_seen_ h ⊆ addresses_seen_ h'.
Proof.
  revert h. induction p as [a0| |e k IH|a0 k IH|d0 key0 k IH]; intros h; simpl.
  - by intros [= _ <-].
  - done.
  - intros Hexec. by apply IH in Hexec.
  - unfold addresses_seen_block. case_decide; intros Hexec; apply IH in Hexec.
    + done.
    + etrans; [|exact Hexec]. simpl. apply union_subseteq_r.
  - unfold keys_sent_block. case_decide; intros Hexec; apply IH in Hexec.
    + done.
    + etrans; [|exact Hexec]. by destruct d0.
Qed.

Lemma addresses_seen_interned payload h :
  addresses_seen_ (interned payload h) = addresses_seen_ h.
Proof. unfold interned. case_decide; [done|]. by destruct (domain_of payload). Qed.

(** C7. The first call of [OnAddressInfo] for an address, with both names
    set, adds the address to the set, interns the demangled function name
    and the map name and appends the address-info event.  A call for an
    address that is in the set returns at once and leaves the handler as it
    was, and once a call for an address has returned, every later call for
    it, whatever calls come in between, finds it in the set. *)
Theorem address_info_first_call_only m h :
  (∀ function_name map_name,
     absolute_address m ∉ addresses_seen_ h ->
     function_name_or_key m = kValue function_name ->
     map_name_or_key m = kValue map_name ->
     ∃ h',
       exec (OnAddressInfo m) h = Some (tt, h')
       ∧ h' = emplace_back (address_info_event m function_name map_name)
                (interned (StringPayload map_name)
                   (interned (StringPayload (llvm_demangle function_name))
                      (with_addresses_seen
                         ({[absolute_address m]} ∪ addresses_seen_ h) h)))
       ∧ addresses_seen_ h' = {[absolute_address m]} ∪ addresses_seen_ h
       ∧ last (event_buffer_ h') = Some (address_info_event m function_name map_name))
  ∧ (absolute_address m ∈ addresses_seen_ h ->
     exec (OnAddressInfo m) h = Some (tt, h))
  ∧ (∀ h1 cs h2 m',
       exec (OnAddressInfo m) h = Some (tt, h1) ->
       exec (calls cs) h1 = Some (tt, h2) ->
       absolute_address m' = absolute_address m ->
       exec (OnAddressInfo m') h2 = Some (tt, h2)).
Proof.
  split; [|split].
  - intros function_name map_name Hnew Hfn Hmap. eexists.
    split; [by apply exec_OnAddressInfo_new|]. split; [done|]. split.
    + simpl. by rewrite !addresses_seen_interned.
    + simpl. apply last_snoc.
  - apply exec_OnAddressInfo_seen.
  - intros h1 cs h2 m' Hfirst Hcalls Haddress.
    apply exec_OnAddressInfo_seen. rewrite Haddress.
    apply (exec_addresses_seen _ _ _ _ Hcalls).
    destruct (decide (absolute_address m ∈ addresses_seen_ h)) as [Hseen|Hnew].
    + by apply (exec_addresses_seen _ _ _ _ Hfirst).
    + revert Hfirst. unfold OnAddressInfo. exec_steps.
      unfold addresses_seen_block. rewrite decide_False by done.
      intros Hrest. apply exec_addresses_seen in Hrest.
      apply Hrest. simpl. apply elem_of_union. left. by apply elem_of_singleton.
Qed.

Lemma disciplined_OnAddressInfo m : disciplined (OnAddressInfo m).
Proof. apply (disciplined_call (CallOnAddressInfo m)). Qed.

(** C10. The address-info event of a first-seen address carries, as
    [function_name_key], the string key of the demangled function name
    and, as [map_name_key], the string key of the map name.  Two first-seen
    addresses whose function names demangle to the same string carry the
    same [function_name_key], and the two calls together append the
    interned string of that key once if the key was not marked before, and
    not at all if it was. *)
Theorem address_info_keys :
  (∀ m h function_name map_name,
     absolute_address m ∉ addresses_seen_ h ->
     function_name_or_key m = kValue function_name ->
     map_name_or_key m = kValue map_name ->
     ∃ h',
       exec (OnAddressInfo m) h = Some (tt, h')
       ∧ last (event_buffer_ h')
         = Some (kAddressInfo
                   {| absolute_address := absolute_address m;
                      address_info_fields := address_info_fields m;
                      function_name_or_key :=
                        kKey (ComputeStringKey (llvm_demangle function_name));
                      map_name_or_key := kKey (ComputeStringKey map_name) |}))
  ∧ (∀ m1 m2 h function_name1 function_name2 map_name1 map_name2,
       absolute_address m1 ∉ addresses_seen_ h ->
       absolute_address m2 ∉ addresses_seen_ h ->
       absolute_address m1 ≠ absolute_address m2 ->
       function_name_or_key m1 = kValue function_name1 ->
       function_name_or_key m2 = kValue function_name2 ->
       map_name_or_key m1 = kValue map_name1 ->
       map_name_or_key m2 = kValue map_name2 ->
       llvm_demangle function_name1 = llvm_demangle function_name2 ->
       let key := ComputeStringKey (llvm_demangle function_name1) in
       ∃ h1 h2,
         exec (OnAddressInfo m1) h = Some (tt, h1)
         ∧ exec (OnAddressInfo m2) h1 = Some (tt, h2)
         ∧ (∃ m1', last (event_buffer_ h1) = Some (kAddressInfo m1')
                   ∧ function_name_or_key m1' = kKey key)
         ∧ (∃ m2', last (event_buffer_ h2) = Some (kAddressInfo m2')
                   ∧ function_name_or_key m2' = kKey key)
         ∧ (count_interned StringDomain key (event_buffer_ h2)
            = count_interned StringDomain key (event_buffer_ h)
              + unsent StringDomain key h)%nat).
Proof.
  split.
  - intros m h function_name map_name Hnew Hfn Hmap. eexists.
    split; [by apply exec_OnAddressInfo_new|]. simpl. apply last_snoc.
  - intros m1 m2 h fn1 fn2 mn1 mn2 Hnew1 Hnew2 Hne Hfn1 Hfn2 Hmap1 Hmap2 Hsame key.
    pose proof (exec_OnAddressInfo_new m1 fn1 mn1 h Hnew1 Hfn1 Hmap1) as Hexec1.
    set (h1 := emplace_back _ _) in Hexec1.
    assert (absolute_address m2 ∉ addresses_seen_ h1) as Hnew2'.
    { subst h1. simpl. rewrite !addresses_seen_interned. simpl.
      rewrite elem_of_union, elem_of_singleton. intros [?|?]; congruence. }
    pose proof (exec_OnAddressInfo_new m2 fn2 mn2 h1 Hnew2' Hfn2 Hmap2) as Hexec2.
    set (h2 := emplace_back _ _) in Hexec2.
    exists h1, h2. split; [done|]. split; [done|]. split; [|split].
    + eexists. split; [apply last_snoc|done].
    + eexists. split; [apply last_snoc|]. simpl. by rewrite <- Hsame.
    + pose proof (exec_balance _ _ _ _ StringDomain key
                    (disciplined_OnAddressInfo m1) Hexec1) as Hbal1.
      pose proof (exec_balance _ _ _ _ StringDomain key
                    (disciplined_OnAddressInfo m2) Hexec2) as Hbal2.
      rewrite (pending_call StringDomain key (CallOnAddressInfo m1)) in Hbal1.
      rewrite (pending_call StringDomain key (CallOnAddressInfo m2)) in Hbal2.
      assert (key ∈ keys_sent StringDomain h1) as Hsent1.
      { subst h1. change (keys_sent ?d (emplace_back ?e ?h0)) with (keys_sent d h0).
        eapply covers_keys_sent; [apply covers_interned|].
        apply (interned_marks (StringPayload (llvm_demangle fn1))). }
      assert (key ∈ keys_sent StringDomain h2) as Hsent2.
      { destruct (call_covers (CallOnAddressInfo m2) h1 h2 Hexec2) as [l Hl].
        by eapply covers_keys_sent. }
      unfold unsent in Hbal1, Hbal2 |- *.
      rewrite (decide_True (P := key ∈ keys_sent StringDomain h1)) in Hbal1, Hbal2 by done.
      rewrite (decide_True (P := key ∈ keys_sent StringDomain h2)) in Hbal2 by done.
      lia.
Qed.



End Callbacks.

(** ** The wait of the sender thread *)

Section Wait.
Context {protos : Protos} {library : Library}.

Lemma wait_condition_iff h :
  wait_condition h = true
  ↔ (kSendEventCountInterval ≤ length (event_buffer_ h))%nat ∨ tracer_ h = None.
Proof.
  unfold wait_condition. rewrite orb_true_iff, !bool_decide_eq_true. done.
Qed.

Lemma event_buffer_others ops h :
  event_buffer_ (fold_left other ops h) = event_buffer_ h ++ emplaced ops.
Proof.
  revert h. induction ops as [|o ops IH]; intros h; simpl.
  - by rewrite app_nil_r.
  - rewrite IH. destruct o as [e|]; simpl; [|done].
    unfold emplaced. simpl. by rewrite <- app_assoc.
Qed.

Lemma elem_of_concat_map {A B : Type} (f : A -> list B) (l : list A) a x :
  a ∈ l -> x ∈ f a -> x ∈ concat (map f l).
Proof.
  intros Ha Hx. induction l as [|a' l IH]; simpl.
  - by apply elem_of_nil in Ha.
  - apply elem_of_app. apply elem_of_cons in Ha as [->|Ha]; [by left|right; auto].
Qed.

Lemma event_buffer_handler_after timeline now d h :
  event_buffer_ (handler_after timeline now d h)
  = event_buffer_ h ++ concat (map (fun t => emplaced (timeline t)) (seq now d)).
Proof.
  revert now h. induction d as [|d IH]; intros now h; simpl.
  - by rewrite app_nil_r.
  - by rewrite IH, event_buffer_others, <- app_assoc.
Qed.

(** The wait returns within the timeout, at the first millisecond at which
    the condition holds if there is one before the timeout. *)
Lemma LockWhenWithTimeout_spec cond timeout timeline now h woke h' :
  LockWhenWithTimeout cond timeout timeline now h = (woke, h') ->
  (now ≤ woke ≤ now + timeout)%nat
  ∧ h' = handler_after timeline now (woke - now) h
  ∧ ((woke < now + timeout)%nat -> cond h' = true)
  ∧ (∀ d, (now + d < woke)%nat -> cond (handler_after timeline now d h) = false).
Proof.
  revert now h. induction timeout as [|timeout IH]; intros now h; simpl.
  - destruct (cond h) eqn:Hcond; intros [= <- <-];
      rewrite Nat.sub_diag; simpl;
      (split; [lia|]; split; [done|]; split; intros; lia).
  - destruct (cond h) eqn:Hcond.
    + intros [= <- <-]. rewrite Nat.sub_diag. simpl.
      split; [lia|]. split; [done|]. split; [done|]. intros; lia.
    + intros Hwait. apply IH in Hwait as (Hrange & -> & Hearly & Hfirst).
      replace (woke - now)%nat with (S (woke - S now)) by lia. simpl.
      split; [lia|]. split; [done|]. split.
      * intros Hlt. apply Hearly. lia.
      * intros [|d] Hd; simpl; [done|]. apply Hfirst. lia.
Qed.

(** C8. The sender thread waits for "at least 5000 events in the buffer,
    or [tracer_] null", for 20 ms at most.  The wait of an iteration begun
    at [now] returns by [now + 20], and at the first millisecond at which
    the condition holds if this is earlier: a buffer that reaches 5000
    events before the timeout ends the wait before the timeout.  The
    iteration then hands the whole buffer, possibly empty, to
    [ProcessEvents] as one batch and leaves the buffer empty; an event
    appended during the wait is in that batch, which is taken at most
    20 ms after the append. *)
Theorem sender_wait_dual_trigger timeline now h w woke stopped h' w' :
  SenderThread_iteration timeline now h w = Some (woke, stopped, h', w') ->
  let at_wake := handler_after timeline now (woke - now) h in
  ∃ drained,
  drained_events at_wake (orbit_test_file w) = Some drained ∧
  let batch := event_buffer_ at_wake ++ drained in
  (∀ h0, wait_condition h0 = true
         ↔ (5000 ≤ length (event_buffer_ h0))%nat ∨ tracer_ h0 = None)
  ∧ kSendTimeInterval = 20%nat
  ∧ (now ≤ woke ≤ now + 20)%nat
  ∧ (∀ d, wait_condition (handler_after timeline now d h) = true ->
          (woke ≤ now + d)%nat)
  ∧ (∀ d, (d < 20)%nat ->
          (5000 ≤ length (event_buffer_ (handler_after timeline now d h)))%nat ->
          (woke < now + 20)%nat)
  ∧ ((woke < now + 20)%nat -> wait_condition at_wake = true)
  ∧ ProcessEvents_calls w' = ProcessEvents_calls w ++ [batch]
  ∧ event_buffer_ h' = []
  ∧ (∀ t e, (now ≤ t < woke)%nat -> e ∈ emplaced (timeline t) ->
            e ∈ batch ∧ (woke ≤ t + 20)%nat).
Proof.
  unfold SenderThread_iteration.
  destruct (LockWhenWithTimeout _ _ _ _ _) as [woke0 h1] eqn:Hwait.
  rewrite SenderThread_locked_eq.
  destruct (drained_events h1 (orbit_test_file w)) as [drained|] eqn:Hdrained;
    [|done].
  intros [= <- <- <- <-].
  apply LockWhenWithTimeout_spec in Hwait as (Hrange & -> & Hearly & Hfirst).
  exists drained. split; [done|].
  change kSendTimeInterval with 20%nat in *.
  assert (∀ d, wait_condition (handler_after timeline now d h) = true ->
               (woke0 ≤ now + d)%nat) as Hsoon.
  { intros d Hcond. destruct (decide (woke0 ≤ now + d)%nat) as [|Hlate]; [done|].
    rewrite Hfirst in Hcond by lia. done. }
  simpl. split; [intros h0; apply wait_condition_iff|].
  split; [done|]. split; [lia|]. split; [done|]. split.
  { intros d Hd Hfull. specialize (Hsoon d). rewrite wait_condition_iff in Hsoon.
    specialize (Hsoon (or_introl Hfull)). lia. }
  split; [done|]. split; [done|]. split; [done|].
  intros t e Ht He. split; [|lia].
  apply elem_of_app. left. rewrite event_buffer_handler_after.
  apply elem_of_app. right.
  apply (elem_of_concat_map (fun t => emplaced (timeline t)) _ t); [|done].
  apply elem_of_seq. lia.
Qed.

End Wait.

(** ** More on executions: what the tables and the stream keep *)

Section MoreExecutions.
Context {protos : Protos} {library : Library}.

Lemma block_step_grows {A : Type} (p : Prog A) h appended p' h' :
  block_step p h = Some (appended, p', h') ->
  (∀ d, keys_sent d h ⊆ keys_sent d h')
  ∧ addresses_seen_ h ⊆ addresses_seen_ h'.
Proof.
  destruct p as [a| |e k|a k|d0 key k]; simpl; try done.
  - by intros [= <- <- <-].
  - unfold addresses_seen_block. case_decide; intros [= <- <- <-]; [done|].
    split; [by intros []|]. simpl. apply union_subseteq_r.
  - unfold keys_sent_block. case_decide; intros [= <- <- <-]; [done|].
    split; [|done]. intros d. rewrite keys_sent_with_keys_sent.
    case_decide as Hd; [|done]. subst d. apply union_subseteq_r.
Qed.

Lemma step_grows sys appended sys' :
  step sys appended sys' ->
  (∀ d, keys_sent d (handler sys) ⊆ keys_sent d (handler sys'))
  ∧ addresses_seen_ (handler sys) ⊆ addresses_seen_ (handler sys')
  ∧ (tracer_ (handler sys) = None -> tracer_ (handler sys') = None).
Proof.
  intros Hstep.
  destruct Hstep as [sys i p a p' h' Hp Hblock|sys capture_options Htracer
                    |sys stopped batch h' file' drained Hwait Hlocked Hdrained|sys stopped batch Hfwd];
    simpl.
  - destruct (block_step_grows _ _ _ _ _ Hblock) as [Hkeys Hseen].
    split; [done|]. split; [done|]. by rewrite (block_step_tracer _ _ _ _ _ Hblock).
  - split; [by intros []|]. done.
  - rewrite SenderThread_locked_eq, Hdrained in Hlocked. injection Hlocked as _ _ <- _.
    split; [by intros []|]. done.
  - done.
Qed.

(** X1. The three key tables and the address set are append-only, and a
    tracer that is gone stays gone: along every execution, from any state,
    each table contains what it contained before, and [tracer_], once
    null, is null. *)
Theorem tables_only_grow sys t sys' :
  execution sys t sys' ->
  (∀ d, keys_sent d (handler sys) ⊆ keys_sent d (handler sys'))
  ∧ addresses_seen_ (handler sys) ⊆ addresses_seen_ (handler sys')
  ∧ (tracer_ (handler sys) = None -> tracer_ (handler sys') = None).
Proof.
  induction 1 as [sys|sys t sys' a sys'' _ IH Hstep]; [done|].
  destruct IH as (Hkeys & Hseen & Htracer).
  destruct (step_grows _ _ _ Hstep) as (Hkeys' & Hseen' & Htracer').
  split; [|split].
  - intros d. etrans; [apply Hkeys|apply Hkeys'].
  - etrans; [apply Hseen|apply Hseen'].
  - auto.
Qed.

Lemma pending_total_finished d key (ps : list (Prog unit)) :
  Forall (fun p => p = Return tt) ps -> pending_total d key ps = 0%nat.
Proof.
  unfold pending_total. induction 1 as [|p ps -> _ IH]; simpl; [done|]. exact IH.
Qed.

(** X2. When every producer thread has returned from its calls, the stream
    of appended events holds exactly one interned-payload event for every
    key that is marked in a table, and none for any other key. *)
Theorem marked_keys_sent_exactly_once capture_options file threads t sys d key :
  execution (started capture_options file threads) t sys ->
  Forall (fun p => p = Return tt) (producers sys) ->
  count_interned d key t
  = if decide (key ∈ keys_sent d (handler sys)) then 1%nat else 0%nat.
Proof.
  intros Hexec Hdone.
  destruct (dedup_invariant_execution _ _ _ _ _ Hexec) as [_ Hbal].
  specialize (Hbal d key). rewrite pending_total_finished in Hbal by done.
  unfold unsent in Hbal. case_decide; lia.
Qed.

Lemma read_messages_submissions input appended e :
  read_messages input [] = Some appended ->
  e ∈ appended -> is_queue_submission e = true.
Proof.
  remember (length input) as n eqn:Hn. revert input Hn appended.
  induction n as [n IH] using lt_wf_ind. intros input -> appended.
  rewrite read_messages_step.
  destruct (ReadMessage input) as [[queue_submission input']| |] eqn:Hread;
    [|by intros [= <-] ?%elem_of_nil|done].
  apply ReadMessage_shorter in Hread.
  rewrite read_messages_app.
  destruct (read_messages input' []) as [later|] eqn:Hlater; simpl; [|done].
  intros [= <-] [->|He]%elem_of_cons; [done|].
  exact (IH _ Hread input' eq_refl later Hlater He).
Qed.

Lemma drained_events_submissions h file drained e :
  drained_events h file = Some drained ->
  e ∈ drained -> is_queue_submission e = true.
Proof.
  unfold drained_events.
  destruct (tracer_ h), file; try (by intros [= <-] ?%elem_of_nil).
  apply read_messages_submissions.
Qed.

Lemma references_marked_mono {A : Type} (p : Prog A) (K K' : Domain -> uint64 -> Prop) :
  (∀ d key, K d key -> K' d key) ->
  references_marked K p -> references_marked K' p.
Proof.
  revert K K'. induction p as [a| |e k IH|a k IH|d0 key0 k IH]; intros K K' Hsub; simpl.
  - done.
  - done.
  - intros [He Hk]. split; [by auto|by eapply IH].
  - intros Hk b. by eapply IH.
  - intros Hk b. eapply IH; [|apply Hk]. simpl. intros d key [?|?]; auto.
Qed.

(** The leaves of the programs of the callbacks. *)
Ltac references_marked_leaves Hf :=
  repeat match goal with
    | |- _ ∧ _ => split
    | |- ∀ b : bool, _ => intros [|]; cbn
    | |- references_marked _ _ => apply Hf
    | |- ∀ (d : Domain) (key : Z), refers_to d key _ = true -> _ =>
        let Hr := fresh "Hr" in
        intros [] ? Hr; simpl in Hr; try discriminate Hr;
        try (apply orb_true_iff in Hr as [Hr|Hr]);
        apply bool_decide_eq_true in Hr; subst; auto 10
    end.

Lemma references_marked_call_then c (f : unit -> Prog unit) K :
  (∀ K' u, references_marked K' (f u)) ->
  references_marked K (call c ≫= f).
Proof.
  intros Hf. destruct c as [m|m|m|m|m|m|m|m|m|payload]; simpl call.
  - cbn. references_marked_leaves Hf.
  - unfold OnCallstackSample. destruct (callstack_or_key m); [exact I| |exact I].
    cbn. references_marked_leaves Hf.
  - cbn. references_marked_leaves Hf.
  - cbn. references_marked_leaves Hf.
  - unfold OnGpuJob. destruct (timeline_or_key m); [exact I| |exact I].
    cbn. references_marked_leaves Hf.
  - cbn. references_marked_leaves Hf.
  - cbn. references_marked_leaves Hf.
  - unfold OnAddressInfo. cbn. intros [|]; cbn; [apply Hf|].
    destruct (function_name_or_key m) as [|function_name|]; [exact I| |exact I].
    cbn. intros [|]; cbn.
    + destruct (map_name_or_key m) as [|map_name|]; [exact I| |exact I].
      cbn. references_marked_leaves Hf.
    + split; [by intros [] ?|].
      destruct (map_name_or_key m) as [|map_name|]; [exact I| |exact I].
      cbn. references_marked_leaves Hf.
  - unfold OnTracepointEvent. destruct (tracepoint_info_or_key m); [exact I| |exact I].
    cbn. references_marked_leaves Hf.
  - destruct payload; cbn; references_marked_leaves Hf.
Qed.

Lemma references_marked_calls cs K : references_marked K (calls cs).
Proof.
  revert K. induction cs as [|c cs IH]; intros K; [exact I|].
  simpl calls. apply references_marked_call_then. auto.
Qed.

Lemma block_step_references {A : Type} (p : Prog A) h appended p' h' :
  references_marked (marked h) p ->
  block_step p h = Some (appended, p', h') ->
  references_marked (marked h') p'
  ∧ ∀ e d key, e ∈ appended -> refers_to d key e = true -> marked h' d key.
Proof.
  destruct p as [a| |e k|a k|d0 key0 k]; simpl; try done.
  - intros [He Hk] [= <- <- <-]. split; [done|].
    intros e' d key ->%list_elem_of_singleton Hrefers. by apply He.
  - intros Hk. unfold addresses_seen_block.
    case_decide; intros [= <- <- <-]; (split; [|by intros e d key ?%elem_of_nil]).
    + apply Hk.
    + eapply references_marked_mono; [|apply Hk]. by intros [].
  - intros Hk. unfold keys_sent_block.
    case_decide as Hsent; intros [= <- <- <-]; (split; [|by intros e d key ?%elem_of_nil]).
    + eapply references_marked_mono; [|apply Hk]. simpl.
      intros d key [?|[-> ->]]; done.
    + eapply references_marked_mono; [|apply Hk]. simpl. unfold marked.
      intros d key Hkey. rewrite keys_sent_with_keys_sent.
      destruct Hkey as [Hkey|[-> ->]].
      * case_decide as Hd; [|done]. subst d. apply elem_of_union. by right.
      * rewrite decide_True by done. apply elem_of_union. left.
        by apply elem_of_singleton.
Qed.

Lemma references_invariant_step t sys appended sys' :
  (∀ e d key, e ∈ t -> refers_to d key e = true -> marked (handler sys) d key) ->
  Forall (references_marked (marked (handler sys))) (producers sys) ->
  step sys appended sys' ->
  (∀ e d key, e ∈ t ++ appended -> refers_to d key e = true ->
              marked (handler sys') d key)
  ∧ Forall (references_marked (marked (handler sys'))) (producers sys').
Proof.
  intros Ht Hps Hstep.
  destruct (step_grows _ _ _ Hstep) as (Hgrow & _ & _).
  assert (∀ d key, marked (handler sys) d key -> marked (handler sys') d key) as Hmono.
  { intros d key. apply Hgrow. }
  assert (Forall (references_marked (marked (handler sys'))) (producers sys)) as Hps'.
  { eapply Forall_impl; [exact Hps|]. intros p. by apply references_marked_mono. }
  destruct Hstep as [sys i p a p' h' Hp Hblock|sys capture_options Htracer
                    |sys stopped batch h' file' drained Hwait Hlocked Hdrained|sys stopped batch Hfwd];
    simpl in *.
  - destruct (block_step_references p (handler sys) a p' h') as [Hp' Ha];
      [by eapply Forall_lookup_1|done|].
    split.
    + intros e d key [He|He]%elem_of_app Hrefers; [by eapply Hmono, Ht|by eapply Ha].
    + by apply Forall_insert.
  - split; [|done]. intros e d key He. rewrite app_nil_r in He. by apply Ht.
  - split; [|done]. intros e d key [He|He]%elem_of_app Hrefers; [by eapply Hmono, Ht|].
    apply (drained_events_submissions _ _ _ _ Hdrained) in He. by destruct e, d.
  - split; [|done]. intros e d key He. rewrite app_nil_r in He. by apply Ht.
Qed.

Lemma references_invariant_execution capture_options file threads t sys :
  execution (started capture_options file threads) t sys ->
  (∀ e d key, e ∈ t -> refers_to d key e = true -> marked (handler sys) d key)
  ∧ Forall (references_marked (marked (handler sys))) (producers sys).
Proof.
  remember (started capture_options file threads) as sys0 eqn:Hsys0.
  induction 1 as [sys|sys t sys' a sys'' _ IH Hstep].
  - subst. split; [by intros e d key ?%elem_of_nil|].
    apply Forall_forall. intros p [cs [-> _]]%list_elem_of_fmap.
    apply references_marked_calls.
  - destruct (IH Hsys0) as [Ht Hps]. by eapply references_invariant_step.
Qed.

Lemma count_interned_pos d key l :
  (0 < count_interned d key l)%nat -> ∃ e, e ∈ l ∧ interned_as d key e = true.
Proof.
  unfold count_interned.
  destruct (filter _ l) as [|e l'] eqn:Hfilter; simpl; [lia|]. intros _.
  assert (e ∈ filter (fun e => interned_as d key e = true) l) as He
      by (rewrite Hfilter; apply elem_of_cons; by left).
  apply list_elem_of_filter in He as [? ?]. by exists e.
Qed.

(** X3. In every execution, whatever the interleaving, a data-bearing event
    is appended only with keys that are marked in the table of their
    domain.  When every producer thread has returned from its calls, the
    stream holds the interned-payload event of each key that a
    data-bearing event carries. *)
Theorem references_are_marked capture_options file threads t sys :
  execution (started capture_options file threads) t sys ->
  (∀ e d key, e ∈ t -> refers_to d key e = true ->
              key ∈ keys_sent d (handler sys))
  ∧ (Forall (fun p => p = Return tt) (producers sys) ->
     ∀ e d key, e ∈ t -> refers_to d key e = true ->
                ∃ e', e' ∈ t ∧ interned_as d key e' = true).
Proof.
  intros Hexec. destruct (references_invariant_execution _ _ _ _ _ Hexec) as [Ht _].
  split; [exact Ht|]. intros Hdone e d key He Hrefers.
  apply count_interned_pos.
  destruct (dedup_invariant_execution _ _ _ _ _ Hexec) as [_ Hbal].
  specialize (Hbal d key). rewrite pending_total_finished in Hbal by done.
  unfold unsent in Hbal. rewrite decide_True in Hbal by (by eapply Ht). lia.
Qed.

Lemma keys_sent_block_new d key h :
  key ∉ keys_sent d h ->
  keys_sent_block d key h = (false, with_keys_sent d ({[key]} ∪ keys_sent d h) h).
Proof. intros Hnew. unfold keys_sent_block. by rewrite decide_False. Qed.

Lemma keys_sent_block_old d key h :
  key ∈ keys_sent d h -> keys_sent_block d key h = (true, h).
Proof. intros Hold. unfold keys_sent_block. by rewrite decide_True. Qed.

(** X4. With two threads the interned-payload event of a key can come
    after a data-bearing event that carries the key, and in a later batch:
    for any two GPU jobs with the same timeline there is an execution in
    which the consumer gets the second job, with its key, in one batch and
    the interned timeline only in the next.  The first thread marks the
    key, the second finds it marked and appends its job, the sender thread
    flushes, and only then the first thread appends the interned string. *)
Theorem reference_can_overtake_intern_record capture_options file
    (m1 m2 : GpuJob) timeline :
  timeline_or_key m1 = kValue timeline ->
  timeline_or_key m2 = kValue timeline ->
  ∃ t sys,
    execution (started capture_options file [[CallOnGpuJob m1]; [CallOnGpuJob m2]])
      t sys
    ∧ t = [kGpuJob (set_timeline_key (ComputeStringKey timeline) m2);
           kInternedString (ComputeStringKey timeline) timeline;
           kGpuJob (set_timeline_key (ComputeStringKey timeline) m1)]
    ∧ ProcessEvents_calls (world sys)
      = [[kGpuJob (set_timeline_key (ComputeStringKey timeline) m2)];
         [kInternedString (ComputeStringKey timeline) timeline;
          kGpuJob (set_timeline_key (ComputeStringKey timeline) m1)]].
Proof.
  intros Hm1 Hm2.
  assert (∃ t sys,
            run_schedule
              [RunProducer 0; RunProducer 1; RunProducer 1; RunSender; RunSender;
               RunProducer 0; RunProducer 0; RunSender; RunSender]
              (started capture_options file [[CallOnGpuJob m1]; [CallOnGpuJob m2]])
            = Some (t, sys)
            ∧ t = [kGpuJob (set_timeline_key (ComputeStringKey timeline) m2);
                   kInternedString (ComputeStringKey timeline) timeline;
                   kGpuJob (set_timeline_key (ComputeStringKey timeline) m1)]
            ∧ ProcessEvents_calls (world sys)
              = [[kGpuJob (set_timeline_key (ComputeStringKey timeline) m2)];
                 [kInternedString (ComputeStringKey timeline) timeline;
                  kGpuJob (set_timeline_key (ComputeStringKey timeline) m1)]])
    as (t & sys & Hrun & Ht & Hcalls).
  { unfold started. simpl map. simpl calls. simpl call. unfold OnGpuJob.
    rewrite Hm1, Hm2. cbn -[keys_sent_block].
    rewrite keys_sent_block_new by apply not_elem_of_empty. cbn -[keys_sent_block].
    rewrite keys_sent_block_old
      by (rewrite keys_sent_with_keys_sent, decide_True by done;
          apply elem_of_union; left; by apply elem_of_singleton).
    cbn -[keys_sent_block]. eexists _, _. split; [reflexivity|]. by split. }
  exists t, sys. split; [|by split]. by eapply run_schedule_execution.
Qed.

Lemma sum_list_with_insert {A : Type} (f : A -> nat) (l : list A) i x y :
  l !! i = Some x ->
  (sum_list_with f (<[i := y]> l) + f x = sum_list_with f l + f y)%nat.
Proof.
  revert i. induction l as [|z l IH]; intros [|i] Hi; simpl in *; try done.
  - injection Hi as ->. lia.
  - specialize (IH i Hi). lia.
Qed.

Lemma count_address_info_app a l1 l2 :
  count_address_info a (l1 ++ l2)
  = (count_address_info a l1 + count_address_info a l2)%nat.
Proof. unfold count_address_info. by rewrite filter_app, length_app. Qed.

Lemma count_address_info_singleton a e :
  count_address_info a [e] = if address_info_for a e then 1%nat else 0%nat.
Proof.
  unfold count_address_info. rewrite filter_cons, filter_nil.
  destruct (address_info_for a e); case_decide; done.
Qed.

Lemma count_address_info_submissions a l :
  (∀ e, e ∈ l -> is_queue_submission e = true) -> count_address_info a l = 0%nat.
Proof.
  induction l as [|e l IH]; intros Hl; [done|].
  change (e :: l) with ([e] ++ l).
  rewrite count_address_info_app, count_address_info_singleton, IH.
  - specialize (Hl e ltac:(apply elem_of_cons; by left)). by destruct e.
  - intros e' He'. apply Hl. apply elem_of_cons. by right.
Qed.

Lemma may_append_bind {A B : Type} a (p : Prog A) (f : A -> Prog B) :
  (∀ x, may_append a (f x) = 0%nat) ->
  may_append a (p ≫= f) = may_append a p.
Proof.
  intros Hf. change (p ≫= f) with (bind p f).
  induction p as [x| |e k IH|a' k IH|d key k IH]; simpl; auto.
Qed.

Lemma gated_bind {A B : Type} (p : Prog A) (f : A -> Prog B) :
  gated p -> (∀ x, gated (f x)) -> (∀ x a, may_append a (f x) = 0%nat) ->
  gated (p ≫= f).
Proof.
  intros Hp Hf Hf0. change (p ≫= f) with (bind p f).
  induction p as [x| |e k IH|a' k IH|d key k IH]; simpl in *; auto.
  destruct Hp as (Ht & Hfalse & Ht0 & Hf1). split; [auto|]. split; [auto|]. split.
  - intros a. change (bind (k true) f) with (k true ≫= f).
    rewrite may_append_bind; auto.
  - intros a. change (bind (k false) f) with (k false ≫= f).
    rewrite may_append_bind; auto.
Qed.

Lemma may_append_InternIfNecessary a payload :
  may_append a (InternIfNecessary payload) = 0%nat.
Proof. by destruct payload. Qed.

Lemma gated_InternIfNecessary payload : gated (InternIfNecessary payload).
Proof. destruct payload; by intros [|]. Qed.

Lemma may_append_call a c : may_append a (call c) = 0%nat.
Proof.
  destruct c as [m|m|m|m|m|m|m|m|m|payload]; try reflexivity.
  - unfold call, OnCallstackSample. by destruct (callstack_or_key m).
  - unfold call, OnGpuJob. by destruct (timeline_or_key m).
  - unfold call, OnTracepointEvent. by destruct (tracepoint_info_or_key m).
  - simpl call. rewrite may_append_bind by done. apply may_append_InternIfNecessary.
Qed.

Lemma gated_call c : gated (call c).
Proof.
  destruct c as [m|m|m|m|m|m|m|m|m|payload]; try exact I.
  - unfold call, OnCallstackSample. destruct (callstack_or_key m); try exact I.
    by intros [|].
  - unfold call, OnGpuJob. destruct (timeline_or_key m); try exact I.
    by intros [|].
  - unfold call, OnAddressInfo. cbn. split; [exact I|].
    split; [|split; [done|]].
    + destruct (function_name_or_key m); try exact I. cbn. intros [|]; cbn;
        destruct (map_name_or_key m); try exact I; cbn; by intros [|].
    + intros a.
      destruct (function_name_or_key m); cbn; try lia.
      destruct (map_name_or_key m); cbn; try lia.
      case_bool_decide; case_decide; simpl; lia.
  - unfold call, OnTracepointEvent. destruct (tracepoint_info_or_key m); try exact I.
    by intros [|].
  - simpl call. apply gated_bind; [apply gated_InternIfNecessary|done|done].
Qed.

Lemma may_append_calls a cs : may_append a (calls cs) = 0%nat.
Proof.
  induction cs as [|c cs IH]; [done|]. simpl calls.
  rewrite may_append_bind; auto using may_append_call.
Qed.

Lemma gated_calls cs : gated (calls cs).
Proof.
  induction cs as [|c cs IH]; [exact I|]. simpl calls.
  apply gated_bind; auto using gated_call, may_append_calls.
Qed.

Lemma may_append_total_calls a threads :
  may_append_total a (map calls threads) = 0%nat.
Proof.
  unfold may_append_total. induction threads as [|cs threads IH]; simpl; [done|].
  by rewrite may_append_calls, IH.
Qed.

Lemma block_step_gated {A : Type} (p : Prog A) h appended p' h' a :
  gated p ->
  block_step p h = Some (appended, p', h') ->
  gated p'
  ∧ (count_address_info a appended + may_append a p' + seen a h
     ≤ may_append a p + seen a h')%nat.
Proof.
  destruct p as [x| |e k|a' k|d key k]; simpl; try done.
  - intros Hk [= <- <- <-]. split; [done|].
    rewrite count_address_info_singleton. unfold seen. simpl. lia.
  - intros (Ht & Hf & Ht0 & Hf1). unfold addresses_seen_block.
    case_decide as Hseen; intros [= <- <- <-].
    + split; [done|]. rewrite Ht0. simpl. lia.
    + split; [done|]. specialize (Hf1 a). unfold seen. simpl.
      destruct (decide (a = a')) as [->|Hne].
      * rewrite (decide_False (P := a' ∈ addresses_seen_ h)) by done.
        rewrite decide_True by (apply elem_of_union; left; by apply elem_of_singleton).
        simpl. lia.
      * destruct (decide (a ∈ addresses_seen_ h)).
        -- rewrite decide_True by (apply elem_of_union; by right). simpl. lia.
        -- rewrite decide_False
             by (rewrite elem_of_union, elem_of_singleton; intros [?|?]; done).
           simpl. lia.
  - intros Hk. unfold keys_sent_block.
    case_decide; intros [= <- <- <-]; (split; [apply Hk|]); simpl.
    + lia.
    + assert (seen a (with_keys_sent d ({[key]} ∪ keys_sent d h) h) = seen a h)
        as -> by (by destruct d).
      lia.
Qed.

Lemma seen_grows sys appended sys' a :
  step sys appended sys' -> (seen a (handler sys) ≤ seen a (handler sys'))%nat.
Proof.
  intros Hstep. destruct (step_grows _ _ _ Hstep) as (_ & Hseen & _).
  unfold seen. destruct (decide (a ∈ addresses_seen_ (handler sys))) as [Hin|].
  - rewrite decide_True by (by apply Hseen). lia.
  - case_decide; lia.
Qed.

(** The invariant of the address gate, from a state in which [before]
    addresses are in the set already. *)
Lemma gate_invariant_step (before : uint64 -> nat) t sys appended sys' :
  Forall gated (producers sys) ->
  (∀ a, count_address_info a t + may_append_total a (producers sys) + before a
        ≤ seen a (handler sys))%nat ->
  step sys appended sys' ->
  Forall gated (producers sys')
  ∧ (∀ a, count_address_info a (t ++ appended)
          + may_append_total a (producers sys') + before a
          ≤ seen a (handler sys'))%nat.
Proof.
  intros Hgated Hinv Hstep.
  assert (∀ a, seen a (handler sys) ≤ seen a (handler sys'))%nat as Hmono
      by (intros a; by eapply seen_grows).
  destruct Hstep as [sys i p ap p' h' Hp Hblock|sys capture_options Htracer
                    |sys stopped batch h' file' drained Hwait Hlocked Hdrained|sys stopped batch Hfwd];
    simpl in *.
  - assert (gated p) as Hpg by (by eapply Forall_lookup_1).
    split.
    + apply Forall_insert; [done|].
      by apply (block_step_gated p (handler sys) ap p' h' 0).
    + intros a. specialize (Hinv a).
      destruct (block_step_gated p (handler sys) ap p' h' a Hpg Hblock) as [_ Hle].
      pose proof (sum_list_with_insert (may_append a) (producers sys) i p p' Hp).
      unfold may_append_total in *. rewrite count_address_info_app. lia.
  - split; [done|]. intros a. rewrite app_nil_r. apply Hinv.
  - split; [done|]. intros a. rewrite count_address_info_app.
    rewrite (count_address_info_submissions a drained)
      by (intros e; apply (drained_events_submissions _ _ _ _ Hdrained)).
    specialize (Hinv a). specialize (Hmono a). lia.
  - split; [done|]. intros a. rewrite app_nil_r. apply Hinv.
Qed.

Lemma gate_invariant_execution sys0 t sys :
  execution sys0 t sys ->
  Forall gated (producers sys0) ->
  (∀ a, may_append_total a (producers sys0) = 0%nat) ->
  Forall gated (producers sys)
  ∧ (∀ a, count_address_info a t + may_append_total a (producers sys)
          + seen a (handler sys0)
          ≤ seen a (handler sys))%nat.
Proof.
  intros Hexec Hgated Hzero.
  induction Hexec as [sys|sys0 t sys' a sys'' _ IH Hstep].
  - split; [done|]. intros a. rewrite Hzero. simpl.
    change (count_address_info a []) with 0%nat. lia.
  - destruct (IH Hgated Hzero) as [Hg Hinv].
    by apply (gate_invariant_step (fun a => seen a (handler sys0)) t sys').
Qed.

(** X5. In every execution, whatever the interleaving of the threads, at
    most one address-info event is appended for each address. *)
Theorem address_info_at_most_once capture_options file threads t sys a :
  execution (started capture_options file threads) t sys ->
  (count_address_info a t ≤ 1)%nat.
Proof.
  intros Hexec.
  destruct (gate_invariant_execution _ _ _ Hexec) as [_ Hinv].
  - simpl. apply Forall_forall. intros p [cs [-> _]]%list_elem_of_fmap.
    apply gated_calls.
  - intros a'. apply may_append_total_calls.
  - specialize (Hinv a). unfold seen in Hinv at 2. case_decide; lia.
Qed.

End MoreExecutions.

(** ** The drain, the checks and the sessions of the handler *)

(** The leaves of the programs of the callbacks. *)
Ltac announced_leaves Hf :=
  repeat match goal with
    | |- _ ∧ _ => split
    | |- ∀ b : bool, _ => intros [|]; cbn
    | |- announced _ _ => apply Hf
    | |- ∀ (d : Domain) (key : Z), refers_to d key _ = true -> _ =>
        let Hr := fresh "Hr" in
        intros [] ? Hr; simpl in Hr; try discriminate Hr;
        try (apply orb_true_iff in Hr as [Hr|Hr]);
        apply bool_decide_eq_true in Hr; subst; simpl;
        auto 10 using bool_decide_eq_true_2
    end.

Section Lifecycle.
Context {protos : Protos} {library : Library}.

Lemma appends_only_bind {A B : Type} (P : CaptureEvent -> Prop) (p : Prog A)
    (f : A -> Prog B) :
  appends_only P p -> (∀ x, appends_only P (f x)) -> appends_only P (p ≫= f).
Proof.
  intros Hp Hf. change (p ≫= f) with (bind p f).
  induction p as [x| |e k IH|a' k IH|d key k IH]; simpl in *; auto.
  destruct Hp. split; auto.
Qed.




Lemma block_step_appends {A : Type} (P : CaptureEvent -> Prop) (p : Prog A)
    h appended p' h' :
  appends_only P p ->
  block_step p h = Some (appended, p', h') ->
  appends_only P p' ∧ Forall P appended.
Proof.
  destruct p as [x| |e k|a' k|d key k]; simpl; try done.
  - intros [He Hk] [= <- <- <-]. split; [done|]. by apply Forall_singleton.
  - intros Hk. unfold addresses_seen_block. case_decide; intros [= <- <- <-]; by split.
  - intros Hk. unfold keys_sent_block. case_decide; intros [= <- <- <-]; by split.
Qed.












(** *** [Stop] *)

Lemma join_execution fuel sys t sys' :
  join fuel sys = Done (t, sys') ->
  execution sys t sys' ∧ sender_thread_ sys' = Finished.
Proof.
  revert sys t sys'. induction fuel as [|fuel IH]; intros sys t sys'; cbn [join].
  - destruct (sender_thread_ sys) eqn:Hsender; try done.
    intros [= <- <-]. split; [apply execution_refl|done].
  - destruct (sender_thread_ sys) eqn:Hsender.
    + destruct (schedule_step RunSender sys) as [[a sys1]|] eqn:Hstep; [|done].
      destruct (join fuel sys1) as [[t1 sys2]| | |] eqn:Hjoin; try done.
      intros [= <- <-]. destruct (IH _ _ _ Hjoin) as [Hexec Hfin].
      split; [|done]. eapply execution_cons; [by apply (schedule_step_step RunSender)|done].
    + destruct (schedule_step RunSender sys) as [[a sys1]|] eqn:Hstep; [|done].
      destruct (join fuel sys1) as [[t1 sys2]| | |] eqn:Hjoin; try done.
      intros [= <- <-]. destruct (IH _ _ _ Hjoin) as [Hexec Hfin].
      split; [|done]. eapply execution_cons; [by apply (schedule_step_step RunSender)|done].
    + intros [= <- <-]. split; [apply execution_refl|done].
Qed.




Lemma execution_tracer_null sys t sys' :
  execution sys t sys' -> tracer_ (handler sys) = None ->
  tracer_ (handler sys') = None.
Proof.
  induction 1 as [sys|sys t sys' a sys'' _ IH Hstep]; [done|].
  intros Hnull. by apply (step_grows _ _ _ Hstep), IH.
Qed.

(** X9. [Start] and [Stop] alternate.  When [Stop] has returned, a second
    [Stop] fails its [CHECK], and so does a [Start] in the state before the
    [Stop]; a [Start] after the [Stop] succeeds, and the new session begins
    with the tables, the buffer and the file as the old one left them:
    neither [Stop] nor [Start] clears the key tables or the address set. *)
Theorem Start_after_Stop fuel s t s' capture_options threads :
  Stop fuel s = Done (t, s') ->
  Stop fuel s' = Aborted
  ∧ Start capture_options threads s = None
  ∧ ∃ s'',
      Start capture_options threads s' = Some s''
      ∧ tracer_ (handler (running s'')) = Some capture_options
      ∧ sender_thread_ (running s'') = Waiting
      ∧ producers (running s'') = map calls threads
      ∧ world (running s'') = world (running s')
      ∧ event_buffer_ (handler (running s'')) = event_buffer_ (handler (running s'))
      ∧ addresses_seen_ (handler (running s''))
        = addresses_seen_ (handler (running s'))
      ∧ (∀ d, keys_sent d (handler (running s''))
              = keys_sent d (handler (running s')))
      ∧ (∀ d, keys_sent d (handler (running s))
              ⊆ keys_sent d (handler (running s'')))
      ∧ addresses_seen_ (handler (running s))
        ⊆ addresses_seen_ (handler (running s'')).
Proof.
  unfold Stop, Start.
  destruct (tracer_ (handler (running s))) as [running_options|] eqn:Htracer; [|done].
  destruct (sender_thread_joinable s); [|done].
  destruct (join fuel (reset_tracer (running s))) as [[t1 sys]| | |] eqn:Hjoin;
    try done.
  intros [= <- <-]. cbn [running sender_thread_joinable].
  destruct (join_execution _ _ _ _ Hjoin) as [Hexec Hfin].
  pose proof (execution_tracer_null _ _ _ Hexec eq_refl) as Hnull.
  assert ((∀ d, keys_sent d (handler (running s)) ⊆ keys_sent d (handler sys))
          ∧ addresses_seen_ (handler (running s)) ⊆ addresses_seen_ (handler sys))
    as [Hkeys Hseen].
  { clear Hnull Hfin Hjoin.
    remember (reset_tracer (running s)) as sys0 eqn:Hsys0.
    assert ((∀ d, keys_sent d (handler (running s)) ⊆ keys_sent d (handler sys0))
            ∧ addresses_seen_ (handler (running s)) ⊆ addresses_seen_ (handler sys0))
      as Hstart by (subst sys0; split; [by intros []|done]).
    clear Hsys0. induction Hexec as [sys|sys0 t sys1 a sys2 _ IH Hstep]; [done|].
    destruct (IH Hstart) as [Hkeys Hseen].
    destruct (step_grows _ _ _ Hstep) as (Hkeys' & Hseen' & _).
    split; [intros d; etrans; [apply Hkeys|apply Hkeys']|].
    etrans; [apply Hseen|apply Hseen']. }
  rewrite Hnull. split; [done|]. split; [done|].
  eexists. split; [done|]. cbn.
  split_and!; try done; by intros [].
Qed.

(** *** A session on a handler that was used before *)

Lemma balance_step sys appended sys' :
  Forall disciplined (producers sys) ->
  step sys appended sys' ->
  Forall disciplined (producers sys')
  ∧ ∀ d key,
      (count_interned d key appended + pending_total d key (producers sys')
       + unsent d key (handler sys')
       = pending_total d key (producers sys) + unsent d key (handler sys))%nat.
Proof.
  intros Hdisc Hstep.
  destruct Hstep as [sys i p a p' h' Hp Hblock|sys capture_options Htracer
                    |sys stopped batch h' file' drained Hwait Hlocked Hdrained|sys stopped batch Hfwd];
    simpl.
  - assert (disciplined p) as Hpd by (by eapply Forall_lookup_1).
    split.
    + apply Forall_insert; [done|].
      by apply (block_step_balance p (handler sys) a p' h' StringDomain 0).
    + intros d key.
      destruct (block_step_balance p (handler sys) a p' h' d key Hpd Hblock) as [_ Heq].
      pose proof (pending_total_insert d key (producers sys) i p p' Hp). lia.
  - split; [done|]. by intros [] key.
  - pose proof (SenderThread_locked_inv _ _ _ _ _ _ _ Hlocked Hdrained) as (_ & _ & Hkeys & _).
    split; [done|]. intros d key.
    rewrite (drained_events_not_interned _ _ _ _ _ Hdrained). unfold unsent. by rewrite Hkeys.
  - split; [done|]. by intros d key.
Qed.

Lemma balance_execution sys0 t sys :
  execution sys0 t sys ->
  Forall disciplined (producers sys0) ->
  Forall disciplined (producers sys)
  ∧ ∀ d key,
      (count_interned d key t + pending_total d key (producers sys)
       + unsent d key (handler sys)
       = pending_total d key (producers sys0) + unsent d key (handler sys0))%nat.
Proof.
  intros Hexec Hdisc. induction Hexec as [sys|sys0 t sys' a sys'' _ IH Hstep].
  - split; [done|]. by intros d key.
  - destruct (IH Hdisc) as [Hdisc' Hbal].
    destruct (balance_step _ _ _ Hdisc' Hstep) as [Hdisc'' Hstep_bal].
    split; [done|]. intros d key. specialize (Hbal d key).
    specialize (Hstep_bal d key). rewrite count_interned_app. lia.
Qed.

(** X10. A session that [Start] opens on a handler that was used before
    does not send again what an earlier session sent: in every execution
    of the new session no interned-payload event is appended for a key
    that was marked when [Start] was called, and no address-info event for
    an address that was in the set then; for the other keys and addresses
    at most one is appended, as in a first session. *)
Theorem restart_keeps_tables capture_options threads s s' t sys :
  Start capture_options threads s = Some s' ->
  execution (running s') t sys ->
  (∀ d key, key ∈ keys_sent d (handler (running s)) ->
            count_interned d key t = 0%nat)
  ∧ (∀ d key, (count_interned d key t ≤ 1)%nat)
  ∧ (∀ a, a ∈ addresses_seen_ (handler (running s)) ->
          count_address_info a t = 0%nat)
  ∧ (∀ a, (count_address_info a t ≤ 1)%nat).
Proof.
  unfold Start.
  destruct (tracer_ (handler (running s))); [done|].
  destruct (sender_thread_joinable s); [done|].
  intros [= <-]. cbn [running]. intros Hexec.
  destruct (balance_execution _ _ _ Hexec) as [_ Hbal].
  { simpl. apply Forall_forall. intros p [cs [-> _]]%list_elem_of_fmap.
    apply disciplined_calls. }
  destruct (gate_invariant_execution _ _ _ Hexec) as [_ Hgate].
  { simpl. apply Forall_forall. intros p [cs [-> _]]%list_elem_of_fmap.
    apply gated_calls. }
  { intros a. apply may_append_total_calls. }
  simpl in Hbal, Hgate.
  assert (∀ d key, unsent d key (with_tracer (Some capture_options) (handler (running s)))
                   = unsent d key (handler (running s))) as Hunsent
      by (by intros []).
  split; [|split; [|split]].
  - intros d key Hin. specialize (Hbal d key).
    rewrite pending_total_calls, Hunsent in Hbal. unfold unsent in Hbal at 2.
    rewrite decide_True in Hbal by done. lia.
  - intros d key. specialize (Hbal d key).
    rewrite pending_total_calls, Hunsent in Hbal. unfold unsent in Hbal at 2.
    case_decide; lia.
  - intros a Hin. specialize (Hgate a). unfold seen in Hgate.
    change (addresses_seen_ (with_tracer (Some capture_options) (handler (running s))))
      with (addresses_seen_ (handler (running s))) in Hgate.
    rewrite (decide_True (P := a ∈ addresses_seen_ (handler (running s)))) in Hgate by done.
    case_decide; lia.
  - intros a. specialize (Hgate a). unfold seen in Hgate at 2. case_decide; lia.
Qed.

(** *** Colliding callstack keys *)

Lemma wrap64_step x y : wrap64 (31 * wrap64 x + y) = wrap64 (31 * x + y).
Proof.
  unfold wrap64.
  rewrite Z.add_mod, Z.mul_mod_idemp_r, <- Z.add_mod by done. done.
Qed.

Lemma ComputeCallstackKey_app l1 l2 :
  ComputeCallstackKey {| pcs := l1 ++ l2 |}
  = fold_left (fun key pc => wrap64 (31 * key + pc)) l2
      (ComputeCallstackKey {| pcs := l1 |}).
Proof. unfold ComputeCallstackKey. simpl. by rewrite fold_left_app. Qed.

(** X11. The callstack key does not tell all callstacks apart, and the
    handler tells callstacks apart by key only.  Moving 31 from one program
    counter to 1 on the frame before it keeps the key: the callstacks
    [before ++ [a; b + 31] ++ after] and [before ++ [a + 1; b] ++ after]
    are different and have the same key.  So when samples of the two come
    in, from a state in which the key is not marked, the handler appends
    the interned callstack of the first only, and the sample of the second
    carries a key that stands for the first. *)
Theorem callstack_key_collision before after a b m1 m2 h :
  0 <= a < 2 ^ 64 - 1 ->
  0 <= b < 2 ^ 64 - 31 ->
  callstack_or_key m1 = kValue {| pcs := before ++ [a; b + 31] ++ after |} ->
  callstack_or_key m2 = kValue {| pcs := before ++ [a + 1; b] ++ after |} ->
  ComputeCallstackKey {| pcs := before ++ [a; b + 31] ++ after |}
    ∉ callstack_keys_sent_ h ->
  let first := {| pcs := before ++ [a; b + 31] ++ after |} in
  let second := {| pcs := before ++ [a + 1; b] ++ after |} in
  first ≠ second
  ∧ ComputeCallstackKey first = ComputeCallstackKey second
  ∧ ∃ h',
      exec (calls [CallOnCallstackSample m1; CallOnCallstackSample m2]) h
      = Some (tt, h')
      ∧ event_buffer_ h'
        = event_buffer_ h
          ++ [kInternedCallstack (ComputeCallstackKey first) first;
              kCallstackSample (set_callstack_key (ComputeCallstackKey first) m1);
              kCallstackSample (set_callstack_key (ComputeCallstackKey first) m2)].
Proof.
  intros Ha Hb Hm1 Hm2 Hnew first second.
  assert (ComputeCallstackKey first = ComputeCallstackKey second) as Hkey.
  { unfold first, second. rewrite !ComputeCallstackKey_app, !fold_left_app.
    f_equal. simpl. rewrite !wrap64_step. f_equal. lia. }
  split; [|split; [done|]].
  - unfold first, second. intros [= Heq]. apply app_inv_head in Heq.
    injection Heq as Heq _. lia.
  - simpl calls. exec_steps.
    rewrite (exec_OnCallstackSample m1 first) by done. exec_steps.
    rewrite (exec_OnCallstackSample m2 second) by done.
    eexists. split; [reflexivity|].
    assert (∀ e h0, event_buffer_ (emplace_back e h0) = event_buffer_ h0 ++ [e])
      as Hback by done.
    rewrite Hback, event_buffer_interned, Hback, event_buffer_interned.
    unfold newly_interned at 1.
    rewrite decide_False by done.
    unfold newly_interned.
    rewrite decide_True.
    + rewrite <- Hkey, app_nil_r, <- !app_assoc. done.
    + change (Hash (CallstackPayload second)) with (ComputeCallstackKey second).
      rewrite <- Hkey.
      change (keys_sent ?d (emplace_back ?e ?h0)) with (keys_sent d h0).
      apply (interned_marks (CallstackPayload first)).
Qed.

(** *** One producer thread *)

Lemma announced_mono {A : Type} (p : Prog A) (K K' : Domain -> uint64 -> Prop) :
  (∀ d key, K d key -> K' d key) -> announced K p -> announced K' p.
Proof.
  revert K K'. induction p as [a| |e k IH|a k IH|d0 key0 k IH]; intros K K' Hsub; simpl.
  - done.
  - done.
  - intros [He Hk]. split; [by auto|]. eapply IH; [|apply Hk]. simpl.
    intros d key [?|?]; auto.
  - intros Hk b. by eapply IH.
  - intros [Htrue Hfalse]. split; [|by eapply IH].
    eapply IH; [|apply Htrue]. simpl. intros d key [?|?]; auto.
Qed.

Lemma announced_call_then c (f : unit -> Prog unit) K :
  (∀ K' u, announced K' (f u)) -> announced K (call c ≫= f).
Proof.
  intros Hf.
  assert (∀ k : uint64, bool_decide (k = k) = true) as Hrefl
      by (intros k; by apply bool_decide_eq_true).
  destruct c as [m|m|m|m|m|m|m|m|m|payload]; simpl call.
  - cbn. announced_leaves Hf.
  - unfold OnCallstackSample. destruct (callstack_or_key m); [exact I| |exact I].
    cbn. announced_leaves Hf.
  - cbn. announced_leaves Hf.
  - cbn. announced_leaves Hf.
  - unfold OnGpuJob. destruct (timeline_or_key m); [exact I| |exact I].
    cbn. announced_leaves Hf.
  - cbn. announced_leaves Hf.
  - cbn. announced_leaves Hf.
  - unfold OnAddressInfo. cbn. intros [|]; cbn; [apply Hf|].
    destruct (function_name_or_key m) as [|function_name|]; [exact I| |exact I].
    cbn. split.
    + destruct (map_name_or_key m) as [|map_name|]; [exact I| |exact I].
      cbn. announced_leaves Hf.
    + split; [by intros [] ?|].
      destruct (map_name_or_key m) as [|map_name|]; [exact I| |exact I].
      cbn. announced_leaves Hf.
  - unfold OnTracepointEvent. destruct (tracepoint_info_or_key m); [exact I| |exact I].
    cbn. announced_leaves Hf.
  - destruct payload; cbn; announced_leaves Hf.
Qed.

Lemma announced_calls cs K : announced K (calls cs).
Proof.
  revert K. induction cs as [|c cs IH]; intros K; [exact I|].
  simpl calls. apply announced_call_then. auto.
Qed.

Lemma in_stream_app_l t a d key : in_stream t d key -> in_stream (t ++ a) d key.
Proof. intros (e & He & Hkey). exists e. split; [|done]. apply elem_of_app. by left. Qed.

Lemma block_step_announced {A : Type} (p : Prog A) h appended p' h' t :
  announced (in_stream t) p ->
  (∀ d key, key ∈ keys_sent d h -> in_stream t d key ∨ (0 < pending d key p)%nat) ->
  block_step p h = Some (appended, p', h') ->
  announced (in_stream (t ++ appended)) p'
  ∧ ∀ e d key, e ∈ appended -> refers_to d key e = true -> in_stream t d key.
Proof.
  destruct p as [a| |e k|a k|d0 key0 k]; simpl; try done.
  - intros [He Hk] _ [= <- <- <-]. split.
    + eapply announced_mono; [|apply Hk]. simpl. intros d key [Hin|Hnew].
      * by apply in_stream_app_l.
      * exists e. split; [|done]. apply elem_of_app. right. by apply list_elem_of_singleton.
    + intros e' d key ->%list_elem_of_singleton. apply He.
  - intros Hk _. unfold addresses_seen_block.
    case_decide; intros [= <- <- <-]; rewrite app_nil_r;
      (split; [apply Hk|by intros e d key ?%elem_of_nil]).
  - intros [Htrue Hfalse] Hmarked. unfold keys_sent_block.
    case_decide as Hsent; intros [= <- <- <-]; rewrite app_nil_r;
      (split; [|by intros e d key ?%elem_of_nil]); [|done].
    eapply announced_mono; [|apply Htrue]. simpl.
    intros d key [Hin|[-> ->]]; [done|].
    destruct (Hmarked _ _ Hsent) as [Hin|Hpending]; [done|lia].
Qed.

Lemma stream_ordered_app t appended :
  stream_ordered t ->
  (∀ e d key, e ∈ appended -> refers_to d key e = true -> in_stream t d key) ->
  stream_ordered (t ++ appended).
Proof.
  intros Ht Ha j e d key Hj Hrefers.
  apply lookup_app_Some in Hj as [Hj|[Hlen Hj]].
  - destruct (Ht j e d key Hj Hrefers) as (i & e' & Hi & He' & Hkey).
    exists i, e'. split; [done|]. split; [|done]. by apply lookup_app_l_Some.
  - destruct (Ha e d key (list_elem_of_lookup_2 _ _ _ Hj) Hrefers) as (e' & He' & Hkey).
    apply list_elem_of_lookup_1 in He' as [i Hi].
    exists i, e'. split; [|split; [by apply lookup_app_l_Some|done]].
    apply lookup_lt_Some in Hi. lia.
Qed.

Lemma one_producer_step t sys appended sys' p :
  dedup_invariant t sys ->
  producers sys = [p] ->
  announced (in_stream t) p ->
  stream_ordered t ->
  step sys appended sys' ->
  ∃ p', producers sys' = [p']
        ∧ announced (in_stream (t ++ appended)) p'
        ∧ stream_ordered (t ++ appended).
Proof.
  intros [_ Hbal] Hps Hp Ht Hstep.
  destruct Hstep as [sys i q a p' h' Hq Hblock|sys capture_options Htracer
                    |sys stopped batch h' file' drained Hwait Hlocked Hdrained|sys stopped batch Hfwd];
    simpl.
  - rewrite Hps in Hq. destruct i as [|i]; [|by destruct i]. injection Hq as <-.
    destruct (block_step_announced p (handler sys) a p' h' t Hp) as [Hp' Ha]; [|done|].
    { intros d key Hsent. specialize (Hbal d key).
      rewrite Hps in Hbal. unfold pending_total, unsent in Hbal. simpl in Hbal.
      rewrite decide_True in Hbal by done.
      destruct (decide (0 < pending d key p)%nat); [by right|left].
      apply count_interned_pos. lia. }
    exists p'. rewrite Hps. split; [done|]. split; [done|].
    by apply stream_ordered_app.
  - exists p. by rewrite app_nil_r.
  - exists p. split; [done|]. split.
    + eapply announced_mono; [|exact Hp]. intros d key. apply in_stream_app_l.
    + apply stream_ordered_app; [done|]. intros e d key He.
      apply (drained_events_submissions _ _ _ _ Hdrained) in He. by destruct e, d.
  - exists p. by rewrite app_nil_r.
Qed.

(** X12. With one producer thread the stream is ordered for the consumer,
    whatever the sender thread and [Stop] do in between: in every
    execution, each data-bearing event appended comes after the
    interned-payload event of every key that it carries.  (With two
    threads it need not, see above.) *)
Theorem one_thread_intern_record_first capture_options file cs t sys :
  execution (started capture_options file [cs]) t sys ->
  ∀ j e d key, t !! j = Some e -> refers_to d key e = true ->
    ∃ i e', (i < j)%nat ∧ t !! i = Some e' ∧ interned_as d key e' = true.
Proof.
  intros Hexec.
  assert (∃ p, producers sys = [p] ∧ announced (in_stream t) p ∧ stream_ordered t)
    as (p & _ & _ & Ht); [|exact Ht].
  remember (started capture_options file [cs]) as sys0 eqn:Hsys0.
  induction Hexec as [sys|sys0 t sys' a sys'' Hexec IH Hstep].
  - subst. exists (calls cs). split; [done|]. split; [apply announced_calls|].
    by intros j e d key Hj.
  - destruct (IH Hsys0) as (p & Hps & Hp & Ht). subst sys0.
    eapply one_producer_step; [|done..].
    by apply (dedup_invariant_execution capture_options file [cs]).
Qed.

(** *** The [CHECK]s *)

Lemma check_free_bind {A B : Type} (p : Prog A) (f : A -> Prog B) :
  check_free p -> (∀ x, check_free (f x)) -> check_free (p ≫= f).
Proof.
  intros Hp Hf. change (p ≫= f) with (bind p f).
  induction p as [x| |e k IH|a' k IH|d key k IH]; simpl in *; auto.
Qed.

Lemma check_free_InternIfNecessary payload : check_free (InternIfNecessary payload).
Proof. destruct payload; by intros [|]. Qed.

Lemma check_free_call c : accepted c = true -> check_free (call c).
Proof.
  destruct c as [m|m|m|m|m|m|m|m|m|payload]; simpl accepted; intros Hc; try exact I.
  - unfold call, OnCallstackSample. destruct (callstack_or_key m); try done.
    cbn. by intros [|].
  - unfold call, OnGpuJob. destruct (timeline_or_key m); try done.
    cbn. by intros [|].
  - unfold call, OnAddressInfo. cbn. intros [|]; [exact I|].
    destruct (function_name_or_key m); try done.
    destruct (map_name_or_key m); try done; cbn;
      repeat first [exact I | intros [|]; cbn].
  - unfold call, OnTracepointEvent. destruct (tracepoint_info_or_key m); try done.
    cbn. by intros [|].
  - simpl call. apply check_free_bind; [apply check_free_InternIfNecessary|done].
Qed.

Lemma check_free_calls cs :
  Forall (fun c => accepted c = true) cs -> check_free (calls cs).
Proof.
  induction 1 as [|c cs Hc _ IH]; [exact I|]. simpl calls.
  apply check_free_bind; [by apply check_free_call|done].
Qed.

Lemma exec_check_free {A : Type} (p : Prog A) h : check_free p -> is_Some (exec p h).
Proof.
  revert h. induction p as [x| |e k IH|a' k IH|d key k IH]; intros h Hp; simpl in *.
  - by eexists.
  - done.
  - by apply IH.
  - destruct (addresses_seen_block a' h) as [seen h']. by apply IH.
  - destruct (keys_sent_block d key h) as [sent h']. by apply IH.
Qed.

Lemma block_step_check_free (p : Prog unit) h :
  check_free p ->
  p = Return tt
  ∨ ∃ appended p' h', block_step p h = Some (appended, p', h') ∧ check_free p'.
Proof.
  destruct p as [[]| |e k|a' k|d key k]; simpl; intros Hp.
  - by left.
  - done.
  - right. by eexists _, _, _.
  - right. destruct (addresses_seen_block a' h) as [seen h']. by eexists _, _, _.
  - right. destruct (keys_sent_block d key h) as [sent h']. by eexists _, _, _.
Qed.

Lemma block_step_keeps_check_free {A : Type} (p : Prog A) h appended p' h' :
  check_free p -> block_step p h = Some (appended, p', h') -> check_free p'.
Proof.
  destruct p as [x| |e k|a' k|d key k]; simpl; try done.
  - by intros Hk [= _ <- _].
  - intros Hk. destruct (addresses_seen_block a' h). by intros [= _ <- _].
  - intros Hk. destruct (keys_sent_block d key h). by intros [= _ <- _].
Qed.

Lemma check_free_execution sys t sys' :
  execution sys t sys' ->
  Forall check_free (producers sys) -> Forall check_free (producers sys').
Proof.
  induction 1 as [sys|sys t sys' a sys'' _ IH Hstep]; [done|].
  intros Hps. specialize (IH Hps).
  destruct Hstep as [sys' i p ap p' h' Hp Hblock|sys' capture_options Htracer
                    |sys' stopped batch h' file' drained Hwait Hlocked Hdrained|sys' stopped batch Hfwd];
    simpl; try done.
  apply Forall_insert; [done|].
  apply (block_step_keeps_check_free p (handler sys') ap p' h'); [|done].
  exact (Forall_lookup_1 _ _ _ _ IH Hp).
Qed.

Lemma exec_call_rejected c h :
  accepted c = false -> returns_early c h = false -> exec (call c) h = None.
Proof.
  destruct c as [m|m|m|m|m|m|m|m|m|payload]; simpl accepted; simpl returns_early;
    intros Hc Hearly; try done.
  - unfold call, OnCallstackSample. by destruct (callstack_or_key m).
  - unfold call, OnGpuJob. by destruct (timeline_or_key m).
  - apply bool_decide_eq_false in Hearly.
    unfold call, OnAddressInfo. exec_steps.
    unfold addresses_seen_block. rewrite decide_False by done.
    destruct (function_name_or_key m) eqn:Hfn; try done.
    exec_steps. simpl map_name_or_key.
    destruct (map_name_or_key m); done.
  - unfold call, OnTracepointEvent. by destruct (tracepoint_info_or_key m).
Qed.

(** X13. The [CHECK]s fail on an argument whose value is not set, and on
    nothing else.  A call aborts exactly when a oneof that the callback
    reads does not hold its value, unless it is an [OnAddressInfo] for an
    address seen before, which returns before its [CHECK]s.  So a thread
    whose calls all carry their values returns from all of them, from any
    state of the handler; and with such threads, whatever the
    interleaving, every thread that has not returned from its last call
    can take its next step: no thread is stopped by a [CHECK]. *)
Theorem CHECK_fails_on_unset_value_only :
  (∀ c h, exec (call c) h = None
          ↔ accepted c = false ∧ returns_early c h = false)
  ∧ (∀ cs h, Forall (fun c => accepted c = true) cs ->
             is_Some (exec (calls cs) h))
  ∧ (∀ capture_options file threads t sys i p,
       Forall (Forall (fun c => accepted c = true)) threads ->
       execution (started capture_options file threads) t sys ->
       producers sys !! i = Some p ->
       p = Return tt
       ∨ ∃ appended p' h', block_step p (handler sys) = Some (appended, p', h')).
Proof.
  split; [|split].
  - intros c h. split.
    + intros Hnone.
      destruct (accepted c) eqn:Hc.
      { destruct (exec_check_free (call c) h (check_free_call c Hc)) as [x Hx].
        congruence. }
      split; [done|].
      destruct c as [m|m|m|m|m|m|m|m|m|payload]; try done.
      simpl. apply bool_decide_eq_false. intros Hseen.
      simpl call in Hnone. by rewrite exec_OnAddressInfo_seen in Hnone.
    + intros [Hc Hearly]. by apply exec_call_rejected.
  - intros cs h Hcs. by apply exec_check_free, check_free_calls.
  - intros capture_options file threads t sys i p Hthreads Hexec Hp.
    assert (Forall check_free (producers sys)) as Hps.
    { apply (check_free_execution _ _ _ Hexec). simpl.
      apply Forall_forall. intros q [cs [-> Hcs]]%list_elem_of_fmap.
      apply check_free_calls. by eapply Forall_forall in Hthreads. }
    destruct (block_step_check_free p (handler sys)) as [->|(a & p' & h' & Hstep & _)].
    + by eapply Forall_lookup_1.
    + by left.
    + right. by eexists _, _, _.
Qed.

(** *** One event for each call *)

Lemma owes_bind {A B : Type} kind (p : Prog A) (f : A -> Prog B) n :
  settled kind p -> (∀ x, owes kind (f x) = n) ->
  owes kind (p ≫= f) = (owes kind p + n)%nat.
Proof.
  intros Hp Hf. change (p ≫= f) with (bind p f).
  induction p as [x| |e k IH|a' k IH|d key k IH]; simpl in *.
  - apply Hf.
  - done.
  - rewrite IH by done. lia.
  - apply IH, Hp.
  - apply IH, Hp.
Qed.

Lemma settled_bind {A B : Type} kind (p : Prog A) (f : A -> Prog B) n :
  settled kind p -> (∀ x, settled kind (f x)) -> (∀ x, owes kind (f x) = n) ->
  settled kind (p ≫= f).
Proof.
  intros Hp Hf Hn.
  assert (∀ q : Prog A, settled kind q -> owes kind (bind q f) = (owes kind q + n)%nat)
    as Howes by (intros q Hq; by apply (owes_bind kind q f n)).
  change (p ≫= f) with (bind p f).
  induction p as [x| |e k IH|a' k IH|d key k IH]; simpl in *; auto.
  - destruct Hp as (Ht & Hfalse & Hbump).
    split; [auto|]. split; [auto|]. rewrite !Howes by done. lia.
  - destruct Hp as (Ht & Hfalse & Hsame).
    split; [auto|]. split; [auto|]. rewrite !Howes by done. lia.
Qed.

Lemma settled_call kind c :
  accepted c = true ->
  settled kind (call c) ∧ owes kind (call c) = expected kind [c].
Proof.
  destruct c as [m|m|m|m|m|m|m|m|m|payload]; simpl accepted; intros Hc.
  - by destruct kind.
  - unfold call, OnCallstackSample. destruct (callstack_or_key m); try done.
    by destruct kind.
  - by destruct kind.
  - by destruct kind.
  - unfold call, OnGpuJob. destruct (timeline_or_key m); try done.
    by destruct kind.
  - by destruct kind.
  - by destruct kind.
  - unfold call, OnAddressInfo.
    destruct m as [address fields [|function_name|] [|map_name|]]; try done.
    by destruct kind.
  - unfold call, OnTracepointEvent. destruct (tracepoint_info_or_key m); try done.
    by destruct kind.
  - by destruct kind, payload.
Qed.

Lemma expected_cons kind c cs :
  expected kind (c :: cs) = (expected kind [c] + expected kind cs)%nat.
Proof.
  unfold expected, calls_of_kind. destruct kind; try done;
    rewrite !filter_cons, filter_nil; case_decide; simpl; done.
Qed.

Lemma settled_calls kind cs :
  Forall (fun c => accepted c = true) cs ->
  settled kind (calls cs) ∧ owes kind (calls cs) = expected kind cs.
Proof.
  induction 1 as [|c cs Hc _ [IHs IHo]]; [by destruct kind|]. simpl calls.
  destruct (settled_call kind c Hc) as [Hs Ho].
  split.
  - by apply (settled_bind kind (call c) _ (expected kind cs)).
  - rewrite (owes_bind kind (call c) _ (expected kind cs)) by done.
    by rewrite Ho, (expected_cons kind c cs).
Qed.

Lemma count_kind_app kind l1 l2 :
  count_kind kind (l1 ++ l2) = (count_kind kind l1 + count_kind kind l2)%nat.
Proof. unfold count_kind. by rewrite filter_app, length_app. Qed.

Lemma count_kind_submissions kind l :
  (∀ e, e ∈ l -> is_queue_submission e = true) -> count_kind kind l = 0%nat.
Proof.
  induction l as [|e l IH]; intros Hl; [done|].
  change (e :: l) with ([e] ++ l). rewrite count_kind_app, IH.
  - specialize (Hl e ltac:(apply elem_of_cons; by left)). by destruct e, kind.
  - intros e' He'. apply Hl. apply elem_of_cons. by right.
Qed.

Lemma block_step_owes {A : Type} kind (p : Prog A) h appended p' h' :
  settled kind p ->
  block_step p h = Some (appended, p', h') ->
  settled kind p'
  ∧ (count_kind kind appended + owes kind p' + gate_bump kind * size (addresses_seen_ h)
     = owes kind p + gate_bump kind * size (addresses_seen_ h'))%nat.
Proof.
  destruct p as [x| |e k|a' k|d key k]; simpl; try done.
  - intros Hk [= <- <- <-]. split; [done|]. unfold count_kind.
    rewrite filter_cons, filter_nil. simpl.
    destruct (event_of_kind kind e); case_decide; simpl; try done; lia.
  - intros (Ht & Hf & Hbump). unfold addresses_seen_block.
    case_decide as Hseen; intros [= <- <- <-]; (split; [done|]).
    + simpl. lia.
    + simpl. rewrite Hbump, size_union, size_singleton
        by (by apply disjoint_singleton_l).
      lia.
  - intros (Ht & Hf & Hsame). unfold keys_sent_block.
    case_decide; intros [= <- <- <-]; (split; [done|]).
    + simpl. lia.
    + rewrite Hsame. simpl. lia.
Qed.

Lemma owes_invariant_step kind sys appended sys' :
  Forall (settled kind) (producers sys) ->
  step sys appended sys' ->
  Forall (settled kind) (producers sys')
  ∧ (count_kind kind appended + sum_list_with (owes kind) (producers sys')
     + gate_bump kind * size (addresses_seen_ (handler sys))
     = sum_list_with (owes kind) (producers sys)
       + gate_bump kind * size (addresses_seen_ (handler sys')))%nat.
Proof.
  intros Hps Hstep.
  destruct Hstep as [sys i p a p' h' Hp Hblock|sys capture_options Htracer
                    |sys stopped batch h' file' drained Hwait Hlocked Hdrained|sys stopped batch Hfwd];
    simpl.
  - assert (settled kind p) as Hsettled by (by eapply Forall_lookup_1).
    destruct (block_step_owes kind p (handler sys) a p' h' Hsettled Hblock)
      as [Hp' Heq].
    split; [by apply Forall_insert|].
    pose proof (sum_list_with_insert (owes kind) (producers sys) i p p' Hp). lia.
  - split; [done|]. simpl. change (count_kind kind []) with 0%nat. lia.
  - split; [done|]. rewrite SenderThread_locked_eq, Hdrained in Hlocked.
    injection Hlocked as _ _ <- _. simpl.
    rewrite count_kind_submissions by (intros e; apply (drained_events_submissions _ _ _ _ Hdrained)).
    lia.
  - split; [done|]. change (count_kind kind []) with 0%nat. lia.
Qed.

Lemma owes_invariant_execution kind sys0 t sys :
  execution sys0 t sys ->
  Forall (settled kind) (producers sys0) ->
  Forall (settled kind) (producers sys)
  ∧ (count_kind kind t + sum_list_with (owes kind) (producers sys)
     + gate_bump kind * size (addresses_seen_ (handler sys0))
     = sum_list_with (owes kind) (producers sys0)
       + gate_bump kind * size (addresses_seen_ (handler sys)))%nat.
Proof.
  intros Hexec Hps0. induction Hexec as [sys|sys0 t sys' a sys'' _ IH Hstep].
  - split; [done|]. change (count_kind kind []) with 0%nat. lia.
  - destruct (IH Hps0) as [Hps Heq].
    destruct (owes_invariant_step kind _ _ _ Hps Hstep) as [Hps' Hstep_eq].
    split; [done|]. rewrite count_kind_app. lia.
Qed.

Lemma owes_finished kind (ps : list (Prog unit)) :
  Forall (fun p => p = Return tt) ps -> sum_list_with (owes kind) ps = 0%nat.
Proof. induction 1 as [|p ps -> _ IH]; simpl; [done|]. exact IH. Qed.

(** X14. No call is lost and none counts twice.  When the arguments of
    all calls hold their values and every thread has returned from its
    calls, then, whatever the interleaving was, the stream holds for each
    callback other than [OnAddressInfo] exactly one event of its kind for
    each call of it, and exactly one address-info event for each address
    in the set; before that, it holds no more than that. *)
Theorem one_event_for_each_call capture_options file threads t sys kind :
  Forall (Forall (fun c => accepted c = true)) threads ->
  execution (started capture_options file threads) t sys ->
  (count_kind kind t
   ≤ sum_list_with (expected kind) threads
     + gate_bump kind * size (addresses_seen_ (handler sys)))%nat
  ∧ (Forall (fun p => p = Return tt) (producers sys) ->
     count_kind kind t
     = (sum_list_with (expected kind) threads
        + gate_bump kind * size (addresses_seen_ (handler sys)))%nat).
Proof.
  intros Hthreads Hexec.
  destruct (owes_invariant_execution kind _ _ _ Hexec) as [_ Heq].
  { simpl. apply Forall_forall. intros p [cs [-> Hcs]]%list_elem_of_fmap.
    apply settled_calls. by eapply Forall_forall in Hthreads. }
  assert (sum_list_with (owes kind) (map calls threads)
          = sum_list_with (expected kind) threads) as Hstart.
  { clear Heq Hexec. induction Hthreads as [|cs threads Hcs _ IH]; [done|].
    simpl. rewrite IH. f_equal. by apply settled_calls. }
  change (producers (started capture_options file threads))
    with (map calls threads) in Heq.
  change (addresses_seen_ (handler (started capture_options file threads)))
    with (∅ : gset Z) in Heq.
  rewrite Hstart, size_empty in Heq.
  split; [lia|]. intros Hdone. rewrite owes_finished in Heq by done. lia.
Qed.

(** *** Keys in the stream *)

Lemma well_keyed_call c : appends_only well_keyed (call c).
Proof.
  destruct c as [m|m|m|m|m|m|m|m|m|payload]; try done.
  - unfold call, OnCallstackSample. destruct (callstack_or_key m); try exact I.
    cbn. intros [|]; cbn; repeat first [exact I | reflexivity | split | by eexists].
  - unfold call, OnGpuJob. destruct (timeline_or_key m); try exact I.
    cbn. intros [|]; cbn; repeat first [exact I | reflexivity | split | by eexists].
  - unfold call, OnAddressInfo. cbn. intros [|]; [exact I|].
    destruct (function_name_or_key m); try exact I.
    destruct (map_name_or_key m); cbn;
      repeat first [exact I | reflexivity | split | by eexists | intros [|]; cbn].
  - unfold call, OnTracepointEvent. destruct (tracepoint_info_or_key m); try exact I.
    cbn. intros [|]; cbn; repeat first [exact I | reflexivity | split | by eexists].
  - destruct payload; cbn; intros [|]; cbn;
      repeat first [exact I | reflexivity | split].
Qed.

Lemma well_keyed_calls cs : appends_only well_keyed (calls cs).
Proof.
  induction cs as [|c cs IH]; [exact I|]. simpl calls.
  apply appends_only_bind; auto using well_keyed_call.
Qed.

Lemma appends_only_execution (P : CaptureEvent -> Prop) sys0 t sys :
  (∀ e, is_queue_submission e = true -> P e) ->
  execution sys0 t sys ->
  Forall (appends_only P) (producers sys0) ->
  Forall (appends_only P) (producers sys) ∧ Forall P t.
Proof.
  intros Hsub Hexec Hps0. induction Hexec as [sys|sys0 t sys' a sys'' _ IH Hstep].
  - by split.
  - destruct (IH Hps0) as [Hps Ht].
    destruct Hstep as [sys' i p ap p' h' Hp Hblock|sys' capture_options Htracer
                      |sys' stopped batch h' file' drained Hwait Hlocked Hdrained|sys' stopped batch Hfwd];
      simpl.
    + assert (appends_only P p) as Hpa by (by eapply Forall_lookup_1).
      destruct (block_step_appends P p (handler sys') ap p' h' Hpa Hblock) as [Hp' Ha].
      split; [by apply Forall_insert|]. by apply Forall_app.
    + by rewrite app_nil_r.
    + split; [done|]. apply Forall_app. split; [done|].
      apply Forall_forall. intros e He. by eapply Hsub, drained_events_submissions.
    + by rewrite app_nil_r.
Qed.

(** X15. What the stream holds, in every execution: a callstack sample, a
    GPU job, an address info and a tracepoint event carry keys, never the
    callstack, the strings or the tracepoint info themselves, and every
    interned-payload event carries the key computed from its payload. *)
Theorem stream_is_well_keyed capture_options file threads t sys e :
  execution (started capture_options file threads) t sys ->
  e ∈ t ->
  well_keyed e.
Proof.
  intros Hexec He.
  destruct (appends_only_execution well_keyed _ _ _
              ltac:(by intros []) Hexec) as [_ Ht].
  - simpl. apply Forall_forall. intros p [cs [-> _]]%list_elem_of_fmap.
    apply well_keyed_calls.
  - by eapply Forall_forall in Ht.
Qed.

End Lifecycle.

(** *** The framing of the side-channel file *)

Section Framing.
Context {protos : Protos}.

(** X16. The framing alone decides what the drain reads: for every content
    of the file there is a sequence of payloads, the same for every
    decoder, such that the drain appends one event for each payload, in
    order, holding what the decoder leaves in the message for it; and
    whether the drain is defined depends on the content alone.  Whether a
    payload decodes has no influence on the number of events or on the
    payloads read after it. *)
Theorem drain_depends_on_framing_only (input : list byte) :
  ∃ payloads : option (list (list byte)),
    ∀ library : Library,
      read_messages input [] = map queue_submission_event <$> payloads.
Proof.
  remember (length input) as n eqn:Hn. revert input Hn.
  induction n as [n IH] using lt_wf_ind. intros input ->.
  destruct (ReadLittleEndian32 input) as [[message_size input1]|] eqn:Hsize.
  - destruct (ReadRaw (int_of_uint32 message_size) input1)
      as [[buffer input2]| |] eqn:Hraw.
    + assert (length input2 < length input)%nat as Hshorter.
      { clear IH. unfold ReadLittleEndian32, ReadRaw in *.
        destruct input as [|b0 [|b1 [|b2 [|b3 rest]]]]; try discriminate.
        injection Hsize as <- <-.
        case_decide; [discriminate|]. case_decide; [|discriminate].
        injection Hraw as _ <-. rewrite length_drop. simpl. lia. }
      destruct (IH _ Hshorter input2 eq_refl) as [payloads Hpayloads].
      exists (cons buffer <$> payloads). intros library.
      rewrite read_messages_step. unfold ReadMessage. rewrite Hsize, Hraw.
      rewrite read_messages_app, Hpayloads. by destruct payloads.
    + exists (Some []). intros library.
      rewrite read_messages_step. unfold ReadMessage. by rewrite Hsize, Hraw.
    + exists None. intros library.
      rewrite read_messages_step. unfold ReadMessage. by rewrite Hsize, Hraw.
  - exists (Some []). intros library.
    rewrite read_messages_step. unfold ReadMessage. by rewrite Hsize.
Qed.

End Framing.

(** ** The properties on concrete inputs *)

#[local] Existing Instance sample_protos.
#[local] Existing Instance sample_library.




Lemma intern_record_before_reference_witness :
  match exec (calls [CallOnThreadName 7%nat; CallOnGpuJob sample_gpu_job]) new_handler with
  | Some (_, h') =>
      event_buffer_ h' !! 2%nat
      = Some (kGpuJob (set_timeline_key (sample_hash "gfx") sample_gpu_job))
      ∧ ∃ i e', (i < 2)%nat ∧ event_buffer_ h' !! i = Some e'
                ∧ interned_as StringDomain (sample_hash "gfx") e' = true
  | None => False
  end.
Proof.
  destruct (exec _ new_handler) as [[[] h']|] eqn:Hexec.
  - assert (event_buffer_ h' !! 2%nat
            = Some (kGpuJob (set_timeline_key (sample_hash "gfx") sample_gpu_job)))
      as Hdata.
    { pose proof (f_equal (fmap (fun r => event_buffer_ (snd r) !! 2%nat)) Hexec) as Hj.
      vm_compute in Hj. injection Hj as Hj. symmetry. exact Hj. }
    split; [exact Hdata|].
    apply (proj2 intern_record_before_reference _ _ Hexec _ _ _ _ Hdata).
    vm_compute. reflexivity.
  - vm_compute in Hexec. discriminate.
Defined.

Lemma drain_at_shutdown_witness :
  SenderThread_locked new_handler
    (Some (records [[x61; x62; x63]; [x77; x78; x79; x7a]]))
  = Some (true, [kGpuQueueSubmission [x61; x62; x63];
                 kGpuQueueSubmission [x77; x78; x79; x7a]],
          with_event_buffer [] new_handler, None)
  ∧ SenderThread_locked new_handler
      (Some (records [[x61; x62; x63]; [x77; x78; x79; x7a]]
             ++ WriteLittleEndian32 10 ++ [x01; x02; x03; x04]))
    = Some (true, [kGpuQueueSubmission [x61; x62; x63];
                   kGpuQueueSubmission [x77; x78; x79; x7a]],
            with_event_buffer [] new_handler, None)
  ∧ SenderThread_locked new_handler None
    = Some (true, [], with_event_buffer [] new_handler, None).
Proof.
  refine (drain_at_shutdown new_handler [[x61; x62; x63]; [x77; x78; x79; x7a]]
            (WriteLittleEndian32 10 ++ [x01; x02; x03; x04]) _ _ _).
  - reflexivity.
  - repeat constructor; unfold fits_prefix; simpl; lia.
  - right. exists 10, [x01; x02; x03; x04]. split; [reflexivity|]. simpl. lia.
Defined.



Lemma address_info_first_call_only_witness :
  (∃ h', exec (OnAddressInfo (sample_address_info 4096 "_Zfoo")) new_handler
         = Some (tt, h')
         ∧ addresses_seen_ h' = {[4096]} ∪ ∅
         ∧ exec (OnAddressInfo (sample_address_info 4096 "bar")) h' = Some (tt, h')).
Proof.
  destruct (proj1 (address_info_first_call_only (sample_address_info 4096 "_Zfoo")
                     new_handler) "_Zfoo"%string "/usr/lib/libc.so"%string)
    as (h' & Hexec & _ & Hseen & _).
  - apply not_elem_of_empty.
  - reflexivity.
  - reflexivity.
  - exists h'. split; [exact Hexec|]. split; [exact Hseen|].
    apply (proj2 (proj2 (address_info_first_call_only
                           (sample_address_info 4096 "_Zfoo") new_handler))
             h' [] h' (sample_address_info 4096 "bar") Hexec); reflexivity.
Defined.

Lemma sender_wait_dual_trigger_witness :
  SenderThread_iteration sample_burst 0
    (with_tracer (Some tt) new_handler)
    {| orbit_test_file := None; ProcessEvents_calls := [] |}
  = Some (4%nat, false, with_tracer (Some tt) new_handler,
          {| orbit_test_file := None;
             ProcessEvents_calls := [replicate 5000 (kThreadName 7%nat)] |})
  ∧ (4 < 0 + 20)%nat.
Proof.
  assert (SenderThread_iteration sample_burst 0
            (with_tracer (Some tt) new_handler)
            {| orbit_test_file := None; ProcessEvents_calls := [] |}
          = Some (4%nat, false, with_tracer (Some tt) new_handler,
                  {| orbit_test_file := None;
                     ProcessEvents_calls :=
                       [replicate 5000 (kThreadName 7%nat)] |}))
    as Hiteration by (vm_compute; reflexivity).
  split; [exact Hiteration|].
  destruct (sender_wait_dual_trigger _ _ _ _ _ _ _ _ Hiteration)
    as (drained & _ & _ & _ & _ & _ & Hburst & _).
  apply (Hburst 4%nat); [lia|]. vm_compute. apply le_n.
Defined.

Lemma drain_keeps_undecodable_record_witness :
  fst (ParseFromArray []) = false
  ∧ read_messages
      (records [[x61; x62; x63]] ++ record [] ++ records [[x77; x78; x79; x7a]]) []
    = Some [kGpuQueueSubmission [x61; x62; x63]; kGpuQueueSubmission [];
            kGpuQueueSubmission [x77; x78; x79; x7a]].
Proof.
  split; [reflexivity|].
  refine (proj2 (drain_keeps_undecodable_record
                   [[x61; x62; x63]] [] [[x77; x78; x79; x7a]] [] _ _ _ _)).
  - repeat constructor; unfold fits_prefix; simpl; lia.
  - unfold fits_prefix; simpl; lia.
  - repeat constructor; unfold fits_prefix; simpl; lia.
  - reflexivity.
Defined.

Lemma address_info_keys_witness :
  ∃ h1 h2,
    exec (OnAddressInfo (sample_address_info 4096 "_Zfoo")) new_handler = Some (tt, h1)
    ∧ exec (OnAddressInfo (sample_address_info 8192 "foo")) h1 = Some (tt, h2)
    ∧ (∃ m1', last (event_buffer_ h1) = Some (kAddressInfo m1')
              ∧ function_name_or_key m1' = kKey (sample_hash "foo"))
    ∧ (∃ m2', last (event_buffer_ h2) = Some (kAddressInfo m2')
              ∧ function_name_or_key m2' = kKey (sample_hash "foo"))
    ∧ count_interned StringDomain (sample_hash "foo") (event_buffer_ h2) = 1%nat.
Proof.
  refine (proj2 address_info_keys
            (sample_address_info 4096 "_Zfoo") (sample_address_info 8192 "foo")
            new_handler "_Zfoo"%string "foo"%string
            "/usr/lib/libc.so"%string "/usr/lib/libc.so"%string _ _ _ _ _ _ _ _).
  - apply not_elem_of_empty.
  - apply not_elem_of_empty.
  - vm_compute. discriminate.
  - reflexivity.
  - reflexivity.
  - reflexivity.
  - reflexivity.
  - reflexivity.
Defined.

(** ** More properties on concrete inputs *)


Lemma tables_only_grow_witness :
  match sample_session with
  | Some (_, sys) =>
      (∀ d, keys_sent d (with_tracer (Some tt) new_handler) ⊆ keys_sent d (handler sys))
      ∧ addresses_seen_ (with_tracer (Some tt) new_handler)
        ⊆ addresses_seen_ (handler sys)
      ∧ (tracer_ (with_tracer (Some tt) new_handler) = None ->
         tracer_ (handler sys) = None)
  | None => False
  end.
Proof.
  destruct sample_session as [[t sys]|] eqn:Hrun.
  - exact (tables_only_grow _ _ _ (run_schedule_execution _ _ _ _ Hrun)).
  - vm_compute in Hrun. discriminate.
Defined.

Lemma marked_keys_sent_exactly_once_witness :
  match sample_session with
  | Some (t, sys) =>
      producers sys = [Return tt]
      ∧ count_interned StringDomain (sample_hash "gfx") t
        = if decide (sample_hash "gfx" ∈ keys_sent StringDomain (handler sys))
          then 1%nat else 0%nat
  | None => False
  end.
Proof.
  destruct sample_session as [[t sys]|] eqn:Hrun.
  - assert (fmap (fun r => producers (snd r)) sample_session = Some [Return tt])
      as Hps by (vm_compute; reflexivity).
    rewrite Hrun in Hps. injection Hps as Hps.
    split; [exact Hps|].
    apply (marked_keys_sent_exactly_once _ _ _ _ _ _ _
             (run_schedule_execution _ _ _ _ Hrun)).
    rewrite Hps. by repeat constructor.
  - vm_compute in Hrun. discriminate.
Defined.

Lemma references_are_marked_witness :
  match sample_session with
  | Some (t, sys) =>
      kGpuJob (set_timeline_key (sample_hash "gfx") sample_gpu_job) ∈ t
      ∧ sample_hash "gfx" ∈ keys_sent StringDomain (handler sys)
      ∧ ∃ e', e' ∈ t ∧ interned_as StringDomain (sample_hash "gfx") e' = true
  | None => False
  end.
Proof.
  destruct sample_session as [[t sys]|] eqn:Hrun.
  - assert (fmap (fun r => producers (snd r)) sample_session = Some [Return tt])
      as Hps by (vm_compute; reflexivity).
    rewrite Hrun in Hps. injection Hps as Hps.
    assert (fmap (fun r => fst r !! 2%nat) sample_session
            = Some (Some (kGpuJob (set_timeline_key (sample_hash "gfx") sample_gpu_job))))
      as Ht by (vm_compute; reflexivity).
    rewrite Hrun in Ht. injection Ht as Ht.
    apply list_elem_of_lookup_2 in Ht.
    destruct (references_are_marked _ _ _ _ _ (run_schedule_execution _ _ _ _ Hrun))
      as [Hmarked Hinterned].
    split; [exact Ht|]. split.
    + apply (Hmarked _ _ _ Ht). vm_compute. reflexivity.
    + apply (Hinterned ltac:(rewrite Hps; by repeat constructor) _ _ _ Ht).
      vm_compute. reflexivity.
  - vm_compute in Hrun. discriminate.
Defined.

Lemma reference_can_overtake_intern_record_witness :
  ∃ t sys,
    execution (started tt None [[CallOnGpuJob sample_gpu_job]; [CallOnGpuJob sample_gpu_job]])
      t sys
    ∧ t = [kGpuJob (set_timeline_key (ComputeStringKey "gfx") sample_gpu_job);
           kInternedString (ComputeStringKey "gfx") "gfx";
           kGpuJob (set_timeline_key (ComputeStringKey "gfx") sample_gpu_job)]
    ∧ ProcessEvents_calls (world sys)
      = [[kGpuJob (set_timeline_key (ComputeStringKey "gfx") sample_gpu_job)];
         [kInternedString (ComputeStringKey "gfx") "gfx";
          kGpuJob (set_timeline_key (ComputeStringKey "gfx") sample_gpu_job)]].
Proof.
  exact (reference_can_overtake_intern_record tt None sample_gpu_job sample_gpu_job
           "gfx"%string eq_refl eq_refl).
Defined.

Lemma address_info_at_most_once_witness :
  match sample_address_race with
  | Some (t, sys) =>
      producers sys = [Return tt; Return tt]
      ∧ t = [kInternedString (sample_hash "foo") "foo";
             kInternedString (sample_hash "/usr/lib/libc.so") "/usr/lib/libc.so";
             address_info_event (sample_address_info 4096 "_Zfoo")
               "_Zfoo" "/usr/lib/libc.so"]
      ∧ (count_address_info 4096 t ≤ 1)%nat
  | None => False
  end.
Proof.
  destruct sample_address_race as [[t sys]|] eqn:Hrun.
  - assert (fmap (fun r => producers (snd r)) sample_address_race
            = Some [Return tt; Return tt])
      as Hps by (vm_compute; reflexivity).
    rewrite Hrun in Hps. injection Hps as Hps.
    pose proof (f_equal (fmap fst) Hrun) as Ht. vm_compute in Ht.
    split; [exact Hps|]. split.
    + injection Ht as <-. reflexivity.
    + exact (address_info_at_most_once _ _ _ _ _ 4096
               (run_schedule_execution _ _ _ _ Hrun)).
  - vm_compute in Hrun. discriminate.
Defined.



Lemma Start_after_Stop_witness :
  match sample_running with
  | Some (_, sys) =>
      match Stop 3 {| running := sys; sender_thread_joinable := true |} with
      | Done (_, s') =>
          Stop 3 s' = Aborted
          ∧ Start tt [] {| running := sys; sender_thread_joinable := true |} = None
          ∧ ∃ s'', Start tt [] s' = Some s''
                   ∧ keys_sent StringDomain (handler (running s''))
                     = keys_sent StringDomain (handler (running s'))
      | _ => False
      end
  | None => False
  end.
Proof.
  destruct sample_running as [[t sys]|] eqn:Hrun.
  - assert (fmap (fun r =>
              match Stop 3 {| running := snd r; sender_thread_joinable := true |} with
              | Done _ => true
              | _ => false
              end) sample_running = Some true)
      as Hcompute by (vm_compute; reflexivity).
    rewrite Hrun in Hcompute. cbn [fmap option_fmap option_map snd] in Hcompute.
    destruct (Stop 3 {| running := sys; sender_thread_joinable := true |})
      as [[t' s']| | |] eqn:HStop; try discriminate.
    destruct (Start_after_Stop _ _ _ _ (tt : @CaptureOptions sample_protos) [] HStop)
      as (Hagain & Hearly & s'' & HStart & _ & _ & _ & _ & _ & _ & Hkeys & _).
    split; [exact Hagain|]. split; [exact Hearly|].
    exists s''. split; [exact HStart|]. apply Hkeys.
  - vm_compute in Hrun. discriminate.
Defined.

Lemma restart_keeps_tables_witness :
  sample_hash "gfx" ∈ keys_sent StringDomain (handler (running sample_stopped))
  ∧ match Start tt [[CallOnGpuJob sample_gpu_job]] sample_stopped with
    | Some s' =>
        match run_schedule [RunProducer 0; RunProducer 0] (running s') with
        | Some (t, sys) =>
            t = [kGpuJob (set_timeline_key (sample_hash "gfx") sample_gpu_job)]
            ∧ producers sys = [Return tt]
            ∧ count_interned StringDomain (sample_hash "gfx") t = 0%nat
        | None => False
        end
    | None => False
    end.
Proof.
  assert (sample_hash "gfx" ∈ keys_sent StringDomain (handler (running sample_stopped)))
    as Hmarked by (apply (bool_decide_unpack _); vm_compute; exact I).
  split; [exact Hmarked|].
  destruct (Start (tt : @CaptureOptions sample_protos) [[CallOnGpuJob sample_gpu_job]]
                   sample_stopped) as [s'|] eqn:HStart.
  - destruct (run_schedule [RunProducer 0; RunProducer 0] (running s'))
      as [[t sys]|] eqn:Hrun.
    + assert (fmap (fun s => fmap (fun r => (fst r, producers (snd r)))
                           (run_schedule [RunProducer 0; RunProducer 0] (running s)))
                (Start (tt : @CaptureOptions sample_protos) [[CallOnGpuJob sample_gpu_job]]
                   sample_stopped)
              = Some (Some ([kGpuJob (set_timeline_key (sample_hash "gfx")
                                        sample_gpu_job)],
                            [Return tt])))
        as Hcompute by (vm_compute; reflexivity).
      rewrite HStart in Hcompute. cbn [fmap option_fmap option_map] in Hcompute.
      rewrite Hrun in Hcompute.
      simpl in Hcompute. injection Hcompute as -> ->.
      split; [reflexivity|]. split; [reflexivity|].
      exact (proj1 (restart_keeps_tables _ _ _ _ _ _ HStart
                      (run_schedule_execution _ _ _ _ Hrun))
               StringDomain (sample_hash "gfx") Hmarked).
    + assert (fmap (fun s =>
                match run_schedule [RunProducer 0; RunProducer 0] (running s) with
                | Some _ => true
                | None => false
                end)
                (Start (tt : @CaptureOptions sample_protos) [[CallOnGpuJob sample_gpu_job]]
                   sample_stopped)
              = Some true) as Hcompute by (vm_compute; reflexivity).
      rewrite HStart in Hcompute. cbn [fmap option_fmap option_map] in Hcompute.
      rewrite Hrun in Hcompute.
      discriminate.
  - vm_compute in HStart. discriminate.
Defined.

Lemma callstack_key_collision_witness :
  {| pcs := [4096; 8192 + 31; 12288] |} ≠ {| pcs := [4096 + 1; 8192; 12288] |}
  ∧ ComputeCallstackKey {| pcs := [4096; 8192 + 31; 12288] |}
    = ComputeCallstackKey {| pcs := [4096 + 1; 8192; 12288] |}
  ∧ ∃ h',
      exec (calls [CallOnCallstackSample
                     (sample_callstack_sample [4096; 8192 + 31; 12288]);
                   CallOnCallstackSample
                     (sample_callstack_sample [4096 + 1; 8192; 12288])])
        new_handler
      = Some (tt, h')
      ∧ event_buffer_ h'
        = event_buffer_ new_handler
          ++ [kInternedCallstack
                (ComputeCallstackKey {| pcs := [4096; 8192 + 31; 12288] |})
                {| pcs := [4096; 8192 + 31; 12288] |};
              kCallstackSample
                (set_callstack_key
                   (ComputeCallstackKey {| pcs := [4096; 8192 + 31; 12288] |})
                   (sample_callstack_sample [4096; 8192 + 31; 12288]));
              kCallstackSample
                (set_callstack_key
                   (ComputeCallstackKey {| pcs := [4096; 8192 + 31; 12288] |})
                   (sample_callstack_sample [4096 + 1; 8192; 12288]))].
Proof.
  refine (callstack_key_collision [] [12288] 4096 8192
            (sample_callstack_sample [4096; 8192 + 31; 12288])
            (sample_callstack_sample [4096 + 1; 8192; 12288])
            new_handler _ _ _ _ _).
  - lia.
  - lia.
  - reflexivity.
  - reflexivity.
  - apply not_elem_of_empty.
Defined.

Lemma CHECK_fails_on_unset_value_only_witness :
  exec (call (CallOnGpuJob sample_unset_gpu_job)) new_handler = None
  ∧ is_Some (exec (calls [CallOnThreadName 7%nat; CallOnGpuJob sample_gpu_job])
               new_handler).
Proof.
  split.
  - apply (proj1 CHECK_fails_on_unset_value_only). by split.
  - apply (proj1 (proj2 CHECK_fails_on_unset_value_only)). by repeat constructor.
Defined.


Lemma one_thread_intern_record_first_witness :
  match sample_session with
  | Some (t, _) =>
      t !! 2%nat = Some (kGpuJob (set_timeline_key (sample_hash "gfx") sample_gpu_job))
      ∧ ∃ i e', (i < 2)%nat ∧ t !! i = Some e'
                ∧ interned_as StringDomain (sample_hash "gfx") e' = true
  | None => False
  end.
Proof.
  destruct sample_session as [[t sys]|] eqn:Hrun.
  - assert (fmap (fun r => fst r !! 2%nat) sample_session
            = Some (Some (kGpuJob (set_timeline_key (sample_hash "gfx") sample_gpu_job))))
      as Ht by (vm_compute; reflexivity).
    rewrite Hrun in Ht. injection Ht as Ht.
    split; [exact Ht|].
    apply (one_thread_intern_record_first _ _ _ _ _
             (run_schedule_execution _ _ _ _ Hrun) _ _ _ _ Ht).
    vm_compute. reflexivity.
  - vm_compute in Hrun. discriminate.
Defined.

Lemma one_event_for_each_call_witness :
  match sample_address_race with
  | Some (t, sys) =>
      count_kind AddressInfoKind t = 1%nat
      ∧ count_kind AddressInfoKind t
        = (sum_list_with (expected AddressInfoKind)
             [[CallOnAddressInfo (sample_address_info 4096 "_Zfoo")];
              [CallOnAddressInfo (sample_address_info 4096 "_Zfoo")]]
           + gate_bump AddressInfoKind * size (addresses_seen_ (handler sys)))%nat
  | None => False
  end.
Proof.
  destruct sample_address_race as [[t sys]|] eqn:Hrun.
  - assert (fmap (fun r => producers (snd r)) sample_address_race
            = Some [Return tt; Return tt])
      as Hps by (vm_compute; reflexivity).
    rewrite Hrun in Hps. injection Hps as Hps.
    assert (fmap (fun r => count_kind AddressInfoKind (fst r)) sample_address_race
            = Some 1%nat)
      as Hcount by (vm_compute; reflexivity).
    rewrite Hrun in Hcount. injection Hcount as Hcount.
    split; [exact Hcount|].
    pose proof (run_schedule_execution _ _ _ _ Hrun) as Hexec.
    refine (proj2 (one_event_for_each_call _ _ _ _ _ AddressInfoKind _ Hexec) _).
    + by repeat constructor.
    + rewrite Hps. by repeat constructor.
  - vm_compute in Hrun. discriminate.
Defined.

Lemma stream_is_well_keyed_witness :
  match sample_session with
  | Some (t, _) =>
      t !! 2%nat = Some (kGpuJob (set_timeline_key (sample_hash "gfx") sample_gpu_job))
      ∧ well_keyed (kGpuJob (set_timeline_key (sample_hash "gfx") sample_gpu_job))
  | None => False
  end.
Proof.
  destruct sample_session as [[t sys]|] eqn:Hrun.
  - assert (fmap (fun r => fst r !! 2%nat) sample_session
            = Some (Some (kGpuJob (set_timeline_key (sample_hash "gfx") sample_gpu_job))))
      as Ht by (vm_compute; reflexivity).
    rewrite Hrun in Ht. injection Ht as Ht.
    split; [exact Ht|].
    exact (stream_is_well_keyed _ _ _ _ _ _
             (run_schedule_execution _ _ _ _ Hrun) (list_elem_of_lookup_2 _ _ _ Ht)).
  - vm_compute in Hrun. discriminate.
Defined.

Lemma drain_depends_on_framing_only_witness :
  ∃ payloads : option (list (list byte)),
    ∀ library : Library,
      read_messages (sample_file ++ [x05; x00; x00; x00; x01]) []
      = map queue_submission_event <$> payloads.
Proof.
  exact (drain_depends_on_framing_only (sample_file ++ [x05; x00; x00; x00; x01])).
Defined.
